(** * boringSQL/queries: scanner and parameter analysis, embedded in Rocq

    The development follows the two Go files of the package:
    [scanner.go] (the line scanner that cuts a stream into named blocks) and
    [queries.go] (comment stripping, placeholder detection, ordinal rewriting,
    argument binding and the query store).

    Conventions of the embedding:
    - a Go [string] is a [string] of bytes; the character classes of every
      pattern of the package are ASCII classes, so matching byte by byte
      yields the same captures as matching rune by rune;
    - a Go [int] is a [Z]; the one place where the 64-bit range can be left
      from a short input (the [$N] markers) has its overflow written out;
    - a Go [map] is a [gmap]; every [for ... range m] takes its iteration
      order from a [range_oracle], since Go leaves that order unspecified;
    - [regexp] is modelled by a small backtracking matcher with the
      leftmost-first semantics of the Go library. *)

From Stdlib Require Import ZArith Ascii String List Lia DecimalString DecimalZ.
From stdpp Require Import base option list gmap strings sorting.

Local Open Scope Z_scope.

(** ** Bytes and strings: the parts of [strings] and [fmt] the package uses *)

Module Str.

Definition byte_in (lo hi c : ascii) : bool :=
  (nat_of_ascii lo <=? nat_of_ascii c)%nat && (nat_of_ascii c <=? nat_of_ascii hi)%nat.

Definition is_digit (c : ascii) : bool := byte_in "0" "9" c.
Definition is_upper (c : ascii) : bool := byte_in "A" "Z" c.
Definition is_lower (c : ascii) : bool := byte_in "a" "z" c.
Definition is_alpha (c : ascii) : bool := is_upper c || is_lower c.
Definition is_word (c : ascii) : bool :=
  is_alpha c || is_digit c || Ascii.eqb c "_".
Definition is_quote (c : ascii) : bool :=
  Ascii.eqb c "'" || Ascii.eqb c "034".
Definition newline : ascii := "010".
Definition tab : ascii := "009".

(** [len(s)] *)
Definition len (s : string) : nat := String.length s.

(** [s[:n]] and [s[n:]] *)
Fixpoint take (n : nat) (s : string) : string :=
  match n, s with
  | S n', String c s' => String c (take n' s')
  | _, _ => EmptyString
  end.

Fixpoint drop (n : nat) (s : string) : string :=
  match n, s with
  | S n', String _ s' => drop n' s'
  | _, _ => s
  end.

(** [strings.HasPrefix(s, p)] *)
Fixpoint HasPrefix (s p : string) {struct p} : bool :=
  match p, s with
  | EmptyString, _ => true
  | String a p', String b s' => Ascii.eqb a b && HasPrefix s' p'
  | String _ _, EmptyString => false
  end.

(** [strings.Index(s, sub)]: the first index of [sub] in [s], or [-1]. *)
Fixpoint Index (s sub : string) : Z :=
  if HasPrefix s sub then 0
  else match s with
       | EmptyString => -1
       | String _ s' =>
           let i := Index s' sub in
           if i <? 0 then -1 else i + 1
       end.

(** [strings.IndexByte(s, b) >= 0] *)
Fixpoint ContainsByte (s : string) (b : ascii) : bool :=
  match s with
  | EmptyString => false
  | String c s' => Ascii.eqb c b || ContainsByte s' b
  end.

(** [strings.Split(s, sep)] for a one-byte separator. *)
Fixpoint Split (s : string) (sep : ascii) : list string :=
  match s with
  | EmptyString => [EmptyString]
  | String c s' =>
      if Ascii.eqb c sep then EmptyString :: Split s' sep
      else match Split s' sep with
           | h :: t => String c h :: t
           | [] => [String c EmptyString]
           end
  end.

(** [strings.Join(elems, sep)] *)
Fixpoint Join (elems : list string) (sep : string) : string :=
  match elems with
  | [] => EmptyString
  | [x] => x
  | x :: rest => x +:+ sep +:+ Join rest sep
  end.

Definition rev (s : string) : string :=
  string_of_list_ascii (List.rev (list_ascii_of_string s)).

(** [strings.Trim(s, cutset)] for a cut set of single bytes. *)
Fixpoint TrimLeftBytes (cut : ascii -> bool) (s : string) : string :=
  match s with
  | String c s' => if cut c then TrimLeftBytes cut s' else s
  | EmptyString => EmptyString
  end.

Definition TrimBytes (cut : ascii -> bool) (s : string) : string :=
  rev (TrimLeftBytes cut (rev (TrimLeftBytes cut s))).

(** The UTF-8 encodings of the code points for which [unicode.IsSpace]
    holds: TAB..CR, SPACE, U+0085, U+00A0, U+1680, U+2000..U+200A,
    U+2028, U+2029, U+202F, U+205F, U+3000. *)
Definition space_encodings : list string :=
  let b (n : nat) := ascii_of_nat n in
  let s1 a := String (b a) EmptyString in
  let s2 a c := String (b a) (String (b c) EmptyString) in
  let s3 a c d := String (b a) (String (b c) (String (b d) EmptyString)) in
  [ s1 9; s1 10; s1 11; s1 12; s1 13; s1 32;
    s2 194 133; s2 194 160; s3 225 154 128;
    s3 226 128 128; s3 226 128 129; s3 226 128 130; s3 226 128 131;
    s3 226 128 132; s3 226 128 133; s3 226 128 134; s3 226 128 135;
    s3 226 128 136; s3 226 128 137; s3 226 128 138;
    s3 226 128 168; s3 226 128 169; s3 226 128 175;
    s3 226 129 159; s3 227 128 128 ]%nat.

(** The length of the white-space rune [s] starts with, if any. *)
Definition leading_space (encs : list string) (s : string) : option nat :=
  len <$> List.find (HasPrefix s) encs.

Fixpoint TrimSpaceLeft (encs : list string) (fuel : nat) (s : string) : string :=
  match fuel with
  | O => s
  | S fuel' =>
      match leading_space encs s with
      | Some n => TrimSpaceLeft encs fuel' (drop n s)
      | None => s
      end
  end.

(** [strings.TrimSpace(s)] *)
Definition TrimSpace (s : string) : string :=
  let l := TrimSpaceLeft space_encodings (len s) s in
  rev (TrimSpaceLeft (List.map rev space_encodings) (len l) (rev l)).

Definition lower_byte (c : ascii) : ascii :=
  if is_upper c then ascii_of_nat (nat_of_ascii c + 32) else c.

(** [strings.ToLower(s)] on ASCII text. *)
Fixpoint ToLower (s : string) : string :=
  match s with
  | EmptyString => EmptyString
  | String c s' => String (lower_byte c) (ToLower s')
  end.

(** [strings.TrimSuffix(s, suffix)] *)
Definition TrimSuffix (s suffix : string) : string :=
  if HasPrefix (rev s) (rev suffix) then take (len s - len suffix) s else s.

(** [fmt.Sprintf("%d", n)] *)
Definition itoa (n : Z) : string := NilEmpty.string_of_int (Z.to_int n).

Definition digit_val (c : ascii) : Z := Z.of_nat (nat_of_ascii c) - 48.

(** The value of a string of decimal digits. *)
Definition decimal (s : string) : Z :=
  fold_left (fun acc c => 10 * acc + digit_val c) (list_ascii_of_string s) 0.

End Str.

(** ** [regexp]: a backtracking matcher with leftmost-first semantics *)

Module Regexp.

(** The syntax the package's patterns need.  [Cap i r] is the capturing
    group number [i]; [Bol] and [Eol] are [^] and [$] without the
    multi-line flag. *)
Inductive regex : Type :=
| Cls (p : ascii -> bool)
| Lit (s : string)
| Cat (r1 r2 : regex)
| Opt (r : regex)
| Star (r : regex)
| Plus (r : regex)
| Cap (i : nat) (r : regex)
| Bol
| Eol.

(** A position in the text: the offset, the text from there on, and
    the groups captured so far as (start, end) offsets. *)
Record cursor : Type := Cursor {
  c_pos : nat;
  c_rest : string;
  c_caps : list (option (nat * nat))
}.

Definition advance (c : cursor) (s' : string) : cursor :=
  Cursor (S (c_pos c)) s' (c_caps c).

Fixpoint eat (lit : string) (c : cursor) : option cursor :=
  match lit with
  | EmptyString => Some c
  | String a lit' =>
      match c_rest c with
      | String b s' => if Ascii.eqb a b then eat lit' (advance c s') else None
      | EmptyString => None
      end
  end.

(** The greedy loop of [*]: [step] matches the body once.  A round is
    taken first if it moves on in the text, and given up for the
    continuation [k] if nothing that follows it works out. *)
Fixpoint star_loop (step : (cursor -> option cursor) -> cursor -> option cursor)
    (k : cursor -> option cursor) (n : nat) (c : cursor) : option cursor :=
  match n with
  | O => k c
  | S n' =>
      match step (fun c' => if (c_pos c <? c_pos c')%nat
                            then star_loop step k n' c' else None) c with
      | Some res => Some res
      | None => k c
      end
  end.

(** [run r k c] matches [r] at [c] and hands every way of doing so to the
    continuation [k], the preferred way first: quantifiers are greedy, and
    the first way that [k] accepts is the answer. *)
Fixpoint run (r : regex) (k : cursor -> option cursor) (c : cursor)
  : option cursor :=
  match r with
  | Cls p =>
      match c_rest c with
      | String b s' => if p b then k (advance c s') else None
      | EmptyString => None
      end
  | Lit s => eat s c ≫= k
  | Cat r1 r2 => run r1 (run r2 k) c
  | Opt a =>
      match run a k c with
      | Some res => Some res
      | None => k c
      end
  | Star a => star_loop (run a) k (S (Str.len (c_rest c))) c
  | Plus a =>
      run a (fun c' => star_loop (run a) k (S (Str.len (c_rest c'))) c') c
  | Cap i a =>
      run a (fun c' =>
               k (Cursor (c_pos c') (c_rest c')
                    (<[i := Some (c_pos c, c_pos c')]> (c_caps c')))) c
  | Bol => if (c_pos c =? 0)%nat then k c else None
  | Eol => match c_rest c with EmptyString => k c | _ => None end
  end.

(** A compiled pattern: the expression and its number of groups
    (group 0 is the whole match). *)
Record Regexp : Type := MustCompile { re_expr : regex; re_groups : nat }.

(** What [FindStringSubmatchIndex] reports for one match. *)
Record found : Type := Found {
  m_start : nat;
  m_end : nat;
  m_caps : list (option (nat * nat))
}.

(** A match that starts exactly at offset [pos], where [s] is the text
    from [pos] on. *)
Definition match_at (re : Regexp) (pos : nat) (s : string) : option found :=
  match run (re_expr re) Some (Cursor pos s (replicate (S (re_groups re)) None)) with
  | Some c => Some (Found pos (c_pos c) (c_caps c))
  | None => None
  end.

(** The leftmost match at or after [pos]. *)
Fixpoint search (re : Regexp) (pos : nat) (s : string) : option found :=
  match match_at re pos s with
  | Some m => Some m
  | None =>
      match s with
      | EmptyString => None
      | String _ s' => search re (S pos) s'
      end
  end.

(** The successive non-overlapping matches.  [skip] counts the bytes of
    the previous match still to be passed; an empty match right after the
    previous match is not reported. *)
Fixpoint all_matches (re : Regexp) (skip pos : nat) (prev_end : option nat)
    (s : string) : list found :=
  match skip with
  | S skip' =>
      match s with
      | EmptyString => []
      | String _ s' => all_matches re skip' (S pos) prev_end s'
      end
  | O =>
      match match_at re pos s with
      | Some m =>
          let keep := negb (bool_decide (m_end m = pos ∧ prev_end = Some pos)) in
          let rest :=
            match s with
            | EmptyString => []
            | String _ s' =>
                all_matches re (pred (m_end m - pos)) (S pos) (Some (m_end m)) s'
            end in
          if keep then m :: rest else rest
      | None =>
          match s with
          | EmptyString => []
          | String _ s' => all_matches re O (S pos) prev_end s'
          end
      end
  end.

Definition substr (text : string) (from to : nat) : string :=
  Str.take (to - from) (Str.drop from text).

(** The text of group [i] of a match; a group that took no part in the
    match reads as the empty string. *)
Definition group (text : string) (m : found) (i : nat) : string :=
  match i with
  | O => substr text (m_start m) (m_end m)
  | _ => match m_caps m !! i with
         | Some (Some (a, b)) => substr text a b
         | _ => EmptyString
         end
  end.

Definition submatches (re : Regexp) (text : string) (m : found) : list string :=
  (fun i => group text m i) <$> seq 0 (S (re_groups re)).

(** [re.FindAllStringSubmatchIndex(text, -1)] *)
Definition FindAllStringSubmatchIndex (re : Regexp) (text : string) : list found :=
  all_matches re O O None text.

(** [re.FindAllStringSubmatch(text, -1)] *)
Definition FindAllStringSubmatch (re : Regexp) (text : string) : list (list string) :=
  submatches re text <$> FindAllStringSubmatchIndex re text.

(** [re.FindStringSubmatch(text)]; [None] is Go's [nil]. *)
Definition FindStringSubmatch (re : Regexp) (text : string) : option (list string) :=
  submatches re text <$> search re O text.

(** [re.ReplaceAllLiteralString(src, repl)]: every match is replaced by
    [repl], the text between matches is copied.  [last_end] is the end of
    the previous match; an empty match that touches it is not replaced. *)
Fixpoint replace_all (re : Regexp) (repl : string) (skip pos last_end : nat)
    (s : string) : string :=
  match skip with
  | S skip' =>
      match s with
      | EmptyString => EmptyString
      | String _ s' => replace_all re repl skip' (S pos) last_end s'
      end
  | O =>
      match match_at re pos s with
      | Some m =>
          if (pos <? m_end m)%nat then
            repl +:+
            match s with
            | EmptyString => EmptyString
            | String _ s' =>
                replace_all re repl (pred (m_end m - pos)) (S pos) (m_end m) s'
            end
          else
            (if (last_end <? pos)%nat || (pos =? 0)%nat then repl else EmptyString) +:+
            match s with
            | EmptyString => EmptyString
            | String b s' => String b (replace_all re repl O (S pos) pos s')
            end
      | None =>
          match s with
          | EmptyString => EmptyString
          | String b s' => String b (replace_all re repl O (S pos) last_end s')
          end
      end
  end.

Definition ReplaceAllLiteralString (re : Regexp) (src repl : string) : string :=
  replace_all re repl O O O src.

End Regexp.

Import Regexp.

(** ** queries.go: the patterns *)

(** [positionalParamRE = `\$(\d+)`] *)
Definition positionalParamRE : Regexp :=
  MustCompile (Cat (Lit "$") (Cap 1 (Plus (Cls Str.is_digit)))) 1.

(** The two named patterns differ in the marker byte [X] only:
    [[^X] X Q? ( [A-Za-z] [A-Za-z0-9_]* ) Q?], written here with blanks
    between its parts, where [Q] stands for the class of the single and the
    double quote. *)
Definition namedMarkerRE (marker : ascii) : Regexp :=
  MustCompile
    (Cat (Cls (fun b => negb (Ascii.eqb b marker)))
       (Cat (Cls (Ascii.eqb marker))
          (Cat (Opt (Cls Str.is_quote))
             (Cat (Cap 1 (Cat (Cls Str.is_alpha) (Star (Cls Str.is_word))))
                (Opt (Cls Str.is_quote)))))) 1.

(** [colonParamRE]: the marker is the colon. *)
Definition colonParamRE : Regexp := namedMarkerRE ":".

(** [atSignParamRE]: the marker is the at sign. *)
Definition atSignParamRE : Regexp := namedMarkerRE "@".

(** [fmt.Sprintf(namedParamRE, paramName)], where the template
    [namedParamRE] is [[:@] Q? %s Q?] with [Q] as above.  Parameter names
    are captures of group 1 above, so they hold no pattern syntax and stand
    for themselves. *)
Definition namedParamRE (paramName : string) : Regexp :=
  MustCompile
    (Cat (Cls (fun b => Ascii.eqb b ":" || Ascii.eqb b "@"))
       (Cat (Opt (Cls Str.is_quote))
          (Cat (Lit paramName) (Opt (Cls Str.is_quote))))) 0.

Definition reservedNames : list string := ["MI"; "SS"].

(** ** Errors, results and map iteration *)

(** The errors the package builds with [fmt.Errorf]. *)
Inductive error : Type :=
| ErrMixedStyles (queryName : string) (styles : list string)
| ErrQueryExists (name : string)
| ErrCreatingQuery (name : string) (err : error).

Definition nl : string := String Str.newline EmptyString.

(** [err.Error()] *)
Fixpoint Error (e : error) : string :=
  match e with
  | ErrMixedStyles queryName styles =>
      "mixed parameter styles detected in query '" +:+ queryName +:+
      "': found " +:+ Str.Join styles " and " +:+
      ". Use only one style per query"
  | ErrQueryExists name => "Query '" +:+ name +:+ "' already exists"
  | ErrCreatingQuery name err =>
      "Error creating query '" +:+ name +:+ "': " +:+ Error err
  end.

(** What a call comes to: a value, an error, or no return at all. *)
Inductive result (A : Type) : Type :=
| Ok (a : A)
| Err (e : error)
| Diverges.
Arguments Ok {A} a.
Arguments Err {A} e.
Arguments Diverges {A}.

(** Go does not specify the order in which [range] visits a map.  A
    [range_oracle] fixes one: any rearrangement of the entries. *)
Record range_oracle : Type := RangeOracle {
  range_list : forall V : Type, list (string * V) -> list (string * V);
  range_list_perm : forall (V : Type) (l : list (string * V)), range_list V l ≡ₚ l
}.

Definition range {V : Type} (o : range_oracle) (m : gmap string V)
  : list (string * V) :=
  range_list o V (map_to_list m).

Definition key_le {V : Type} (a b : string * V) : Prop := String.le a.1 b.1.
Definition key_ge {V : Type} (a b : string * V) : Prop := String.le b.1 a.1.

#[local] Instance key_le_dec {V : Type} : RelDecision (@key_le V).
Proof. intros a b. unfold key_le. apply _. Defined.

#[local] Instance key_ge_dec {V : Type} : RelDecision (@key_ge V).
Proof. intros a b. unfold key_ge. apply _. Defined.

(** Two orders a run may take: by ascending and by descending key. *)
Definition ascending_keys : range_oracle :=
  RangeOracle (fun V => merge_sort (@key_le V))
    (fun V l => merge_sort_Permutation (@key_le V) l).

Definition descending_keys : range_oracle :=
  RangeOracle (fun V => merge_sort (@key_ge V))
    (fun V l => merge_sort_Permutation (@key_ge V) l).

(** ** queries.go: the query descriptor and its analysis *)

(** [sql.Named(name, nil)]: the value is [nil] wherever the package builds
    one, so only the name is kept. *)
Record NamedArg : Type := Named { ArgName : string }.

Record Query : Type := mkQuery {
  Name : string;
  Path : string;
  Raw : string;
  OrdinalQuery : string;
  Mapping : gmap string Z;
  Args : list string;
  NamedArgs : list NamedArg;
  Metadata : gmap string string
}.

Definition isReservedName (name : string) : bool :=
  existsb (String.eqb name) reservedNames.

(** [match[1]] *)
Definition capture (match_ : list string) : string := nth 1 match_ EmptyString.

Definition stripLine (line : string) : string :=
  let idx := Str.Index line "--" in
  if 0 <=? idx then Str.take (Z.to_nat idx) line else line.

Definition stripSQLComments (query : string) : string :=
  let lines := Str.Split query Str.newline in
  let result := stripLine <$> lines in
  Str.Join result nl.

Definition filterReservedNames (matches : list (list string)) : list (list string) :=
  List.filter
    (fun match_ => (1 <? length match_)%nat && negb (isReservedName (capture match_)))
    matches.

Definition validateSingleParameterStyle (queryName : string)
    (positional colon atSign : list (list string)) : option error :=
  let styles := [] in
  let styles :=
    if (0 <? length positional)%nat then styles ++ ["positional ($1, $2, ...)"] else styles in
  let styles :=
    if (0 <? length colon)%nat then styles ++ ["colon (:param)"] else styles in
  let styles :=
    if (0 <? length atSign)%nat then styles ++ ["at-sign (@param)"] else styles in
  if (1 <? length styles)%nat then Some (ErrMixedStyles queryName styles) else None.

Definition max_int : Z := 2 ^ 63 - 1.
Definition min_int : Z := - 2 ^ 63.

(** [i++] on a 64-bit [int] *)
Definition incr (i : Z) : Z := if i =? max_int then min_int else i + 1.

(** [fmt.Sscanf(tok, "%d", &num)] on a token of decimal digits: the scan
    fails on a value beyond the [int] range and then leaves [num] as it
    was; the package does not look at the error. *)
Definition Sscanf_d (tok : string) (num : Z) : Z :=
  let v := Str.decimal tok in
  if v <=? max_int then v else num.

Definition highestParam (matches : list (list string)) : Z :=
  fold_left
    (fun maxParam match_ =>
       let num := Sscanf_d (capture match_) 0 in
       if maxParam <? num then num else maxParam)
    matches 0.

Definition syntheticName (i : Z) : string := "arg" +:+ Str.itoa i.

(** The loop [for i := 1; i <= maxParam; i++] of [handlePositionalParams],
    on the state (args, mapping, namedArgs).  [fuel] bounds the number of
    rounds; [None] says the bound was reached with the condition still
    true. *)
Fixpoint positionalLoop (fuel : nat) (i maxParam : Z)
    (st : list string * gmap string Z * list NamedArg)
  : option (list string * gmap string Z * list NamedArg) :=
  if i <=? maxParam then
    match fuel with
    | O => None
    | S fuel' =>
        let '(args, mapping, namedArgs) := st in
        let name := syntheticName i in
        positionalLoop fuel' (incr i) maxParam
          (args ++ [name], <[name := i]> mapping, namedArgs ++ [Named name])
    end
  else Some st.

Definition header (name query : string) : string :=
  "-- name: " +:+ name +:+ nl +:+ query.

(** With [maxParam] rounds of fuel the loop either ends or, for
    [maxParam = max_int], never does (see [positionalLoop_max_int]). *)
Definition handlePositionalParams (q : Query) (name query cleanQuery : string)
    (matches : list (list string)) : result Query :=
  let maxParam := highestParam matches in
  match positionalLoop (Z.to_nat maxParam) 1 maxParam ([], ∅, []) with
  | Some (args, mapping, namedArgs) =>
      Ok (mkQuery (Name q) (Path q) (Raw q) (header name query)
            mapping args namedArgs (Metadata q))
  | None => Diverges
  end.

(** One round of the detection loop of [handleNamedParams], on the state
    (mapping, namedArgs, args, position). *)
Definition namedStep
    (st : gmap string Z * list NamedArg * list string * Z) (match_ : list string)
  : gmap string Z * list NamedArg * list string * Z :=
  let '(mapping, namedArgs, args, position) := st in
  if (length match_ <? 2)%nat then st
  else
    let variable := capture match_ in
    if isReservedName variable then st
    else
      let args := args ++ [variable] in
      match mapping !! variable with
      | Some _ => (mapping, namedArgs, args, position)
      | None =>
          (<[variable := position]> mapping, namedArgs ++ [Named variable],
           args, position + 1)
      end.

(** One round of the replacement loop of [handleNamedParams]. *)
Definition replaceParam (query : string) (entry : string * Z) : string :=
  let '(paramName, ord) := entry in
  ReplaceAllLiteralString (namedParamRE paramName) query ("$" +:+ Str.itoa ord).

Definition handleNamedParams (o : range_oracle) (q : Query)
    (name query cleanQuery : string) : Query :=
  let colonMatches := FindAllStringSubmatch colonParamRE cleanQuery in
  let atSignMatches := FindAllStringSubmatch atSignParamRE cleanQuery in
  let allMatches := colonMatches ++ atSignMatches in
  let '(mapping, namedArgs, args, _) :=
    fold_left namedStep allMatches (∅, [], [], 1) in
  let query := fold_left replaceParam (range o mapping) query in
  mkQuery (Name q) (Path q) (Raw q) (header name query)
    mapping args namedArgs (Metadata q).

(** [metadata] is [None] for Go's [nil] map. *)
Definition NewQuery (o : range_oracle) (name path query : string)
    (metadata : option (gmap string string)) : result Query :=
  let metadata := default ∅ metadata in
  let q := mkQuery name path query EmptyString ∅ [] [] metadata in
  let cleanQuery := stripSQLComments query in
  let positionalMatches := FindAllStringSubmatch positionalParamRE cleanQuery in
  let colonMatches :=
    filterReservedNames (FindAllStringSubmatch colonParamRE cleanQuery) in
  let atSignMatches :=
    filterReservedNames (FindAllStringSubmatch atSignParamRE cleanQuery) in
  match validateSingleParameterStyle name positionalMatches colonMatches atSignMatches with
  | Some err => Err err
  | None =>
      if (0 <? length positionalMatches)%nat then
        handlePositionalParams q name query cleanQuery positionalMatches
      else Ok (handleNamedParams o q name query cleanQuery)
  end.

(** *** Argument binding *)

(** A Go [interface{}] value: [nil] or a value of some kind [V]. *)
Inductive any (V : Type) : Type :=
| nil_any
| box (v : V).
Arguments nil_any {V}.
Arguments box {V} v.

(** [args[name]] on a [map[string]interface{}]: a missing key reads [nil]. *)
Definition index_any {V : Type} (args : gmap string (any V)) (name : string) : any V :=
  default nil_any (args !! name).

Definition ord_le (a b : string * Z) : Prop := a.2 <= b.2.

#[local] Instance ord_le_dec : RelDecision ord_le.
Proof. intros a b. unfold ord_le. apply _. Defined.

(** [sort.Slice(params, func(i, j) { return params[i].Ord < params[j].Ord })] *)
Definition sortByOrd (params : list (string * Z)) : list (string * Z) :=
  merge_sort ord_le params.

Definition Prepare {V : Type} (o : range_oracle) (q : Query)
    (args : gmap string (any V)) : list (any V) :=
  let components := replicate (size (Mapping q)) nil_any in
  let params := fold_left (fun params kv => params ++ [kv]) (range o (Mapping q)) [] in
  let params := sortByOrd params in
  fold_left
    (fun components ip => <[ip.1 := index_any args ip.2.1]> components)
    (imap (fun i param => (i, param)) params) components.

(** ** scanner.go *)

Record ScannedQuery : Type := mkScannedQuery {
  sq_Query : string;
  sq_Metadata : gmap string string
}.

Record Scanner : Type := mkScanner {
  line : string;
  queries : gmap string ScannedQuery;
  current : string;
  metadata : gmap string (gmap string string)
}.

(** The two state functions, as values. *)
Inductive stateFn : Type :=
| InitialState
| QueryState.

(** [\s] of the pattern syntax: TAB, LF, FF, CR and SPACE. *)
Definition re_space (c : ascii) : bool :=
  Ascii.eqb c "009" || Ascii.eqb c "010" || Ascii.eqb c "012" ||
  Ascii.eqb c "013" || Ascii.eqb c " ".

(** [^ \s* -- \s* name: \s* ( \S+ )], written with blanks between its
    parts *)
Definition tagRE : Regexp :=
  MustCompile
    (Cat Bol
       (Cat (Star (Cls re_space))
          (Cat (Lit "--")
             (Cat (Star (Cls re_space))
                (Cat (Lit "name:")
                   (Cat (Star (Cls re_space))
                      (Cap 1 (Plus (Cls (fun c => negb (re_space c))))))))))) 1.

Definition getTag (line : string) : string :=
  match FindStringSubmatch tagRE line with
  | None => EmptyString
  | Some matches => nth 1 matches EmptyString
  end.

(** [^ \s* -- \s* ( [a-zA-Z] [a-zA-Z0-9_-]* ) : \s* ( .+ ) \s* $], written
    with blanks between its parts *)
Definition metadataRE : Regexp :=
  MustCompile
    (Cat Bol
       (Cat (Star (Cls re_space))
          (Cat (Lit "--")
             (Cat (Star (Cls re_space))
                (Cat (Cap 1 (Cat (Cls Str.is_alpha)
                               (Star (Cls (fun c => Str.is_word c || Ascii.eqb c "-")))))
                   (Cat (Lit ":")
                      (Cat (Star (Cls re_space))
                         (Cat (Cap 2 (Plus (Cls (fun c => negb (Ascii.eqb c Str.newline)))))
                            (Cat (Star (Cls re_space)) Eol))))))))) 2.

(** [None] stands for the result [("", "", false)]. *)
Definition getMetadata (line : string) : option (string * string) :=
  match FindStringSubmatch metadataRE line with
  | None => None
  | Some matches =>
      if String.eqb (nth 1 matches EmptyString) "name" then None
      else
        let key := Str.ToLower (Str.TrimSpace (nth 1 matches EmptyString)) in
        let value := Str.TrimSpace (nth 2 matches EmptyString) in
        Some (key, value)
  end.

Definition appendQueryLine (s : Scanner) : Scanner :=
  let line_ := Str.TrimBytes (fun c => Ascii.eqb c " " || Ascii.eqb c Str.tab) (line s) in
  if (Str.len line_ =? 0)%nat then s
  else
    let queries_ :=
      match queries s !! current s with
      | None => <[current s := mkScannedQuery EmptyString ∅]> (queries s)
      | Some _ => queries s
      end in
    match queries_ !! current s with
    | None => s
    | Some sq =>
        let current_ := sq_Query sq in
        let current_ :=
          if (0 <? Str.len current_)%nat then current_ +:+ nl else current_ in
        let current_ := current_ +:+ line_ in
        mkScanner (line s)
          (<[current s := mkScannedQuery current_ (sq_Metadata sq)]> queries_)
          (current s) (metadata s)
    end.

Definition appendMetadata (s : Scanner) (key value : string) : Scanner :=
  let queries_ :=
    match queries s !! current s with
    | None => <[current s := mkScannedQuery EmptyString ∅]> (queries s)
    | Some _ => queries s
    end in
  match queries_ !! current s with
  | None => s
  | Some sq =>
      mkScanner (line s)
        (<[current s := mkScannedQuery (sq_Query sq) (<[key := value]> (sq_Metadata sq))]>
           queries_)
        (current s) (metadata s)
  end.

Definition set_current (s : Scanner) (tag : string) : Scanner :=
  mkScanner (line s) (queries s) tag (metadata s).

Definition initialState (s : Scanner) : Scanner * stateFn :=
  let tag := getTag (line s) in
  if (0 <? Str.len tag)%nat then (set_current s tag, QueryState)
  else
    let trimmed := Str.TrimSpace (line s) in
    if String.eqb trimmed EmptyString || Str.HasPrefix trimmed "--"
    then (s, InitialState)
    else (appendQueryLine s, QueryState).

Definition queryState (s : Scanner) : Scanner * stateFn :=
  let tag := getTag (line s) in
  if (0 <? Str.len tag)%nat then (set_current s tag, QueryState)
  else
    match getMetadata (line s) with
    | Some (key, value) => (appendMetadata s key value, QueryState)
    | None => (appendQueryLine s, QueryState)
    end.

Definition call (state : stateFn) : Scanner -> Scanner * stateFn :=
  match state with
  | InitialState => initialState
  | QueryState => queryState
  end.

(** [filepath.Ext] and [filepath.Base] with [/] as the separator. *)
Fixpoint ext_rev (r : string) : option string :=
  match r with
  | EmptyString => None
  | String c r' =>
      if Ascii.eqb c "/" then None
      else if Ascii.eqb c "." then Some (String c EmptyString)
      else String c <$> ext_rev r'
  end.

Definition Ext (path : string) : string :=
  match ext_rev (Str.rev path) with
  | Some e => Str.rev e
  | None => EmptyString
  end.

Fixpoint until_slash (r : string) : string :=
  match r with
  | EmptyString => EmptyString
  | String c r' => if Ascii.eqb c "/" then EmptyString else String c (until_slash r')
  end.

Definition Base (path : string) : string :=
  if String.eqb path EmptyString then "."
  else
    let path := Str.rev (Str.TrimLeftBytes (Ascii.eqb "/") (Str.rev path)) in
    let path := Str.rev (until_slash (Str.rev path)) in
    if String.eqb path EmptyString then "/" else path.

(** The loop of [Run]: [io.Scan()] hands over the lines one by one. *)
Fixpoint scanLines (s : Scanner) (state : stateFn) (lines : list string) : Scanner :=
  match lines with
  | [] => s
  | text :: lines' =>
      let s := mkScanner text (queries s) (current s) (metadata s) in
      let '(s, state) := call state s in
      scanLines s state lines'
  end.

(** [Run(fileName, io)], the stream given as the list of its lines. *)
Definition Run (s : Scanner) (fileName : string) (io : list string)
  : gmap string ScannedQuery :=
  let s := mkScanner (line s) ∅ (current s) (metadata s) in
  let s := set_current s (Base (Str.TrimSuffix fileName (Ext fileName))) in
  queries (scanLines s InitialState io).

Definition newScanner : Scanner := mkScanner EmptyString ∅ EmptyString ∅.

(** ** queries.go: the query store *)

Record QueryStore : Type := mkQueryStore { store_queries : gmap string Query }.

Definition NewQueryStore : QueryStore := mkQueryStore ∅.

(** The loop of [loadQueriesFromFile] over the scanned blocks, in the order
    the iteration visits them.  The store is the one at the return (or at
    the point where a call does not return). *)
Fixpoint loadLoop (o : range_oracle) (s : QueryStore) (fileName : string)
    (blocks : list (string * ScannedQuery)) : QueryStore * result unit :=
  match blocks with
  | [] => (s, Ok tt)
  | (name, scannedQuery) :: blocks' =>
      match store_queries s !! name with
      | Some _ => (s, Err (ErrQueryExists name))
      | None =>
          match NewQuery o name fileName (sq_Query scannedQuery)
                  (Some (sq_Metadata scannedQuery)) with
          | Err err => (s, Err (ErrCreatingQuery name err))
          | Diverges => (s, Diverges)
          | Ok q =>
              loadLoop o (mkQueryStore (<[name := q]> (store_queries s))) fileName blocks'
          end
      end
  end.

Definition loadQueriesFromFile (o : range_oracle) (s : QueryStore)
    (fileName : string) (r : list string) : QueryStore * result unit :=
  let newQueries := Run newScanner fileName r in
  loadLoop o s fileName (range o newQueries).

(** *** Reading the store *)

(** The error of a lookup, built with [fmt.Errorf("Query '%s' not found")]. *)
Inductive lookup_error : Type :=
| ErrQueryNotFound (name : string).

Definition lookup_Error (e : lookup_error) : string :=
  match e with
  | ErrQueryNotFound name => "Query '" +:+ name +:+ "' not found"
  end.

(** [s.Query(name)] *)
Definition QueryStore_Query (s : QueryStore) (name : string) : Query + lookup_error :=
  match store_queries s !! name with
  | Some query => inl query
  | None => inr (ErrQueryNotFound name)
  end.

(** [s.MustHaveQuery(name)]: the right side is the value the call panics
    with. *)
Definition MustHaveQuery (s : QueryStore) (name : string) : Query + lookup_error :=
  match QueryStore_Query s name with
  | inr err => inr err
  | inl query => inl query
  end.

#[local] Instance string_le_trans : Transitive String.le.
Proof. apply _. Qed.

(** [sort.Strings(names)]: ascending in the byte-wise order of strings. *)
Definition sortStrings (names : list string) : list string :=
  merge_sort String.le names.

(** [s.QueryNames()] *)
Definition QueryNames (o : range_oracle) (s : QueryStore) : list string :=
  let names :=
    fold_left (fun names entry => names ++ [entry.1]) (range o (store_queries s)) [] in
  sortStrings names.

(** [s.Queries()]: a fresh map filled entry by entry. *)
Definition Queries (o : range_oracle) (s : QueryStore) : gmap string Query :=
  fold_left (fun queriesCopy entry => <[entry.1 := entry.2]> queriesCopy)
    (range o (store_queries s)) ∅.

(** [q.Query()] and [q.RawQuery()] *)
Definition Query_Query (q : Query) : string := OrdinalQuery q.
Definition RawQuery (q : Query) : string := Raw q.

(** * Properties *)

(** ** Strings *)

Lemma append_cons (x : ascii) (a b : string) :
  String x a +:+ b = String x (a +:+ b).
Proof. reflexivity. Qed.

Lemma append_nil_l (s : string) : EmptyString +:+ s = s.
Proof. reflexivity. Qed.

Lemma append_nil_r (s : string) : s +:+ EmptyString = s.
Proof. induction s as [|c s IH]; [done | by rewrite append_cons, IH]. Qed.

Lemma append_assoc (a b c : string) : (a +:+ b) +:+ c = a +:+ (b +:+ c).
Proof. induction a as [|x a IH]; [done | by rewrite !append_cons, IH]. Qed.

Lemma len_append (a b : string) : Str.len (a +:+ b) = (Str.len a + Str.len b)%nat.
Proof.
  induction a as [|x a IH]; [done |].
  rewrite append_cons. unfold Str.len in *. simpl. by rewrite IH.
Qed.

Lemma len_zero (s : string) : Str.len s = 0%nat -> s = EmptyString.
Proof. by destruct s. Qed.

Lemma append_not_empty_r (a b : string) : b ≠ EmptyString -> a +:+ b ≠ EmptyString.
Proof.
  intros Hb Hab. apply Hb, len_zero.
  apply (f_equal Str.len) in Hab. rewrite len_append in Hab. simpl in Hab. lia.
Qed.

(** ** The scanner *)

(** What the scanner keeps true of the blocks it has collected: a block is
    there because a content line or a metadata line created it. *)
Definition touched (sq : ScannedQuery) : Prop :=
  sq_Query sq ≠ EmptyString ∨ sq_Metadata sq ≠ ∅.

Lemma appendQueryLine_touched (s : Scanner) :
  map_Forall (fun _ => touched) (queries s) ->
  map_Forall (fun _ => touched) (queries (appendQueryLine s)).
Proof.
  intros Hs. unfold appendQueryLine.
  destruct (Str.len _ =? 0)%nat eqn:Hlen; [done |].
  apply Nat.eqb_neq in Hlen.
  assert (Hne : forall x : string,
            x +:+ Str.TrimBytes (fun c => Ascii.eqb c " " || Ascii.eqb c Str.tab) (line s)
            ≠ EmptyString).
  { intros x. apply append_not_empty_r. intros E. rewrite E in Hlen. by apply Hlen. }
  destruct (queries s !! current s) as [sq|] eqn:Hcur.
  - rewrite Hcur. simpl. apply map_Forall_insert_2; [left; apply Hne | done].
  - rewrite lookup_insert_eq. simpl. rewrite insert_insert_eq.
    apply map_Forall_insert_2; [left; apply Hne | done].
Qed.

Lemma appendMetadata_touched (s : Scanner) (key value : string) :
  map_Forall (fun _ => touched) (queries s) ->
  map_Forall (fun _ => touched) (queries (appendMetadata s key value)).
Proof.
  intros Hs. unfold appendMetadata.
  destruct (queries s !! current s) as [sq|] eqn:Hcur.
  - rewrite Hcur. simpl.
    apply map_Forall_insert_2; [right; apply insert_non_empty | done].
  - rewrite lookup_insert_eq. simpl. rewrite insert_insert_eq.
    apply map_Forall_insert_2; [right; apply insert_non_empty | done].
Qed.

Lemma call_touched (state : stateFn) (s : Scanner) :
  map_Forall (fun _ => touched) (queries s) ->
  map_Forall (fun _ => touched) (queries (call state s).1).
Proof.
  intros Hs. destruct state; simpl.
  - unfold initialState. destruct (0 <? _)%nat; [done |].
    destruct (_ || _); [done |]. by apply appendQueryLine_touched.
  - unfold queryState. destruct (0 <? _)%nat; [done |].
    destruct (getMetadata _) as [[key value]|].
    + by apply appendMetadata_touched.
    + by apply appendQueryLine_touched.
Qed.

Lemma scanLines_touched (io : list string) (s : Scanner) (state : stateFn) :
  map_Forall (fun _ => touched) (queries s) ->
  map_Forall (fun _ => touched) (queries (scanLines s state io)).
Proof.
  revert s state. induction io as [|text io IH]; intros s state Hs; [done |].
  simpl.
  destruct (call state (mkScanner text (queries s) (current s) (metadata s)))
    as [s' state'] eqn:Hcall.
  apply IH.
  change s' with (s', state').1. rewrite <- Hcall. by apply call_touched.
Qed.

(** Every block of the result has a content line or a metadata entry. *)
Lemma Run_touched (s : Scanner) (fileName : string) (io : list string)
    (name : string) (sq : ScannedQuery) :
  Run s fileName io !! name = Some sq -> touched sq.
Proof.
  intros Hsq. unfold Run in Hsq.
  eapply (scanLines_touched io); [| exact Hsq].
  simpl. apply map_Forall_empty.
Qed.

(** C4 (fails on the code).  The claim: the scanner's result holds only
    blocks with at least one content line.  On the stream of a name
    directive followed by one metadata line, [appendMetadata] creates the
    block, and the result holds it with an empty body. *)
Theorem metadata_only_block_is_emitted :
  Run newScanner "test.sql" ["-- name: q"; "-- description: x"]
  = {[ "q" := mkScannedQuery EmptyString {[ "description" := "x" ]} ]}.
Proof. vm_compute. reflexivity. Qed.

(** ** The matcher *)

(** Patterns without a capturing group, and patterns without [^]. *)
Fixpoint cap_free (r : regex) : Prop :=
  match r with
  | Cat r1 r2 => cap_free r1 ∧ cap_free r2
  | Opt a | Star a | Plus a => cap_free a
  | Cap _ _ => False
  | _ => True
  end.


(** [c'] lies [n] bytes after [c] in the same text. *)
Definition ahead (c c' : cursor) : Prop :=
  ∃ n : nat, c_pos c' = (c_pos c + n)%nat ∧ c_rest c' = Str.drop n (c_rest c).

Lemma ahead_refl (c : cursor) : ahead c c.
Proof. exists 0%nat. split; [lia | by destruct (c_rest c)]. Qed.

Lemma drop_drop (n m : nat) (s : string) :
  Str.drop m (Str.drop n s) = Str.drop (n + m) s.
Proof.
  revert s. induction n as [|n IH]; intros s; simpl.
  - by destruct m, s.
  - destruct s as [|x s]; [by destruct m | apply IH].
Qed.

Lemma ahead_trans (a b c : cursor) : ahead a b -> ahead b c -> ahead a c.
Proof.
  intros (n & Hn & Hrn) (m & Hm & Hrm). exists (n + m)%nat. split; [lia |].
  by rewrite Hrm, Hrn, drop_drop.
Qed.

Lemma ahead_advance (c : cursor) (b : ascii) (s' : string) :
  c_rest c = String b s' -> ahead c (advance c s').
Proof. intros Hc. exists 1%nat. simpl. split; [lia | by rewrite Hc]. Qed.

Lemma eat_sound (lit : string) (c c' : cursor) :
  eat lit c = Some c' -> ahead c c' ∧ c_caps c' = c_caps c.
Proof.
  revert c. induction lit as [|a lit IH]; intros c H; simpl in H.
  - injection H as <-. split; [apply ahead_refl | done].
  - destruct (c_rest c) as [|b s'] eqn:Hc; [done |].
    destruct (Ascii.eqb a b); [| done].
    apply IH in H as [H1 H2]. split; [| done].
    eapply ahead_trans; [by eapply ahead_advance | done].
Qed.

(** Whatever the greedy loop answers is an answer of its continuation, if
    that holds of one round. *)
Lemma star_loop_sound (P : Prop)
    (step : (cursor -> option cursor) -> cursor -> option cursor)
    (k : cursor -> option cursor) (res : cursor) :
  (forall k' c, step k' c = Some res ->
     ∃ c', k' c' = Some res ∧ ahead c c' ∧ (P -> c_caps c' = c_caps c)) ->
  forall (n : nat) (c : cursor),
    star_loop step k n c = Some res ->
    ∃ c', k c' = Some res ∧ ahead c c' ∧ (P -> c_caps c' = c_caps c).
Proof.
  intros Hstep. induction n as [|n IHn]; intros c H; simpl in H.
  - exists c. split_and!; [done | apply ahead_refl | done].
  - match type of H with
    | match ?t with _ => _ end = _ => destruct t as [res'|] eqn:Ha
    end.
    + injection H as ->. apply Hstep in Ha as (c1 & H & Ha1 & Hc1).
      destruct (c_pos c <? c_pos c1)%nat; [| done].
      apply IHn in H as (c2 & H & Ha2 & Hc2).
      exists c2. split_and!; [done | by eapply ahead_trans |].
      intros Hf. by rewrite Hc2, Hc1.
    + exists c. split_and!; [done | apply ahead_refl | done].
Qed.

(** Whatever [run] answers is an answer of its continuation, at a cursor
    further on in the text; a pattern without groups leaves the captures
    as they were. *)
Lemma run_sound (r : regex) :
  forall (k : cursor -> option cursor) (c res : cursor),
    run r k c = Some res ->
    ∃ c', k c' = Some res ∧ ahead c c' ∧ (cap_free r -> c_caps c' = c_caps c).
Proof.
  induction r as [p | s | r1 IH1 r2 IH2 | a IH | a IH | a IH | i a IH | | ];
    intros k c res H; simpl in H.
  - destruct (c_rest c) as [|b s'] eqn:Hc; [done |].
    destruct (p b); [| done].
    exists (advance c s'). split_and!; [done | by eapply ahead_advance | done].
  - destruct (eat s c) as [c1|] eqn:He; [| done]. simpl in H.
    apply eat_sound in He as [? ?]. by exists c1.
  - apply IH1 in H as (c1 & H & Ha1 & Hc1).
    apply IH2 in H as (c2 & H & Ha2 & Hc2).
    exists c2. split_and!; [done | by eapply ahead_trans |].
    intros [? ?]. by rewrite Hc2, Hc1.
  - destruct (run a k c) as [res'|] eqn:Ha.
    + injection H as ->. by apply IH in Ha.
    + exists c. split_and!; [done | apply ahead_refl | done].
  - change (star_loop (run a) k (S (Str.len (c_rest c))) c = Some res) in H.
    eapply star_loop_sound; [| exact H]. intros k' c0. apply IH.
  - change (run a (fun c' => star_loop (run a) k (S (Str.len (c_rest c'))) c') c
            = Some res) in H.
    apply IH in H as (c0 & H & Ha0 & Hc0).
    eapply (star_loop_sound (cap_free a)) in H as (c1 & H & Ha1 & Hc1);
      [| intros k' c2; apply IH].
    exists c1. split_and!; [done | by eapply ahead_trans |].
    intros Hf. simpl in Hf. by rewrite Hc1, Hc0.
  - apply IH in H as (c1 & H & Ha1 & _).
    eexists. split_and!; [exact H | by destruct Ha1 as (n & ? & ?); exists n | done].
  - destruct (c_pos c =? 0)%nat; [| done].
    exists c. split_and!; [done | apply ahead_refl | done].
  - destruct (c_rest c); [| done].
    exists c. split_and!; [done | apply ahead_refl | done].
Qed.

(** Every reported match is a match at its own start offset. *)
Lemma all_matches_sound (re : Regexp) (m : found) :
  forall (s : string) (skip pos : nat) (prev_end : option nat),
    m ∈ all_matches re skip pos prev_end s ->
    ∃ n : nat, match_at re (pos + n) (Str.drop n s) = Some m.
Proof.
  assert (Hshift : forall pos n, (S pos + n = pos + S n)%nat) by (intros; lia).
  induction s as [|b s IH]; intros skip pos prev_end Hm.
  - destruct skip as [|skip]; simpl in Hm; [| by apply elem_of_nil in Hm].
    destruct (match_at re pos EmptyString) as [m0|] eqn:H0;
      [| by apply elem_of_nil in Hm].
    destruct (negb _); [| by apply elem_of_nil in Hm].
    apply list_elem_of_singleton in Hm as ->.
    exists 0%nat. by rewrite Nat.add_0_r.
  - destruct skip as [|skip]; simpl in Hm.
    + destruct (match_at re pos (String b s)) as [m0|] eqn:H0.
      * assert (Hcases : m = m0 ∨
                  m ∈ all_matches re (pred (m_end m0 - pos)) (S pos) (Some (m_end m0)) s).
        { destruct (negb _); [| by right].
          apply elem_of_cons in Hm as [-> | Hm]; [by left | by right]. }
        destruct Hcases as [-> | Hin].
        -- exists 0%nat. by rewrite Nat.add_0_r.
        -- apply IH in Hin as [n Hn]. exists (S n). by rewrite <- Hshift.
      * apply IH in Hm as [n Hn]. exists (S n). by rewrite <- Hshift.
    + apply IH in Hm as [n Hn]. exists (S n). by rewrite <- Hshift.
Qed.


Lemma run_Cat (r1 r2 : regex) (k : cursor -> option cursor) (c : cursor) :
  run (Cat r1 r2) k c = run r1 (run r2 k) c.
Proof. reflexivity. Qed.

Lemma run_Cls_Some (p : ascii -> bool) (k : cursor -> option cursor) (c res : cursor) :
  run (Cls p) k c = Some res ->
  ∃ b s', c_rest c = String b s' ∧ p b = true ∧ k (advance c s') = Some res.
Proof.
  simpl. destruct (c_rest c) as [|b s']; [done |].
  destruct (p b) eqn:Hp; [| done]. intros H. by exists b, s'.
Qed.

Lemma run_Cls_cons (p : ascii -> bool) (k : cursor -> option cursor)
    (pos : nat) (b : ascii) (s : string) (caps : list (option (nat * nat))) :
  run (Cls p) k (Cursor pos (String b s) caps)
  = if p b then k (Cursor (S pos) s caps) else None.
Proof. reflexivity. Qed.

Lemma run_Cls_nil (p : ascii -> bool) (k : cursor -> option cursor)
    (pos : nat) (caps : list (option (nat * nat))) :
  run (Cls p) k (Cursor pos EmptyString caps) = None.
Proof. reflexivity. Qed.

Lemma run_Opt_Some (a : regex) (k : cursor -> option cursor) (c res : cursor) :
  run (Opt a) k c = Some res -> run a k c = Some res ∨ k c = Some res.
Proof. simpl. destruct (run a k c); [intros [= ->]; by left | by right]. Qed.


(** *** Matching does not depend on the offset

    A pattern without [^] sees only the text from the cursor on: one byte
    more in front of the text moves every offset by one and changes
    nothing else. *)











(** ** Detection of named placeholders *)





(** The analysis of a block that begins with its only placeholder finds no
    parameter; one byte in front of the marker and it is found. *)
Example leading_colon_block :
  (Args <$> (fun r => match r with Ok q => Some q | _ => None end)
     (NewQuery ascending_keys "q" "test.sql" ":user_id = 1" None)) = Some []
  ∧ (Args <$> (fun r => match r with Ok q => Some q | _ => None end)
       (NewQuery ascending_keys "q" "test.sql" " :user_id = 1" None)) = Some ["user_id"].
Proof. split; vm_compute; reflexivity. Qed.

(** ** Rewriting of named placeholders *)

(** C1 (fails on the code).  The claim: the replacement pattern of a name
    matches complete identifiers only, so rewriting [:a] never touches
    [:abc].  The pattern built for [a] has nothing after the name but an
    optional quote: it matches the first two bytes of [:abc].  When the
    iteration over the binding table visits [a] before [abc], the
    placeholder of [abc] is rewritten to the ordinal of [a] followed by
    [bc]; visited in the other order, both are rewritten as intended. *)
Theorem prefix_name_rewrites_longer_placeholder :
  ReplaceAllLiteralString (namedParamRE "a") ":abc" "$1" = "$1bc"
  ∧ (∃ q, NewQuery ascending_keys "q" "test.sql" "SELECT :a, :abc" None = Ok q
          ∧ Mapping q = {[ "a" := 1; "abc" := 2 ]}
          ∧ Args q = ["a"; "abc"]
          ∧ OrdinalQuery q = header "q" "SELECT $1, $1bc")
  ∧ (∃ q, NewQuery descending_keys "q" "test.sql" "SELECT :a, :abc" None = Ok q
          ∧ Mapping q = {[ "a" := 1; "abc" := 2 ]}
          ∧ OrdinalQuery q = header "q" "SELECT $1, $2").
Proof.
  split; [vm_compute; reflexivity |].
  split; eexists; (split; [vm_compute; reflexivity |]);
    repeat split; vm_compute; reflexivity.
Qed.

(** ** Ordinals of named parameters *)

(** The names of a list in the order of their first appearance. *)
Fixpoint distinct (l : list string) : list string :=
  match l with
  | [] => []
  | x :: t => x :: filter (fun y => y ≠ x) (distinct t)
  end.

Lemma elem_of_distinct (l : list string) (x : string) : x ∈ distinct l ↔ x ∈ l.
Proof.
  induction l as [|a l IH]; simpl; [done |].
  rewrite !elem_of_cons, list_elem_of_filter, IH.
  destruct (decide (x = a)) as [-> | Hne]; [split; by left |].
  split; (intros [? | H]; [done | right]); [apply H | done].
Qed.

Lemma distinct_snoc (l : list string) (x : string) :
  distinct (l ++ [x]) = if decide (x ∈ l) then distinct l else distinct l ++ [x].
Proof.
  induction l as [|a l IH].
  - by destruct (decide (x ∈ [])) as [Hin%elem_of_nil |].
  - change (distinct ((a :: l) ++ [x]))
      with (a :: filter (fun y => y ≠ a) (distinct (l ++ [x]))).
    rewrite IH. simpl.
    destruct (decide (x ∈ l)) as [Hin | Hnin].
    + rewrite decide_True by (by right). done.
    + rewrite filter_app. destruct (decide (x = a)) as [-> | Hne].
      * rewrite decide_True by (by left).
        rewrite (filter_cons_False _ a) by (intros H; by apply H).
        by rewrite filter_nil, app_nil_r.
      * rewrite decide_False by (rewrite elem_of_cons; intros [? | ?]; done).
        by rewrite (filter_cons_True _ x) by done.
Qed.

(** The parameter names the detection loop sees, in text order: the
    captures of the colon matches, then those of the at-sign matches,
    reserved names left out. *)
Definition occurrences (cleanQuery : string) : list string :=
  capture <$>
    filterReservedNames
      (FindAllStringSubmatch colonParamRE cleanQuery ++
       FindAllStringSubmatch atSignParamRE cleanQuery).

(** What the detection loop keeps true of (mapping, args, position). *)
Definition numbered (mapping : gmap string Z) (args : list string) (position : Z) : Prop :=
  position = Z.of_nat (length (distinct args)) + 1 ∧
  (∀ (n : nat) (name : string),
     distinct args !! n = Some name -> mapping !! name = Some (Z.of_nat n + 1)) ∧
  (∀ name : string, is_Some (mapping !! name) -> name ∈ args).

Lemma namedStep_numbered (mapping : gmap string Z) (namedArgs : list NamedArg)
    (args : list string) (position : Z) (match_ : list string) :
  numbered mapping args position ->
  match namedStep (mapping, namedArgs, args, position) match_ with
  | (mapping', _, args', position') =>
      args' = args ++ (capture <$> filterReservedNames [match_]) ∧
      numbered mapping' args' position'
  end.
Proof.
  intros (Hpos & Hord & Hdom). unfold namedStep, filterReservedNames. simpl.
  destruct (length match_ <? 2)%nat eqn:Hlen.
  { replace (1 <? length match_)%nat with false
      by (symmetry; apply Nat.ltb_ge; apply Nat.ltb_lt in Hlen; lia).
    simpl. by rewrite app_nil_r. }
  replace (1 <? length match_)%nat with true
    by (symmetry; apply Nat.ltb_lt; apply Nat.ltb_ge in Hlen; lia).
  simpl. destruct (isReservedName (capture match_)); simpl.
  { by rewrite app_nil_r. }
  set (x := capture match_).
  destruct (mapping !! x) as [i|] eqn:Hx.
  - split; [done |].
    assert (Hin : x ∈ args) by (apply Hdom; by exists i).
    unfold numbered. rewrite distinct_snoc, decide_True by done.
    split_and!; [done | done |].
    intros name Hname. apply elem_of_app. left. by apply Hdom.
  - split; [done |].
    assert (Hnin : x ∉ args).
    { intros Hin. apply elem_of_distinct, list_elem_of_lookup in Hin as [n Hn].
      apply Hord in Hn. congruence. }
    unfold numbered. rewrite distinct_snoc, decide_False by done.
    rewrite length_app. simpl. split_and!.
    + lia.
    + intros n name Hn. apply lookup_app_Some in Hn as [Hn | [Hge Hn]].
      * rewrite lookup_insert_ne; [by apply Hord |].
        intros ->. apply Hnin, elem_of_distinct. by eapply list_elem_of_lookup_2.
      * apply list_lookup_singleton_Some in Hn as [Hn <-].
        rewrite lookup_insert_eq. f_equal. lia.
    + intros name Hname. apply elem_of_app.
      destruct (decide (name = x)) as [-> | Hne].
      * right. apply list_elem_of_here.
      * left. apply Hdom. by rewrite lookup_insert_ne in Hname.
Qed.

Lemma namedLoop_numbered (matches : list (list string)) :
  forall (mapping : gmap string Z) (namedArgs : list NamedArg)
         (args : list string) (position : Z),
    numbered mapping args position ->
    match fold_left namedStep matches (mapping, namedArgs, args, position) with
    | (mapping', _, args', position') =>
        args' = args ++ (capture <$> filterReservedNames matches) ∧
        numbered mapping' args' position'
    end.
Proof.
  induction matches as [|match_ matches IH]; intros mapping namedArgs args position Hn.
  - simpl. by rewrite app_nil_r.
  - cbn [fold_left].
    pose proof (namedStep_numbered mapping namedArgs args position match_ Hn) as Hstep.
    destruct (namedStep _ match_) as [[[mapping1 namedArgs1] args1] position1].
    destruct Hstep as [Hargs1 Hn1].
    specialize (IH mapping1 namedArgs1 args1 position1 Hn1).
    destruct (fold_left namedStep matches _) as [[[mapping2 namedArgs2] args2] position2].
    cbv beta iota in IH. destruct IH as [Hargs2 Hn2]. split; [| done].
    rewrite Hargs2, Hargs1, <- app_assoc. f_equal.
    change (match_ :: matches) with ([match_] ++ matches).
    unfold filterReservedNames. by rewrite List.filter_app, fmap_app.
Qed.

Lemma handleNamedParams_numbered (o : range_oracle) (q0 : Query)
    (name query cleanQuery : string) :
  let q := handleNamedParams o q0 name query cleanQuery in
  Args q = occurrences cleanQuery ∧
  ∃ position, numbered (Mapping q) (Args q) position.
Proof.
  unfold handleNamedParams.
  pose proof (namedLoop_numbered
                (FindAllStringSubmatch colonParamRE cleanQuery ++
                 FindAllStringSubmatch atSignParamRE cleanQuery) ∅ [] [] 1) as H.
  destruct (fold_left _ _ _) as [[[mapping namedArgs] args] position].
  destruct H as [Hargs Hn].
  - split_and!; [done | |].
    + intros n x Hn. by destruct n.
    + intros x Hx. rewrite lookup_empty in Hx. by apply is_Some_None in Hx.
  - simpl. split; [done | by exists position].
Qed.

Lemma handlePositionalParams_not_Err (q : Query) (name query cleanQuery : string)
    (matches : list (list string)) (e : error) :
  handlePositionalParams q name query cleanQuery matches ≠ Err e.
Proof.
  unfold handlePositionalParams.
  by destruct (positionalLoop _ _ _ _) as [[[args mapping] namedArgs]|].
Qed.

(** A block without ordinal markers goes down the named path. *)
Lemma NewQuery_named_path (o : range_oracle) (name path query : string)
    (md : option (gmap string string)) (q : Query) :
  NewQuery o name path query md = Ok q ->
  FindAllStringSubmatch positionalParamRE (stripSQLComments query) = [] ->
  q = handleNamedParams o
        (mkQuery name path query EmptyString ∅ [] [] (default ∅ md))
        name query (stripSQLComments query).
Proof.
  unfold NewQuery. intros H Hpos. rewrite Hpos in H.
  destruct (validateSingleParameterStyle _ _ _ _); [done |].
  simpl in H. by injection H as <-.
Qed.

(** C3 (as amended).  For colon- or at-named content the occurrence list
    holds every detected name in text order, repetitions included; the n-th
    distinct name (counting from 0) is bound to ordinal n + 1, and nothing
    else is bound.  The content of the claim's example, led by other text
    as in the package's test, yields the occurrences x, x, y, y, x, z and
    the table x:1, y:2, z:3; the bare content, whose first placeholder has
    no byte in front of its marker, yields x, y, y, x, z and the same
    table. *)
Theorem named_ordinals_follow_first_appearance :
  (∀ (o : range_oracle) (name path query : string)
     (md : option (gmap string string)) (q : Query),
     NewQuery o name path query md = Ok q ->
     FindAllStringSubmatch positionalParamRE (stripSQLComments query) = [] ->
     Args q = occurrences (stripSQLComments query) ∧
     (∀ (n : nat) (x : string),
        distinct (Args q) !! n = Some x -> Mapping q !! x = Some (Z.of_nat n + 1)) ∧
     (∀ x : string, is_Some (Mapping q !! x) -> x ∈ Args q))
  ∧ (∃ q, NewQuery ascending_keys "q" "test.sql"
            "SELECT * FROM users WHERE :x = :x OR :y = :y OR :x = :z" None = Ok q
          ∧ Args q = ["x"; "x"; "y"; "y"; "x"; "z"]
          ∧ Mapping q = {[ "x" := 1; "y" := 2; "z" := 3 ]})
  ∧ (∃ q, NewQuery ascending_keys "q" "test.sql"
            ":x = :x OR :y = :y OR :x = :z" None = Ok q
          ∧ Args q = ["x"; "y"; "y"; "x"; "z"]
          ∧ Mapping q = {[ "x" := 1; "y" := 2; "z" := 3 ]}).
Proof.
  split_and!.
  - intros o name path query md q Hq Hpos.
    apply NewQuery_named_path in Hq; [| done]. subst q.
    pose proof (handleNamedParams_numbered o
                  (mkQuery name path query EmptyString ∅ [] [] (default ∅ md))
                  name query (stripSQLComments query)) as [Hargs (position & _ & Hord & Hdom)].
    done.
  - eexists. split; [vm_compute; reflexivity |]. split; vm_compute; reflexivity.
  - eexists. split; [vm_compute; reflexivity |]. split; vm_compute; reflexivity.
Qed.

Lemma named_ordinals_follow_first_appearance_witness :
  ∃ q, NewQuery descending_keys "q" "test.sql" "a = :a AND b = :b AND c = :a" None = Ok q
       ∧ Args q = occurrences (stripSQLComments "a = :a AND b = :b AND c = :a")
       ∧ (∀ (n : nat) (x : string),
            distinct (Args q) !! n = Some x -> Mapping q !! x = Some (Z.of_nat n + 1))
       ∧ (∀ x : string, is_Some (Mapping q !! x) -> x ∈ Args q).
Proof.
  eexists. split; [vm_compute; reflexivity |].
  apply (proj1 named_ordinals_follow_first_appearance
           descending_keys "q" "test.sql" "a = :a AND b = :b AND c = :a" None).
  - vm_compute. reflexivity.
  - vm_compute. reflexivity.
Defined.

(** C3 (as stated, fails).  On the bare content of the example the
    occurrence list is not x, x, y, y, x, z: the first placeholder is not
    detected. *)
Lemma bare_example_misses_first_occurrence :
  ∃ q, NewQuery ascending_keys "q" "test.sql" ":x = :x OR :y = :y OR :x = :z" None = Ok q
       ∧ Args q ≠ ["x"; "x"; "y"; "y"; "x"; "z"].
Proof.
  eexists. split; [vm_compute; reflexivity |]. vm_compute. discriminate.
Qed.

(** ** Validation of the parameter style *)

Definition style_if (matches : list (list string)) (label : string) : list string :=
  match matches with
  | [] => []
  | _ :: _ => [label]
  end.

(** The conventions with a match in the comment-stripped content, reserved
    names not counted. *)
Definition stylesFound (query : string) : list string :=
  let cleanQuery := stripSQLComments query in
  style_if (FindAllStringSubmatch positionalParamRE cleanQuery)
    "positional ($1, $2, ...)" ++
  style_if (filterReservedNames (FindAllStringSubmatch colonParamRE cleanQuery))
    "colon (:param)" ++
  style_if (filterReservedNames (FindAllStringSubmatch atSignParamRE cleanQuery))
    "at-sign (@param)".

Lemma validateSingleParameterStyle_spec (queryName : string)
    (positional colon atSign : list (list string)) :
  let styles :=
    style_if positional "positional ($1, $2, ...)" ++
    style_if colon "colon (:param)" ++ style_if atSign "at-sign (@param)" in
  validateSingleParameterStyle queryName positional colon atSign
  = if (1 <? length styles)%nat then Some (ErrMixedStyles queryName styles) else None.
Proof.
  unfold validateSingleParameterStyle.
  by destruct positional as [|? ?], colon as [|? ?], atSign as [|? ?].
Qed.

(** C7.  A block whose comment-stripped content has matches of more than
    one convention is refused: the analysis returns the mixed-style error,
    which carries the conventions found and names them in its message, and
    no descriptor.  A block with matches of at most one convention passes
    the validation, and its analysis never returns an error. *)
Theorem mixed_styles_are_rejected (o : range_oracle) (name path query : string)
    (md : option (gmap string string)) :
  ((1 < length (stylesFound query))%nat ->
     NewQuery o name path query md = Err (ErrMixedStyles name (stylesFound query)) ∧
     Error (ErrMixedStyles name (stylesFound query))
     = "mixed parameter styles detected in query '" +:+ name +:+ "': found " +:+
       Str.Join (stylesFound query) " and " +:+ ". Use only one style per query")
  ∧ ((length (stylesFound query) <= 1)%nat ->
     validateSingleParameterStyle name
       (FindAllStringSubmatch positionalParamRE (stripSQLComments query))
       (filterReservedNames (FindAllStringSubmatch colonParamRE (stripSQLComments query)))
       (filterReservedNames (FindAllStringSubmatch atSignParamRE (stripSQLComments query)))
     = None ∧
     ∀ e : error, NewQuery o name path query md ≠ Err e).
Proof.
  unfold NewQuery. rewrite validateSingleParameterStyle_spec.
  fold (stylesFound query). split.
  - intros Hmixed. apply Nat.ltb_lt in Hmixed. rewrite Hmixed. done.
  - intros Hone. apply Nat.ltb_ge in Hone. rewrite Hone. split; [done |].
    intros e. destruct (0 <? _)%nat; [apply handlePositionalParams_not_Err | done].
Qed.

Lemma mixed_styles_are_rejected_witness :
  (NewQuery ascending_keys "q" "test.sql" "SELECT $1 WHERE a = :a -- @c" None
   = Err (ErrMixedStyles "q" ["positional ($1, $2, ...)"; "colon (:param)"]))
  ∧ (∀ e : error,
       NewQuery ascending_keys "q" "test.sql" "SELECT :a WHERE a = :a -- $1 @c" None ≠ Err e).
Proof.
  split.
  - apply (proj1 (mixed_styles_are_rejected ascending_keys "q" "test.sql"
                    "SELECT $1 WHERE a = :a -- @c" None)).
    vm_compute. lia.
  - apply (proj2 (mixed_styles_are_rejected ascending_keys "q" "test.sql"
                    "SELECT :a WHERE a = :a -- $1 @c" None)).
    vm_compute. lia.
Defined.

(** ** Argument binding *)

#[local] Instance ord_le_total : Total ord_le.
Proof. intros a b. unfold ord_le. lia. Qed.

#[local] Instance ord_le_trans : Transitive ord_le.
Proof. intros a b c. unfold ord_le. lia. Qed.

Lemma collect_range {A : Type} (l acc : list A) :
  fold_left (fun params kv => params ++ [kv]) l acc = acc ++ l.
Proof.
  revert acc. induction l as [|x l IH]; intros acc; simpl.
  - by rewrite app_nil_r.
  - by rewrite IH, <- app_assoc.
Qed.

(** Writing [f p] at index [i] for the [i]-th element [p] of a list, into a
    slice of the same length, leaves the image of the list under [f]. *)
Lemma fill_components {A B : Type} (f : A -> B) (l : list A) :
  forall (filled rest : list B),
    length rest = length l ->
    fold_left (fun components ip => <[ip.1 := f ip.2]> components)
      (imap (fun i p => ((length filled + i)%nat, p)) l) (filled ++ rest)
    = filled ++ (f <$> l).
Proof.
  induction l as [|x l IH]; intros filled rest Hlen.
  - destruct rest; [done | done].
  - destruct rest as [|y rest]; [done |].
    simpl. rewrite Nat.add_0_r, insert_app_r_alt, Nat.sub_diag by lia. simpl.
    change (list_fmap A B f l) with (f <$> l).
    rewrite !(cons_middle (f x) filled), !app_assoc.
    rewrite <- (IH (filled ++ [f x]) rest) by (simpl in Hlen; lia).
    f_equal. apply imap_ext. intros i p _. simpl. f_equal.
    rewrite length_app. simpl. lia.
Qed.

Lemma Prepare_eq {V : Type} (o : range_oracle) (q : Query) (args : gmap string (any V)) :
  Prepare o q args
  = (fun p => index_any args p.1) <$> sortByOrd (range o (Mapping q)).
Proof.
  unfold Prepare. rewrite collect_range. simpl.
  pose proof (fill_components (fun p : string * Z => index_any args p.1)
                (sortByOrd (range o (Mapping q))) []
                (replicate (size (Mapping q)) nil_any)) as H.
  simpl in H. apply H.
  rewrite length_replicate. unfold sortByOrd, range.
  rewrite merge_sort_Permutation, range_list_perm.
  symmetry. apply length_map_to_list.
Qed.

(** C9.  For every descriptor and every table of arguments, [Prepare]
    returns as many values as the binding table has entries; they follow
    the entries of the table in ascending order of their ordinals, and the
    position of an entry holds the value supplied for its name, or [nil]
    when the table of arguments has no such name. *)
Theorem Prepare_binds_by_ordinal {V : Type} (o : range_oracle) (q : Query)
    (args : gmap string (any V)) :
  length (Prepare o q args) = size (Mapping q) ∧
  ∃ params : list (string * Z),
    params ≡ₚ map_to_list (Mapping q) ∧
    StronglySorted ord_le params ∧
    Prepare o q args = (fun p => index_any args p.1) <$> params ∧
    ∀ (i : nat) (name : string) (ord : Z),
      params !! i = Some (name, ord) ->
      Prepare o q args !! i
      = Some (match args !! name with Some v => v | None => nil_any end).
Proof.
  rewrite Prepare_eq.
  assert (Hperm : sortByOrd (range o (Mapping q)) ≡ₚ map_to_list (Mapping q)).
  { unfold sortByOrd, range. by rewrite merge_sort_Permutation, range_list_perm. }
  split.
  - rewrite length_fmap, Hperm. apply length_map_to_list.
  - exists (sortByOrd (range o (Mapping q))). split_and!; [done | | done |].
    + apply StronglySorted_merge_sort; apply _.
    + intros i name ord Hi. rewrite list_lookup_fmap, Hi. simpl.
      unfold index_any. by destruct (args !! name).
Qed.

(** ** The ordinal convention *)

Lemma itoa_inj (a b : Z) : Str.itoa a = Str.itoa b -> a = b.
Proof.
  unfold Str.itoa. intros H. apply DecimalZ.to_int_inj.
  apply (f_equal NilEmpty.int_of_string) in H.
  rewrite !NilEmpty.isi in H. congruence.
Qed.

Lemma syntheticName_inj (a b : Z) : syntheticName a = syntheticName b -> a = b.
Proof. unfold syntheticName. intros [= H]. by apply itoa_inj. Qed.

(** The markers of a text as numbers, and the highest of them. *)
Definition markers (query : string) : list Z :=
  (fun match_ => Str.decimal (capture match_)) <$>
    FindAllStringSubmatch positionalParamRE (stripSQLComments query).

Definition highestMarker (query : string) : Z := foldr Z.max 0 (markers query).

Lemma foldr_max_ge (l : list Z) : 0 <= foldr Z.max 0 l.
Proof. induction l as [|x l IH]; simpl; lia. Qed.

Lemma highestParam_spec (matches : list (list string)) :
  forall a : Z,
    0 <= a ->
    foldr Z.max 0 ((fun match_ => Str.decimal (capture match_)) <$> matches) <= max_int ->
    fold_left
      (fun maxParam match_ =>
         let num := Sscanf_d (capture match_) 0 in
         if maxParam <? num then num else maxParam)
      matches a
    = Z.max a (foldr Z.max 0 ((fun match_ => Str.decimal (capture match_)) <$> matches)).
Proof.
  induction matches as [|match_ matches IH]; intros a Ha Hmax.
  - simpl. lia.
  - cbn [fold_left fmap list_fmap foldr] in *.
    pose proof (foldr_max_ge ((fun match_ => Str.decimal (capture match_)) <$> matches)) as Hge.
    set (rest := foldr Z.max 0 _) in *.
    set (v := Str.decimal (capture match_)) in *.
    assert (Hscan : Sscanf_d (capture match_) 0 = v).
    { unfold Sscanf_d. fold v.
      by replace (v <=? max_int) with true by (symmetry; apply Z.leb_le; lia). }
    cbv zeta. rewrite Hscan.
    destruct (a <? v) eqn:Hlt; [apply Z.ltb_lt in Hlt | apply Z.ltb_ge in Hlt].
    + rewrite IH by lia. fold rest. lia.
    + rewrite IH by lia. fold rest. lia.
Qed.

(** The state the loop builds from the ordinals [js]. *)
Definition positionalState (js : list Z)
    (st : list string * gmap string Z * list NamedArg)
  : list string * gmap string Z * list NamedArg :=
  fold_left
    (fun st j =>
       let '(args, mapping, namedArgs) := st in
       (args ++ [syntheticName j], <[syntheticName j := j]> mapping,
        namedArgs ++ [Named (syntheticName j)]))
    js st.

(** Below [max_int] the loop ends after one round per ordinal. *)
Lemma positionalLoop_ends (maxParam : Z) :
  maxParam < max_int ->
  forall (fuel : nat) (i : Z) (st : list string * gmap string Z * list NamedArg),
    i <= maxParam + 1 ->
    (Z.to_nat (maxParam - i + 1) <= fuel)%nat ->
    positionalLoop fuel i maxParam st
    = Some (positionalState (seqZ i (maxParam - i + 1)) st).
Proof.
  intros Hmax. induction fuel as [|fuel IH]; intros i st Hi Hfuel.
  - assert (i = maxParam + 1) as -> by lia. simpl.
    replace (maxParam + 1 <=? maxParam) with false by (symmetry; apply Z.leb_gt; lia).
    by replace (maxParam - (maxParam + 1) + 1) with 0 by lia.
  - simpl. destruct (i <=? maxParam) eqn:Hle.
    + apply Z.leb_le in Hle. destruct st as [[args mapping] namedArgs].
      unfold incr. replace (i =? max_int) with false by (symmetry; apply Z.eqb_neq; lia).
      rewrite IH by lia.
      rewrite (seqZ_cons i (maxParam - i + 1)) by lia. simpl.
      do 3 f_equal; lia.
    + apply Z.leb_gt in Hle. assert (i = maxParam + 1) as -> by lia.
      by replace (maxParam - (maxParam + 1) + 1) with 0 by lia.
Qed.

(** At [max_int] the condition [i <= maxParam] holds of every [int]: the
    loop has no last round, whatever the bound on the rounds. *)
Lemma positionalLoop_max_int (fuel : nat) :
  forall (i : Z) (st : list string * gmap string Z * list NamedArg),
    min_int <= i <= max_int ->
    positionalLoop fuel i max_int st = None.
Proof.
  induction fuel as [|fuel IH]; intros i st Hi; simpl.
  - by replace (i <=? max_int) with true by (symmetry; apply Z.leb_le; lia).
  - replace (i <=? max_int) with true by (symmetry; apply Z.leb_le; lia).
    destruct st as [[args mapping] namedArgs]. apply IH.
    unfold incr, max_int, min_int in *. destruct (i =? _) eqn:He; lia.
Qed.

Lemma positionalState_spec (js : list Z) :
  forall (args : list string) (mapping : gmap string Z) (namedArgs : list NamedArg),
    positionalState js (args, mapping, namedArgs)
    = (args ++ (syntheticName <$> js),
       foldr (fun j m => <[syntheticName j := j]> m) mapping (reverse js),
       namedArgs ++ ((fun j => Named (syntheticName j)) <$> js)).
Proof.
  unfold positionalState.
  induction js as [|j js IH]; intros args mapping namedArgs; simpl.
  - by rewrite !app_nil_r.
  - rewrite IH, reverse_cons, foldr_app, <- !app_assoc. done.
Qed.

Definition ordinalTable (n : Z) : list (string * Z) :=
  (fun j => (syntheticName j, j)) <$> seqZ 1 n.

Lemma ordinalTable_NoDup (n : Z) : NoDup (ordinalTable n).*1.
Proof.
  unfold ordinalTable. rewrite <- list_fmap_compose.
  apply NoDup_fmap_2; [| apply NoDup_seqZ].
  intros a b. simpl. apply syntheticName_inj.
Qed.

Lemma foldr_insert_table (js : list Z) :
  foldr (fun j m => <[syntheticName j := j]> m) (∅ : gmap string Z) js
  = list_to_map ((fun j => (syntheticName j, j)) <$> js).
Proof. induction js as [|j js IH]; simpl; [done | by rewrite IH]. Qed.

Lemma handlePositionalParams_spec (q0 : Query) (name query cleanQuery : string)
    (matches : list (list string)) :
  let n := foldr Z.max 0 ((fun match_ => Str.decimal (capture match_)) <$> matches) in
  n < max_int ->
  handlePositionalParams q0 name query cleanQuery matches
  = Ok (mkQuery (Name q0) (Path q0) (Raw q0) (header name query)
          (list_to_map (ordinalTable n)) (syntheticName <$> seqZ 1 n)
          ((fun j => Named (syntheticName j)) <$> seqZ 1 n) (Metadata q0)).
Proof.
  intros n Hn. unfold handlePositionalParams, highestParam.
  pose proof (foldr_max_ge ((fun match_ => Str.decimal (capture match_)) <$> matches)) as Hge.
  rewrite highestParam_spec by (fold n; lia). fold n.
  rewrite Z.max_r by done.
  rewrite positionalLoop_ends by lia.
  replace (n - 1 + 1) with n by lia.
  rewrite positionalState_spec, foldr_insert_table. simpl.
  do 2 f_equal.
  apply list_to_map_proper.
  - rewrite !fmap_reverse, reverse_Permutation. apply (ordinalTable_NoDup n).
  - unfold ordinalTable. by rewrite fmap_reverse, reverse_Permutation.
Qed.

(** C6 (as amended).  For every block that uses the ordinal convention and
    whose highest marker [$N] lies below the largest [int], the binding
    table has exactly [N] entries, [arg1] to [argN] bound to 1 to [N],
    whichever ordinals the text holds; the occurrence list is [arg1] to
    [argN] in order; and the ordinal text is the header line followed by
    the raw body as it was. *)
Theorem ordinal_block_binds_arg1_to_argN (o : range_oracle) (name path query : string)
    (md : option (gmap string string)) :
  stylesFound query = ["positional ($1, $2, ...)"] ->
  highestMarker query < max_int ->
  ∃ q : Query,
    NewQuery o name path query md = Ok q ∧
    size (Mapping q) = Z.to_nat (highestMarker query) ∧
    (∀ (x : string) (j : Z),
       Mapping q !! x = Some j ↔ 1 <= j <= highestMarker query ∧ x = syntheticName j) ∧
    Args q = syntheticName <$> seqZ 1 (highestMarker query) ∧
    OrdinalQuery q = header name query ∧
    Raw q = query.
Proof.
  intros Hstyles Hmax.
  unfold NewQuery. rewrite validateSingleParameterStyle_spec.
  fold (stylesFound query). rewrite Hstyles. simpl.
  unfold stylesFound in Hstyles.
  destruct (FindAllStringSubmatch positionalParamRE (stripSQLComments query))
    as [|match_ matches] eqn:Hpos.
  { simpl in Hstyles.
    destruct (filterReservedNames (FindAllStringSubmatch colonParamRE _)),
      (filterReservedNames (FindAllStringSubmatch atSignParamRE _)); done. }
  simpl.
  assert (Hn : highestMarker query
               = foldr Z.max 0 ((fun m => Str.decimal (capture m)) <$> match_ :: matches)).
  { unfold highestMarker, markers. by rewrite Hpos. }
  rewrite handlePositionalParams_spec by (rewrite <- Hn; done).
  rewrite <- Hn. eexists. split; [done |]. simpl.
  split_and!; [| | done | done | done].
  - rewrite map_size_list_to_map by apply ordinalTable_NoDup.
    unfold ordinalTable. by rewrite length_fmap, length_seqZ.
  - intros x j. rewrite <- elem_of_list_to_map by apply ordinalTable_NoDup.
    unfold ordinalTable. rewrite list_elem_of_fmap. split.
    + intros (j' & [= -> ->] & Hj'). apply elem_of_seqZ in Hj'. split; [lia | done].
    + intros [Hj ->]. exists j. split; [done |]. apply elem_of_seqZ. lia.
Qed.

Lemma ordinal_block_binds_arg1_to_argN_witness :
  ∃ q : Query,
    NewQuery ascending_keys "q" "test.sql" "SELECT $1, $4 -- $9" None = Ok q ∧
    size (Mapping q) = 4%nat ∧
    (∀ (x : string) (j : Z),
       Mapping q !! x = Some j ↔ 1 <= j <= 4 ∧ x = syntheticName j) ∧
    Args q = ["arg1"; "arg2"; "arg3"; "arg4"] ∧
    OrdinalQuery q = header "q" "SELECT $1, $4 -- $9" ∧
    Raw q = "SELECT $1, $4 -- $9".
Proof.
  apply (ordinal_block_binds_arg1_to_argN ascending_keys "q" "test.sql"
           "SELECT $1, $4 -- $9" None).
  - vm_compute. reflexivity.
  - vm_compute. reflexivity.
Defined.

(** C6 (as stated, fails).  The highest marker of this block is [$N] with
    N = 2^63.  The scan of its digits fails on the [int] range and leaves
    the number at 0, so the binding table and the occurrence list are
    empty, not of N entries. *)
Lemma marker_beyond_int_binds_nothing :
  ∃ q : Query,
    NewQuery ascending_keys "q" "test.sql" "SELECT $9223372036854775808" None = Ok q ∧
    stylesFound "SELECT $9223372036854775808" = ["positional ($1, $2, ...)"] ∧
    highestMarker "SELECT $9223372036854775808" = 9223372036854775808 ∧
    Mapping q = ∅ ∧ Args q = [] ∧
    Z.of_nat (size (Mapping q)) ≠ highestMarker "SELECT $9223372036854775808".
Proof.
  eexists. split; [vm_compute; reflexivity |].
  split_and!; [vm_compute; reflexivity .. |].
  vm_compute. discriminate.
Qed.

(** At [max_int] itself the analysis does not return. *)
Lemma handlePositionalParams_max_int (q0 : Query) (name query cleanQuery : string)
    (matches : list (list string)) :
  highestParam matches = max_int ->
  handlePositionalParams q0 name query cleanQuery matches = Diverges.
Proof.
  intros H. unfold handlePositionalParams. rewrite H.
  rewrite positionalLoop_max_int; [done |]. unfold min_int, max_int. lia.
Qed.

(** ** The query store *)

(** The loop never touches an entry that is already in the store. *)
Lemma loadLoop_keeps (o : range_oracle) (fileName : string) (n : string) (q : Query) :
  forall (blocks : list (string * ScannedQuery)) (s : QueryStore),
    store_queries s !! n = Some q ->
    store_queries (loadLoop o s fileName blocks).1 !! n = Some q.
Proof.
  induction blocks as [|[name sq] blocks IH]; intros s Hs; simpl; [done |].
  destruct (store_queries s !! name) eqn:Hname; [done |].
  destruct (NewQuery _ _ _ _ _) as [q' | e |]; [| done | done].
  apply IH. simpl. rewrite lookup_insert_ne; [done |]. intros ->. congruence.
Qed.

(** With a block of a name the store holds among those to visit, the
    loop does not come to its end. *)
Lemma loadLoop_stops (o : range_oracle) (fileName : string) (n : string) :
  forall (blocks : list (string * ScannedQuery)) (s : QueryStore),
    n ∈ blocks.*1 ->
    is_Some (store_queries s !! n) ->
    (loadLoop o s fileName blocks).2 ≠ Ok tt.
Proof.
  induction blocks as [|[name sq] blocks IH]; intros s Hin Hs; simpl.
  { by apply elem_of_nil in Hin. }
  destruct (store_queries s !! name) eqn:Hname; [done |].
  destruct (NewQuery _ _ _ _ _) as [q' | e |]; [| done | done].
  simpl in Hin. apply elem_of_cons in Hin as [-> | Hin].
  { rewrite Hname in Hs. by apply is_Some_None in Hs. }
  apply IH; [done |]. simpl.
  destruct Hs as [q Hq]. exists q. rewrite lookup_insert_ne; [done |].
  intros ->. congruence.
Qed.

(** How the loop can stop short of its end. *)
Lemma loadLoop_result (o : range_oracle) (fileName : string) :
  forall (blocks : list (string * ScannedQuery)) (s : QueryStore),
    NoDup blocks.*1 ->
    match (loadLoop o s fileName blocks).2 with
    | Ok _ => True
    | Err (ErrQueryExists d) => d ∈ blocks.*1 ∧ is_Some (store_queries s !! d)
    | Err (ErrCreatingQuery b e) =>
        ∃ sq, (b, sq) ∈ blocks ∧
              NewQuery o b fileName (sq_Query sq) (Some (sq_Metadata sq)) = Err e
    | Err (ErrMixedStyles _ _) => False
    | Diverges =>
        ∃ b sq, (b, sq) ∈ blocks ∧
                NewQuery o b fileName (sq_Query sq) (Some (sq_Metadata sq)) = Diverges
    end.
Proof.
  induction blocks as [|[name sq] blocks IH]; intros s Hnd; simpl; [done |].
  apply NoDup_cons in Hnd as [Hname Hnd]. simpl in Hname.
  destruct (store_queries s !! name) eqn:Hs; simpl.
  { split; [apply list_elem_of_here | by rewrite Hs]. }
  destruct (NewQuery _ _ _ _ _) as [q' | e |] eqn:Hq; simpl.
  - specialize (IH (mkQueryStore (<[name := q']> (store_queries s))) Hnd).
    destruct (loadLoop _ _ _ _).2 as [[] | [? ? | d | b e] |]; [done | done | | |].
    + destruct IH as [Hd Hsd]. split; [by apply list_elem_of_further |].
      simpl in Hsd. rewrite lookup_insert_ne in Hsd; [done |]. by intros ->.
    + destruct IH as (sq' & Hin & Hq'). exists sq'. split; [by apply list_elem_of_further | done].
    + destruct IH as (b & sq' & Hin & Hq'). exists b, sq'.
      split; [by apply list_elem_of_further | done].
  - exists sq. split; [apply list_elem_of_here | done].
  - exists name, sq. split; [apply list_elem_of_here | done].
Qed.

Lemma range_fst_NoDup {V : Type} (o : range_oracle) (m : gmap string V) :
  NoDup (range o m).*1.
Proof.
  unfold range. rewrite range_list_perm. apply NoDup_fst_map_to_list.
Qed.

Lemma elem_of_range {V : Type} (o : range_oracle) (m : gmap string V)
    (name : string) (v : V) :
  (name, v) ∈ range o m ↔ m !! name = Some v.
Proof. unfold range. rewrite range_list_perm. apply elem_of_map_to_list. Qed.

(** The block passes the analysis. *)
Definition passes (o : range_oracle) (fileName : string)
    (block : string * ScannedQuery) : Prop :=
  ∃ q' : Query,
    NewQuery o block.1 fileName (sq_Query block.2) (Some (sq_Metadata block.2)) = Ok q'.

(** Among blocks one of which has a name the store holds, there is a
    first such block. *)
Lemma first_duplicate (s : QueryStore) (n : string) :
  forall blocks : list (string * ScannedQuery),
    n ∈ blocks.*1 ->
    is_Some (store_queries s !! n) ->
    ∃ pre d sqd post,
      blocks = pre ++ (d, sqd) :: post ∧
      Forall (fun b => store_queries s !! b.1 = None) pre ∧
      is_Some (store_queries s !! d).
Proof.
  induction blocks as [|[name sq] blocks IH]; intros Hin Hs.
  { by apply elem_of_nil in Hin. }
  destruct (store_queries s !! name) as [q0|] eqn:Hname.
  { exists [], name, sq, blocks. split_and!; [done | constructor | by rewrite Hname]. }
  simpl in Hin. apply elem_of_cons in Hin as [-> | Hin].
  { rewrite Hname in Hs. by apply is_Some_None in Hs. }
  destruct (IH Hin Hs) as (pre & d & sqd & post & -> & Hpre & Hd).
  exists ((name, sq) :: pre), d, sqd, post.
  split_and!; [done | by constructor | done].
Qed.

(** The loop up to the first block whose name the store holds: it returns
    the duplicate-name error for that block, unless the analysis of a
    block visited before it fails or does not return, which ends the loop
    there. *)
Lemma loadLoop_first_duplicate (o : range_oracle) (fileName : string)
    (d : string) (sqd : ScannedQuery) (post : list (string * ScannedQuery)) :
  forall (pre : list (string * ScannedQuery)) (s : QueryStore),
    NoDup (pre ++ (d, sqd) :: post).*1 ->
    Forall (fun b => store_queries s !! b.1 = None) pre ->
    is_Some (store_queries s !! d) ->
    let res := (loadLoop o s fileName (pre ++ (d, sqd) :: post)).2 in
    (Forall (passes o fileName) pre ∧ res = Err (ErrQueryExists d)) ∨
    (∃ pre1 b sq pre2,
       pre = pre1 ++ (b, sq) :: pre2 ∧
       Forall (passes o fileName) pre1 ∧
       ((∃ e, NewQuery o b fileName (sq_Query sq) (Some (sq_Metadata sq)) = Err e ∧
              res = Err (ErrCreatingQuery b e)) ∨
        (NewQuery o b fileName (sq_Query sq) (Some (sq_Metadata sq)) = Diverges ∧
         res = Diverges))).
Proof.
  induction pre as [|[name sq] pre IH]; intros s Hnd Hpre Hd; cbn zeta.
  { left. split; [constructor |]. cbn [app loadLoop].
    destruct Hd as [q0 Hq0]. by rewrite Hq0. }
  apply Forall_cons in Hpre as [Hname Hpre]. cbn [fst] in Hname.
  change (((name, sq) :: pre) ++ (d, sqd) :: post)
    with ((name, sq) :: (pre ++ (d, sqd) :: post)) in *.
  rewrite fmap_cons in Hnd. apply NoDup_cons in Hnd as [Hfresh Hnd]. cbn [fst] in Hfresh.
  cbn [loadLoop]. rewrite Hname.
  destruct (NewQuery o name fileName (sq_Query sq) (Some (sq_Metadata sq)))
    as [q' | e |] eqn:Hq.
  - destruct (IH (mkQueryStore (<[name := q']> (store_queries s))) Hnd) as
      [[Hok Hres] | (pre1 & b & sq' & pre2 & -> & Hok & Hres)].
    + apply Forall_forall. intros b Hb. cbn [store_queries].
      rewrite lookup_insert_ne; [by apply (proj1 (Forall_forall _ _) Hpre) |].
      intros E. apply Hfresh. rewrite fmap_app. apply elem_of_app. left.
      apply list_elem_of_fmap. by exists b.
    + cbn [store_queries]. destruct Hd as [q0 Hq0]. exists q0.
      rewrite lookup_insert_ne; [done |]. intros <-. congruence.
    + left. split; [| done]. constructor; [by exists q' | done].
    + right. exists ((name, sq) :: pre1), b, sq', pre2.
      split_and!; [done | constructor; [by exists q' | done] | done].
  - right. exists [], name, sq, pre. split_and!; [done | constructor |].
    left. by exists e.
  - right. exists [], name, sq, pre. split_and!; [done | constructor |].
    by right.
Qed.

(** C8 (as amended).  When the store holds a descriptor under a name and a
    source defines a block of that name, loading the source does not
    succeed and leaves that descriptor as it was.  The iteration comes to
    a first block whose name the store holds.  The load returns the
    duplicate-name error for that block when every block visited before it
    passes the analysis; otherwise it returns the error of the first block
    visited before it whose analysis fails, or does not return where that
    block's analysis does not.  In particular, when every block of the
    source passes the analysis, the duplicate-name error is what the load
    returns. *)
Theorem duplicate_name_fails_the_load (o : range_oracle) (s : QueryStore)
    (fileName : string) (r : list string) (n : string) (q : Query) :
  store_queries s !! n = Some q ->
  is_Some (Run newScanner fileName r !! n) ->
  let s' := (loadQueriesFromFile o s fileName r).1 in
  let res := (loadQueriesFromFile o s fileName r).2 in
  store_queries s' !! n = Some q ∧
  res ≠ Ok tt ∧
  (∃ pre d sqd post,
     range o (Run newScanner fileName r) = pre ++ (d, sqd) :: post ∧
     Forall (fun b => store_queries s !! b.1 = None) pre ∧
     is_Some (store_queries s !! d) ∧
     ((Forall (passes o fileName) pre ∧ res = Err (ErrQueryExists d)) ∨
      (∃ pre1 b sq pre2,
         pre = pre1 ++ (b, sq) :: pre2 ∧
         Forall (passes o fileName) pre1 ∧
         ((∃ e, NewQuery o b fileName (sq_Query sq) (Some (sq_Metadata sq)) = Err e ∧
                res = Err (ErrCreatingQuery b e)) ∨
          (NewQuery o b fileName (sq_Query sq) (Some (sq_Metadata sq)) = Diverges ∧
           res = Diverges))))) ∧
  ((∀ b sq, Run newScanner fileName r !! b = Some sq ->
            ∃ q', NewQuery o b fileName (sq_Query sq) (Some (sq_Metadata sq)) = Ok q') ->
   ∃ d, res = Err (ErrQueryExists d) ∧ is_Some (store_queries s !! d)).
Proof.
  intros Hs [sqn Hn] s' res. subst s' res. unfold loadQueriesFromFile.
  set (blocks := range o (Run newScanner fileName r)).
  assert (Hin : n ∈ blocks.*1).
  { apply list_elem_of_fmap. exists (n, sqn). split; [done |]. by apply elem_of_range. }
  pose proof (loadLoop_stops o fileName n blocks s Hin (mk_is_Some _ _ Hs)) as Hstop.
  destruct (first_duplicate s n blocks Hin (mk_is_Some _ _ Hs))
    as (pre & d & sqd & post & Hblocks & Hpre & Hd).
  pose proof (range_fst_NoDup o (Run newScanner fileName r)) as Hnd.
  fold blocks in Hnd. rewrite Hblocks in Hnd.
  pose proof (loadLoop_first_duplicate o fileName d sqd post pre s Hnd Hpre Hd) as Hres.
  cbn zeta in Hres. rewrite <- Hblocks in Hres.
  split_and!; [by apply loadLoop_keeps | done | |].
  - exists pre, d, sqd, post. split_and!; [done | done | done | exact Hres].
  - intros Hok. exists d. split; [| done].
    destruct Hres as [[_ Hres] | (pre1 & b & sq & pre2 & Hpre12 & _ & Hfail)]; [done |].
    assert (Hb : Run newScanner fileName r !! b = Some sq).
    { apply (elem_of_range o). fold blocks. rewrite Hblocks, Hpre12.
      apply elem_of_app. left. apply elem_of_app. right. apply list_elem_of_here. }
    destruct (Hok b sq Hb) as [q' Hq'].
    destruct Hfail as [(e & He & _) | [Hdiv _]]; congruence.
Qed.

Lemma duplicate_name_fails_the_load_witness :
  let s1 :=
    (loadQueriesFromFile ascending_keys NewQueryStore "first.sql"
       ["-- name: dup"; "SELECT 1"]).1 in
  let second := ["-- name: other"; "SELECT :a"; "-- name: dup"; "SELECT 2"] in
  ∃ q, store_queries s1 !! "dup" = Some q ∧ Raw q = "SELECT 1" ∧
       store_queries (loadQueriesFromFile ascending_keys s1 "second.sql" second).1 !! "dup"
       = Some q ∧
       ∃ d, (loadQueriesFromFile ascending_keys s1 "second.sql" second).2
            = Err (ErrQueryExists d).
Proof.
  intros s1 second.
  assert (Hq : ∃ q, store_queries s1 !! "dup" = Some q ∧ Raw q = "SELECT 1").
  { eexists. split; vm_compute; reflexivity. }
  destruct Hq as (q & Hq & Hraw). exists q.
  assert (Hdef : is_Some (Run newScanner "second.sql" second !! "dup")).
  { eexists. vm_compute. reflexivity. }
  destruct (duplicate_name_fails_the_load ascending_keys s1 "second.sql" second "dup" q
              Hq Hdef) as (Hkeep & _ & _ & Hdup).
  split_and!; [done | done | done |].
  destruct Hdup as (d & Hd & _); [| by exists d].
  intros b sq Hb.
  assert (Hblocks : (b, sq) ∈ map_to_list (Run newScanner "second.sql" second))
    by (by apply elem_of_map_to_list).
  vm_compute in Hblocks.
  apply elem_of_cons in Hblocks as [[= -> ->] | Hblocks];
    [eexists; vm_compute; reflexivity |].
  apply elem_of_cons in Hblocks as [[= -> ->] | Hblocks];
    [eexists; vm_compute; reflexivity |].
  apply elem_of_nil in Hblocks. destruct Hblocks.
Defined.

(** C8 (as stated, fails).  The store holds [dup] from a first source.  The
    second source defines [dup] too, and a block [a] that mixes two
    conventions.  When the iteration visits [a] first, the load fails with
    the error of [a], not with the duplicate-name error. *)
Lemma duplicate_name_error_preempted :
  let s1 :=
    (loadQueriesFromFile ascending_keys NewQueryStore "first.sql"
       ["-- name: dup"; "SELECT 1"]).1 in
  let second := ["-- name: a"; "SELECT $1, :x"; "-- name: dup"; "SELECT 2"] in
  is_Some (store_queries s1 !! "dup") ∧
  is_Some (Run newScanner "second.sql" second !! "dup") ∧
  (loadQueriesFromFile ascending_keys s1 "second.sql" second).2
  = Err (ErrCreatingQuery "a"
           (ErrMixedStyles "a" ["positional ($1, $2, ...)"; "colon (:param)"])) ∧
  ∀ d, (loadQueriesFromFile ascending_keys s1 "second.sql" second).2
       ≠ Err (ErrQueryExists d).
Proof.
  intros s1 second.
  assert (Hres : (loadQueriesFromFile ascending_keys s1 "second.sql" second).2
                 = Err (ErrCreatingQuery "a"
                          (ErrMixedStyles "a" ["positional ($1, $2, ...)"; "colon (:param)"])))
    by (vm_compute; reflexivity).
  split_and!.
  - eexists. vm_compute. reflexivity.
  - eexists. vm_compute. reflexivity.
  - exact Hres.
  - intros d. rewrite Hres. discriminate.
Qed.

(** ** Comments and detection *)

(** What the analysis detects: the occurrence list, the binding table and
    the named arguments, or the way it fails. *)
Definition detection (r : result Query)
  : result (list string * gmap string Z * list NamedArg) :=
  match r with
  | Ok q => Ok (Args q, Mapping q, NamedArgs q)
  | Err e => Err e
  | Diverges => Diverges
  end.

(** Detection looks at the comment-stripped text only. *)
Lemma detection_of_stripped (o : range_oracle) (name path q1 q2 : string)
    (md : option (gmap string string)) :
  stripSQLComments q1 = stripSQLComments q2 ->
  detection (NewQuery o name path q1 md) = detection (NewQuery o name path q2 md).
Proof.
  intros H. unfold NewQuery. rewrite H.
  destruct (validateSingleParameterStyle _ _ _ _); [done |].
  destruct (0 <? _)%nat.
  - unfold handlePositionalParams.
    by destruct (positionalLoop _ _ _ _) as [[[args mapping] namedArgs]|].
  - unfold handleNamedParams.
    by destruct (fold_left namedStep _ _) as [[[mapping namedArgs] args] position].
Qed.

(** [stripLine], byte by byte. *)
Fixpoint strip_rec (line : string) : string :=
  match line with
  | EmptyString => EmptyString
  | String c line' =>
      if Str.HasPrefix line "--" then EmptyString else String c (strip_rec line')
  end.

Lemma stripLine_rec (line : string) : stripLine line = strip_rec line.
Proof.
  unfold stripLine. induction line as [|c line IH]; [done |].
  cbn [Str.Index strip_rec].
  destruct (Str.HasPrefix (String c line) "--"); [done |].
  rewrite <- IH.
  destruct (Str.Index line "--" <? 0) eqn:Hneg.
  - apply Z.ltb_lt in Hneg.
    replace (0 <=? Str.Index line "--") with false by (symmetry; apply Z.leb_gt; lia).
    done.
  - apply Z.ltb_ge in Hneg.
    replace (0 <=? Str.Index line "--" + 1) with true by (symmetry; apply Z.leb_le; lia).
    replace (0 <=? Str.Index line "--") with true by (symmetry; apply Z.leb_le; lia).
    replace (Z.to_nat (Str.Index line "--" + 1)) with (S (Z.to_nat (Str.Index line "--")))
      by lia.
    done.
Qed.

(** Two lines that differ only behind a comment marker. *)
Inductive same_code : string -> string -> Prop :=
| same_code_refl (s : string) : same_code s s
| same_code_comment (a b : string) : same_code ("--" +:+ a) ("--" +:+ b)
| same_code_cons (c : ascii) (s t : string) :
    same_code s t -> same_code (String c s) (String c t).

Lemma same_code_head (s t : string) (b : ascii) :
  same_code s t ->
  Str.HasPrefix s (String b EmptyString) = Str.HasPrefix t (String b EmptyString).
Proof.
  intros [s' | a' b' | c s' t' _]; [reflexivity | | reflexivity].
  change ("--" +:+ a') with (String "-" (String "-" a')).
  change ("--" +:+ b') with (String "-" (String "-" b')).
  reflexivity.
Qed.

Lemma same_code_strip (s t : string) : same_code s t -> strip_rec s = strip_rec t.
Proof.
  induction 1 as [s | a b | c s t Hst IH]; [done | done |].
  cbn [strip_rec].
  assert (Hpre : Str.HasPrefix (String c s) "--" = Str.HasPrefix (String c t) "--").
  { cbn [Str.HasPrefix]. f_equal. apply (same_code_head s t "-" Hst). }
  rewrite Hpre, IH. done.
Qed.

Lemma Split_cons (c : ascii) (s : string) (sep : ascii) :
  Str.Split (String c s) sep
  = if Ascii.eqb c sep then EmptyString :: Str.Split s sep
    else match Str.Split s sep with
         | h :: t => String c h :: t
         | [] => [String c EmptyString]
         end.
Proof. reflexivity. Qed.

Lemma Split_nonempty (s : string) (sep : ascii) : Str.Split s sep ≠ [].
Proof.
  destruct s as [|c s]; simpl; [done |].
  destruct (Ascii.eqb c sep); [done |]. by destruct (Str.Split s sep).
Qed.

(** A line without a newline is the first element of the split. *)
Lemma Split_first_line (l post : string) :
  Str.ContainsByte l Str.newline = false ->
  post = EmptyString ∨ (∃ p, post = String Str.newline p) ->
  ∃ rest, Str.Split (l +:+ post) Str.newline = l :: rest ∧
          forall l', Str.ContainsByte l' Str.newline = false ->
                     Str.Split (l' +:+ post) Str.newline = l' :: rest.
Proof.
  intros Hl Hpost.
  assert (Hgen : forall x, Str.ContainsByte x Str.newline = false ->
            Str.Split (x +:+ post) Str.newline
            = x :: match post with
                   | EmptyString => []
                   | String _ p => Str.Split p Str.newline
                   end).
  { induction x as [|c x IH]; intros Hx.
    - destruct Hpost as [-> | [p ->]]; [done |]. rewrite append_nil_l. simpl. done.
    - simpl in Hx. apply orb_false_iff in Hx as [Hc Hx].
      rewrite append_cons. cbn [Str.Split]. rewrite Hc, IH by done. done. }
  eexists. split; [by apply Hgen | apply Hgen].
Qed.

Lemma Split_same_code (pre a b post : string) :
  Str.ContainsByte a Str.newline = false ->
  Str.ContainsByte b Str.newline = false ->
  post = EmptyString ∨ (∃ p, post = String Str.newline p) ->
  Forall2 same_code
    (Str.Split (pre +:+ "--" +:+ a +:+ post) Str.newline)
    (Str.Split (pre +:+ "--" +:+ b +:+ post) Str.newline).
Proof.
  intros Ha Hb Hpost.
  assert (Hbase : Forall2 same_code
                    (Str.Split ("--" +:+ a +:+ post) Str.newline)
                    (Str.Split ("--" +:+ b +:+ post) Str.newline)).
  { rewrite <- !append_assoc.
    destruct (Split_first_line ("--" +:+ a) post) as (rest & H1 & H2); [done | done |].
    rewrite H1, (H2 ("--" +:+ b)) by done.
    constructor; [apply same_code_comment |].
    apply Forall_Forall2_diag, Forall_forall. intros x _. apply same_code_refl. }
  revert Hbase.
  generalize ("--" +:+ a +:+ post) ("--" +:+ b +:+ post). intros x y Hxy.
  induction pre as [|c pre IH]; [done |].
  rewrite !append_cons, !Split_cons.
  destruct (Ascii.eqb c Str.newline).
  - constructor; [apply same_code_refl | done].
  - destruct IH as [|h h' t t' Hh Ht].
    + constructor; [apply same_code_refl | done].
    + constructor; [by apply same_code_cons | done].
Qed.

(** The text behind a comment marker, up to the end of its line, has no
    part in what the stripped text is. *)
Lemma stripSQLComments_comment_text (pre a b post : string) :
  Str.ContainsByte a Str.newline = false ->
  Str.ContainsByte b Str.newline = false ->
  post = EmptyString ∨ (∃ p, post = String Str.newline p) ->
  stripSQLComments (pre +:+ "--" +:+ a +:+ post)
  = stripSQLComments (pre +:+ "--" +:+ b +:+ post).
Proof.
  intros Ha Hb Hpost. unfold stripSQLComments. simpl. f_equal.
  pose proof (Split_same_code pre a b post Ha Hb Hpost) as H.
  induction H as [|x y l l' Hxy _ IH]; [done |].
  rewrite !fmap_cons, IH. f_equal.
  rewrite !stripLine_rec. by apply same_code_strip.
Qed.

(** C5.  Whatever stands behind a comment marker on its line is never
    detected: two blocks that differ only in the text of one trailing
    comment have the same occurrence list, binding table and named
    arguments (or fail alike), wherever on its line the comment starts.
    So ["SELECT 1; -- :user_id"] has no occurrence, and
    ["SELECT 1 WHERE id = :user_id; -- :user_id"] has exactly the one in
    front of the comment marker. *)
Theorem comment_text_is_never_detected :
  (∀ (o : range_oracle) (name path pre a b post : string)
     (md : option (gmap string string)),
     Str.ContainsByte a Str.newline = false ->
     Str.ContainsByte b Str.newline = false ->
     post = EmptyString ∨ (∃ p, post = String Str.newline p) ->
     detection (NewQuery o name path (pre +:+ "--" +:+ a +:+ post) md)
     = detection (NewQuery o name path (pre +:+ "--" +:+ b +:+ post) md))
  ∧ (∀ o : range_oracle,
       detection (NewQuery o "q" "test.sql" "SELECT 1; -- :user_id" None)
       = Ok ([], ∅, []))
  ∧ (∀ o : range_oracle,
       detection (NewQuery o "q" "test.sql"
                    "SELECT 1 WHERE id = :user_id; -- :user_id" None)
       = Ok (["user_id"], {[ "user_id" := 1 ]}, [Named "user_id"])).
Proof.
  split_and!.
  - intros o name path pre a b post md Ha Hb Hpost.
    by apply detection_of_stripped, stripSQLComments_comment_text.
  - intros o.
    rewrite (detection_of_stripped o "q" "test.sql" _ "SELECT 1; " None)
      by (vm_compute; reflexivity).
    vm_compute. reflexivity.
  - intros o.
    rewrite (detection_of_stripped o "q" "test.sql" _
               "SELECT 1 WHERE id = :user_id; " None) by (vm_compute; reflexivity).
    unfold detection, NewQuery, handleNamedParams.
    vm_compute. reflexivity.
Qed.

Lemma comment_text_is_never_detected_witness :
  detection (NewQuery ascending_keys "q" "test.sql"
               ("SELECT :a " +:+ "--" +:+ " :b, $1" +:+ EmptyString) None)
  = detection (NewQuery ascending_keys "q" "test.sql"
                 ("SELECT :a " +:+ "--" +:+ EmptyString +:+ EmptyString) None).
Proof.
  apply (proj1 comment_text_is_never_detected).
  - vm_compute. reflexivity.
  - vm_compute. reflexivity.
  - left. reflexivity.
Defined.

(** ** Comments and rewriting *)

(** The bytes of a string all satisfy [P]. *)
Fixpoint all_bytes (P : ascii -> bool) (s : string) : bool :=
  match s with
  | EmptyString => true
  | String c s' => P c && all_bytes P s'
  end.

Lemma all_bytes_append (P : ascii -> bool) (a b : string) :
  all_bytes P (a +:+ b) = all_bytes P a && all_bytes P b.
Proof.
  induction a as [|x a IH]; [done |].
  rewrite append_cons. simpl. by rewrite IH, andb_assoc.
Qed.

Lemma all_bytes_impl (P Q : ascii -> bool) (s : string) :
  (forall b, P b = true -> Q b = true) ->
  all_bytes P s = true -> all_bytes Q s = true.
Proof.
  intros HPQ. induction s as [|c s IH]; [done |]. simpl.
  intros [Hc Hs]%andb_true_iff. by rewrite (HPQ c Hc), IH.
Qed.

Lemma take_drop (n : nat) (s : string) : Str.take n s +:+ Str.drop n s = s.
Proof.
  revert s. induction n as [|n IH]; intros s; [by destruct s |].
  destruct s as [|c s]; [done |]. simpl. by rewrite append_cons, IH.
Qed.

Lemma take_add (n m : nat) (s : string) :
  Str.take (n + m) s = Str.take n s +:+ Str.take m (Str.drop n s).
Proof.
  revert s. induction n as [|n IH]; intros s; simpl.
  - by destruct m, s.
  - destruct s as [|c s]; [by destruct m |]. by rewrite append_cons, IH.
Qed.

Lemma len_drop (n : nat) (s : string) : Str.len (Str.drop n s) = (Str.len s - n)%nat.
Proof.
  revert s. induction n as [|n IH]; intros s; [by destruct s; simpl; lia |].
  destruct s as [|c s]; [done |]. apply IH.
Qed.

(** The bytes a pattern can consume all satisfy [P]. *)
Fixpoint within (P : ascii -> bool) (r : regex) : Prop :=
  match r with
  | Cls p => forall b, p b = true -> P b = true
  | Lit s => all_bytes P s = true
  | Cat r1 r2 => within P r1 ∧ within P r2
  | Opt a | Star a | Plus a | Cap _ a => within P a
  | Bol | Eol => True
  end.

(** [c'] lies [n] bytes after [c], and the bytes between them satisfy [P]. *)
Definition ahead_in (P : ascii -> bool) (c c' : cursor) : Prop :=
  ∃ n : nat,
    c_pos c' = (c_pos c + n)%nat ∧ c_rest c' = Str.drop n (c_rest c) ∧
    (n <= Str.len (c_rest c))%nat ∧ all_bytes P (Str.take n (c_rest c)) = true.

Lemma ahead_in_refl (P : ascii -> bool) (c : cursor) : ahead_in P c c.
Proof. exists 0%nat. split_and!; [lia | by destruct (c_rest c) | lia | by destruct (c_rest c)]. Qed.

Lemma ahead_in_trans (P : ascii -> bool) (a b c : cursor) :
  ahead_in P a b -> ahead_in P b c -> ahead_in P a c.
Proof.
  intros (n & Hn & Hrn & Hln & Hpn) (m & Hm & Hrm & Hlm & Hpm).
  exists (n + m)%nat. rewrite Hrn in Hrm, Hlm, Hpm. rewrite len_drop in Hlm.
  split_and!; [lia | by rewrite Hrm, drop_drop | lia |].
  by rewrite take_add, all_bytes_append, Hpn, Hpm.
Qed.

Lemma ahead_in_advance (P : ascii -> bool) (c : cursor) (b : ascii) (s' : string) :
  c_rest c = String b s' -> P b = true -> ahead_in P c (advance c s').
Proof.
  intros Hc Hb. exists 1%nat. rewrite Hc. simpl.
  split_and!; [lia | done | unfold Str.len; simpl; lia | by rewrite Hb].
Qed.

Lemma eat_consumes (P : ascii -> bool) (lit : string) (c c' : cursor) :
  all_bytes P lit = true ->
  eat lit c = Some c' -> ahead_in P c c' ∧ c_caps c' = c_caps c.
Proof.
  revert c. induction lit as [|a lit IH]; intros c Hlit H; simpl in H.
  - injection H as <-. split; [apply ahead_in_refl | done].
  - simpl in Hlit. apply andb_true_iff in Hlit as [Ha Hlit].
    destruct (c_rest c) as [|b s'] eqn:Hc; [done |].
    destruct (Ascii.eqb a b) eqn:Hab; [| done].
    apply Ascii.eqb_eq in Hab as <-.
    apply IH in H as [H1 H2]; [| done]. split; [| done].
    eapply ahead_in_trans; [by eapply ahead_in_advance | done].
Qed.

Lemma star_loop_consumes (P : ascii -> bool) (F : Prop)
    (step : (cursor -> option cursor) -> cursor -> option cursor)
    (k : cursor -> option cursor) (res : cursor) :
  (forall k' c, step k' c = Some res ->
     ∃ c', k' c' = Some res ∧ ahead_in P c c' ∧ (F -> c_caps c' = c_caps c)) ->
  forall (n : nat) (c : cursor),
    star_loop step k n c = Some res ->
    ∃ c', k c' = Some res ∧ ahead_in P c c' ∧ (F -> c_caps c' = c_caps c).
Proof.
  intros Hstep. induction n as [|n IHn]; intros c H; simpl in H.
  - exists c. split_and!; [done | apply ahead_in_refl | done].
  - match type of H with
    | match ?t with _ => _ end = _ => destruct t as [res'|] eqn:Ha
    end.
    + injection H as ->. apply Hstep in Ha as (c1 & H & Ha1 & Hc1).
      destruct (c_pos c <? c_pos c1)%nat; [| done].
      apply IHn in H as (c2 & H & Ha2 & Hc2).
      exists c2. split_and!; [done | by eapply ahead_in_trans |].
      intros Hf. by rewrite Hc2, Hc1.
    + exists c. split_and!; [done | apply ahead_in_refl | done].
Qed.

(** [run_sound], with the bytes passed over. *)
Lemma run_consumes (P : ascii -> bool) (r : regex) :
  within P r ->
  forall (k : cursor -> option cursor) (c res : cursor),
    run r k c = Some res ->
    ∃ c', k c' = Some res ∧ ahead_in P c c' ∧ (cap_free r -> c_caps c' = c_caps c).
Proof.
  induction r as [p | s | r1 IH1 r2 IH2 | a IH | a IH | a IH | i a IH | | ];
    intros Hw k c res H; simpl in H.
  - destruct (c_rest c) as [|b s'] eqn:Hc; [done |].
    destruct (p b) eqn:Hp; [| done].
    exists (advance c s'). split_and!; [done | | done].
    eapply ahead_in_advance; [done | by apply Hw].
  - destruct (eat s c) as [c1|] eqn:He; [| done]. simpl in H.
    apply (eat_consumes P) in He as [? ?]; [| done]. by exists c1.
  - destruct Hw as [Hw1 Hw2].
    apply IH1 in H as (c1 & H & Ha1 & Hc1); [| done].
    apply IH2 in H as (c2 & H & Ha2 & Hc2); [| done].
    exists c2. split_and!; [done | by eapply ahead_in_trans |].
    intros [? ?]. by rewrite Hc2, Hc1.
  - destruct (run a k c) as [res'|] eqn:Ha.
    + injection H as ->. by apply IH in Ha.
    + exists c. split_and!; [done | apply ahead_in_refl | done].
  - change (star_loop (run a) k (S (Str.len (c_rest c))) c = Some res) in H.
    eapply star_loop_consumes; [| exact H]. intros k' c0. by apply IH.
  - change (run a (fun c' => star_loop (run a) k (S (Str.len (c_rest c'))) c') c
            = Some res) in H.
    apply IH in H as (c0 & H & Ha0 & Hc0); [| done].
    eapply (star_loop_consumes P (cap_free a)) in H as (c1 & H & Ha1 & Hc1);
      [| intros k' c2; by apply IH].
    exists c1. split_and!; [done | by eapply ahead_in_trans |].
    intros Hf. simpl in Hf. by rewrite Hc1, Hc0.
  - apply IH in H as (c1 & H & Ha1 & _); [| done].
    eexists. split_and!; [exact H | | done].
    destruct Ha1 as (n & ? & ? & ? & ?). by exists n.
  - destruct (c_pos c =? 0)%nat; [| done].
    exists c. split_and!; [done | apply ahead_in_refl | done].
  - destruct (c_rest c); [| done].
    exists c. split_and!; [done | apply ahead_in_refl | done].
Qed.

(** A byte that is neither a dash nor a newline: it cannot start, end or
    be part of a comment marker, and it ends no line. *)
Definition plain_byte (b : ascii) : bool :=
  negb (Ascii.eqb b "-") && negb (Ascii.eqb b Str.newline).

Definition marker_byte (b : ascii) : bool := Ascii.eqb b ":" || Ascii.eqb b "@".

Definition name_byte (b : ascii) : bool := Str.is_quote b || Str.is_word b.

Lemma name_byte_plain (b : ascii) : name_byte b = true -> plain_byte b = true.
Proof. destruct b as [[] [] [] [] [] [] [] []]; vm_compute; congruence. Qed.

Lemma marker_byte_plain (b : ascii) : marker_byte b = true -> plain_byte b = true.
Proof. destruct b as [[] [] [] [] [] [] [] []]; vm_compute; congruence. Qed.

Lemma digit_plain (b : ascii) : Str.is_digit b = true -> plain_byte b = true.
Proof. destruct b as [[] [] [] [] [] [] [] []]; vm_compute; congruence. Qed.

(** A match of the replacement pattern of [paramName] starts with a marker
    byte and goes on over quotes and bytes of the name. *)
Lemma namedParamRE_match_at (paramName : string) (pos : nat) (s : string) (m : found) :
  all_bytes Str.is_word paramName = true ->
  match_at (namedParamRE paramName) pos s = Some m ->
  ∃ (b : ascii) (s' : string) (n : nat),
    s = String b s' ∧ marker_byte b = true ∧ m_end m = (pos + S n)%nat ∧
    (n <= Str.len s')%nat ∧ all_bytes name_byte (Str.take n s') = true.
Proof.
  intros Hname. unfold match_at.
  destruct (run _ _ _) as [res|] eqn:Hrun; [| done]. intros [= <-].
  unfold namedParamRE, re_expr, re_groups, m_end in *.
  rewrite run_Cat in Hrun.
  apply run_Cls_Some in Hrun as (b & s' & Hs & Hb & Hrun). simpl in Hs. subst s.
  apply (run_consumes name_byte) in Hrun as (c' & [= <-] & (n & Hn & _ & Hlen & Hbytes) & _).
  - exists b, s', n. simpl in *. split_and!; [done | done | lia | done | done].
  - simpl. split_and!.
    + intros x Hx. unfold name_byte. by rewrite Hx.
    + eapply all_bytes_impl; [| exact Hname].
      intros x Hx. unfold name_byte. by rewrite Hx, orb_true_r.
    + intros x Hx. unfold name_byte. by rewrite Hx.
Qed.

(** The text of the trailing comments of a query: of every line, the part
    from its first comment marker on; the newlines are kept, so that the
    comments stay on their lines.  [in_comment] tells whether a marker has
    been passed on the current line. *)
Fixpoint comment_scan (in_comment : bool) (s : string) : string :=
  match s with
  | EmptyString => EmptyString
  | String c s' =>
      if Ascii.eqb c Str.newline then String c (comment_scan false s')
      else if in_comment then String c (comment_scan true s')
      else if Str.HasPrefix s "--" then String c (comment_scan true s')
      else comment_scan false s'
  end.

Definition comment_text (query : string) : string := comment_scan false query.

(** The text starts with a placeholder of [paramName] as the replacement
    pattern reads it: a marker byte, a quote or none, and the name. *)
Definition placeholder_at (paramName t : string) : bool :=
  match t with
  | String m t1 =>
      marker_byte m &&
      (Str.HasPrefix t1 paramName ||
       match t1 with
       | String q t2 => Str.is_quote q && Str.HasPrefix t2 paramName
       | EmptyString => false
       end)
  | EmptyString => false
  end.

(** The text holds a placeholder of [paramName] somewhere. *)
Fixpoint occurs (paramName s : string) : bool :=
  placeholder_at paramName s ||
  match s with
  | String _ s' => occurs paramName s'
  | EmptyString => false
  end.

Lemma occurs_cons (paramName : string) (c : ascii) (s : string) :
  occurs paramName (String c s) = false ->
  placeholder_at paramName (String c s) = false ∧ occurs paramName s = false.
Proof. cbn [occurs]. by intros [? ?]%orb_false_iff. Qed.

Lemma eat_HasPrefix (lit : string) :
  forall c c' : cursor, eat lit c = Some c' -> Str.HasPrefix (c_rest c) lit = true.
Proof.
  induction lit as [|a lit IH]; intros c c' H; [done |].
  cbn [eat] in H. destruct (c_rest c) as [|b rest] eqn:Hc; [done |].
  destruct (Ascii.eqb a b) eqn:Hab; [| done].
  apply IH in H. cbn [Str.HasPrefix]. by rewrite Hab.
Qed.

Lemma HasPrefix_eat (lit : string) :
  forall c : cursor, Str.HasPrefix (c_rest c) lit = true -> is_Some (eat lit c).
Proof.
  induction lit as [|a lit IH]; intros c H; [by eexists |].
  cbn [eat]. destruct (c_rest c) as [|b rest] eqn:Hc; [done |].
  cbn [Str.HasPrefix] in H. apply andb_true_iff in H as [Hab H]. rewrite Hab.
  by apply IH.
Qed.

(** The replacement pattern of [paramName] matches at a point exactly when
    a placeholder of [paramName] stands there. *)
Lemma namedParamRE_placeholder_at (paramName : string) (pos : nat) (t : string) :
  is_Some (match_at (namedParamRE paramName) pos t) ↔ placeholder_at paramName t = true.
Proof.
  unfold match_at, namedParamRE, re_expr, re_groups.
  set (tail := run (Cat (Lit paramName) (Opt (Cls Str.is_quote))) Some).
  assert (Htail : forall c, is_Some (tail c) ↔ Str.HasPrefix (c_rest c) paramName = true).
  { intros c. unfold tail. rewrite run_Cat.
    change (run (Lit paramName) ?k c) with (eat paramName c ≫= k). split.
    - destruct (eat paramName c) as [c1|] eqn:He; [| by intros [? ?]].
      intros _. by eapply eat_HasPrefix.
    - intros H. apply HasPrefix_eat in H as [c1 ->]. cbn [mbind option_bind].
      change (run (Opt ?a) Some c1)
        with (match run a Some c1 with Some res => Some res | None => Some c1 end).
      by destruct (run _ Some c1). }
  rewrite run_Cat.
  change (run (Cat (Opt (Cls Str.is_quote)) (Cat (Lit paramName) (Opt (Cls Str.is_quote))))
            Some)
    with (run (Opt (Cls Str.is_quote)) tail).
  destruct t as [|m t1].
  { rewrite run_Cls_nil. split; [by intros [? ?] | done]. }
  rewrite run_Cls_cons. cbn [placeholder_at]. cbv beta.
  fold (marker_byte m). destruct (marker_byte m); cbn [andb];
    [| split; [by intros [? ?] | done]].
  change (run (Opt ?a) tail ?c)
    with (match run a tail c with Some res => Some res | None => tail c end).
  set (c1 := Cursor (S pos) t1 (replicate 1 None)).
  assert (Hquote : is_Some (run (Cls Str.is_quote) tail c1) ↔
                   match t1 with
                   | String q t2 => Str.is_quote q && Str.HasPrefix t2 paramName
                   | EmptyString => false
                   end = true).
  { unfold c1. destruct t1 as [|q t2].
    - rewrite run_Cls_nil. split; [by intros [? ?] | done].
    - rewrite run_Cls_cons. destruct (Str.is_quote q); cbn [andb];
        [apply Htail | split; [by intros [? ?] | done]]. }
  specialize (Htail c1). cbn [c1 c_rest] in Htail.
  rewrite orb_true_iff, <- Htail, <- Hquote.
  destruct (run (Cls Str.is_quote) tail c1) as [r1|].
  - split; [intros _; right; by eexists | intros _; by eexists].
  - destruct (tail c1) as [r2|].
    + split; [intros _; left; by eexists | intros _; by eexists].
    + split; [by intros [? ?] | by intros [[? ?] | [? ?]]].
Qed.

Lemma not_newline_word (b : ascii) :
  Str.is_word b = true -> Ascii.eqb b Str.newline = false.
Proof. destruct b as [[] [] [] [] [] [] [] []]; vm_compute; congruence. Qed.

Lemma comment_scan_plain (chunk s : string) :
  all_bytes plain_byte chunk = true ->
  comment_scan false (chunk +:+ s) = comment_scan false s.
Proof.
  induction chunk as [|c chunk IH]; [done |].
  intros H. simpl in H. apply andb_true_iff in H as [Hc Hchunk].
  rewrite append_cons. cbn [comment_scan Str.HasPrefix].
  unfold plain_byte in Hc. apply andb_true_iff in Hc as [Hdash Hnl].
  apply negb_true_iff in Hdash, Hnl. rewrite Hnl.
  rewrite (Ascii.eqb_sym "-" c), Hdash. simpl. by apply IH.
Qed.

Lemma HasPrefix_dash (c : ascii) (s : string) :
  Str.HasPrefix (String c s) "--"
  = Ascii.eqb "-" c && Str.HasPrefix s "-".
Proof. simpl. destruct s; [done |]. by rewrite andb_true_r. Qed.

Lemma comment_scan_cons (in_comment : bool) (c : ascii) (s : string) :
  comment_scan in_comment (String c s)
  = if Ascii.eqb c Str.newline then String c (comment_scan false s)
    else if in_comment then String c (comment_scan true s)
    else if Ascii.eqb "-" c && Str.HasPrefix s "-" then String c (comment_scan true s)
    else comment_scan false s.
Proof. cbn [comment_scan]. by rewrite HasPrefix_dash. Qed.

Lemma replace_all_skip (re : Regexp) (repl : string) (k pos last_end : nat)
    (c : ascii) (s : string) :
  replace_all re repl (S k) pos last_end (String c s)
  = replace_all re repl k (S pos) last_end s.
Proof. reflexivity. Qed.

Lemma replace_all_here (re : Regexp) (repl : string) (pos last_end : nat)
    (c : ascii) (s : string) :
  replace_all re repl 0 pos last_end (String c s)
  = match match_at re pos (String c s) with
    | Some m =>
        if (pos <? m_end m)%nat
        then repl +:+ replace_all re repl (pred (m_end m - pos)) (S pos) (m_end m) s
        else (if (last_end <? pos)%nat || (pos =? 0)%nat then repl else EmptyString) +:+
             String c (replace_all re repl 0 (S pos) pos s)
    | None => String c (replace_all re repl 0 (S pos) last_end s)
    end.
Proof. reflexivity. Qed.

Lemma not_dash_head (c : ascii) (s : string) :
  Ascii.eqb c "-" = false -> Str.HasPrefix (String c s) "-" = false.
Proof. intros H. cbn [Str.HasPrefix]. by rewrite (Ascii.eqb_sym "-" c), H. Qed.

Lemma plain_not_dash (c : ascii) : plain_byte c = true -> Ascii.eqb c "-" = false.
Proof.
  unfold plain_byte. intros [H _]%andb_true_iff. by apply negb_true_iff in H.
Qed.

Lemma plain_not_newline (c : ascii) :
  plain_byte c = true -> Ascii.eqb c Str.newline = false.
Proof.
  unfold plain_byte. intros [_ H]%andb_true_iff. by apply negb_true_iff in H.
Qed.

Lemma plain_head (s : string) :
  all_bytes plain_byte s = true -> Str.HasPrefix s "-" = false.
Proof.
  destruct s as [|c s]; [done |]. intros H. cbn [all_bytes] in H.
  apply andb_true_iff in H as [H _]. by apply not_dash_head, plain_not_dash.
Qed.

(** Inside a comment, the comment text reads like the query up to the end
    of the line; a name of word bytes does not reach beyond it. *)
Lemma HasPrefix_comment_scan (p : string) :
  all_bytes Str.is_word p = true ->
  forall s : string, Str.HasPrefix (comment_scan true s) p = Str.HasPrefix s p.
Proof.
  induction p as [|a p IH]; intros Hp s; [done |].
  simpl in Hp. apply andb_true_iff in Hp as [Ha Hp].
  destruct s as [|c s]; [done |]. rewrite comment_scan_cons.
  destruct (Ascii.eqb c Str.newline) eqn:Hc.
  - apply Ascii.eqb_eq in Hc as ->. cbn [Str.HasPrefix].
    by rewrite (not_newline_word a Ha).
  - cbn [Str.HasPrefix]. by rewrite IH.
Qed.

Lemma placeholder_at_comment_scan (p s : string) :
  all_bytes Str.is_word p = true ->
  placeholder_at p (comment_scan true s) = placeholder_at p s.
Proof.
  intros Hp. destruct s as [|m t1]; [done |]. rewrite comment_scan_cons.
  destruct (Ascii.eqb m Str.newline) eqn:Hm.
  { apply Ascii.eqb_eq in Hm as ->. reflexivity. }
  cbn [placeholder_at]. rewrite HasPrefix_comment_scan by done. f_equal. f_equal.
  destruct t1 as [|q t2]; [done |]. rewrite comment_scan_cons.
  destruct (Ascii.eqb q Str.newline) eqn:Hq.
  { apply Ascii.eqb_eq in Hq as ->. reflexivity. }
  by rewrite HasPrefix_comment_scan.
Qed.

(** How often the byte stands in the text. *)
Fixpoint count_byte (x : ascii) (s : string) : nat :=
  match s with
  | EmptyString => 0
  | String c s' => (if Ascii.eqb c x then 1 else 0) + count_byte x s'
  end.

Lemma count_byte_append (x : ascii) (a b : string) :
  count_byte x (a +:+ b) = (count_byte x a + count_byte x b)%nat.
Proof.
  induction a as [|c a IH]; [done |]. rewrite append_cons. cbn [count_byte].
  rewrite IH. lia.
Qed.

Lemma name_byte_not_dollar (b : ascii) : name_byte b = true -> Ascii.eqb b "$" = false.
Proof. destruct b as [[] [] [] [] [] [] [] []]; vm_compute; congruence. Qed.

Lemma marker_byte_not_dollar (b : ascii) : marker_byte b = true -> Ascii.eqb b "$" = false.
Proof. destruct b as [[] [] [] [] [] [] [] []]; vm_compute; congruence. Qed.

Lemma count_dollar_name (w : string) :
  all_bytes name_byte w = true -> count_byte "$" w = 0%nat.
Proof.
  induction w as [|c w IH]; [done |]. intros H. simpl in H.
  apply andb_true_iff in H as [Hc Hw]. cbn [count_byte].
  by rewrite (name_byte_not_dollar c Hc), IH.
Qed.

(** Plain bytes inside a comment are comment text; outside, they are
    not. *)
Lemma comment_scan_chunk (in_comment : bool) (chunk s : string) :
  all_bytes plain_byte chunk = true ->
  comment_scan in_comment (chunk +:+ s)
  = (if in_comment then chunk else EmptyString) +:+ comment_scan in_comment s.
Proof.
  intros Hchunk. destruct in_comment; [| by apply comment_scan_plain].
  induction chunk as [|c chunk IH]; [done |].
  simpl in Hchunk. apply andb_true_iff in Hchunk as [Hc Hchunk].
  rewrite !append_cons, comment_scan_cons, (plain_not_newline c Hc). by rewrite IH.
Qed.

Section ReplaceKeepsComments.

(** The replacement of one parameter: the name is made of word bytes,
    the ordinal marker of plain bytes, and it is not empty. *)
Variable paramName repl : string.
Hypothesis name_is_word : all_bytes Str.is_word paramName = true.
Hypothesis repl_is_plain : all_bytes plain_byte repl = true.
Hypothesis repl_not_empty : repl ≠ EmptyString.

Lemma namedParamRE_no_match_empty (pos : nat) :
  match_at (namedParamRE paramName) pos EmptyString = None.
Proof.
  destruct (match_at _ _ _) as [m|] eqn:Hm; [| done].
  apply namedParamRE_match_at in Hm as (b & s' & n & [=] & _); done.
Qed.

Lemma replace_all_empty (pos last_end : nat) :
  replace_all (namedParamRE paramName) repl 0 pos last_end EmptyString = EmptyString.
Proof.
  change (replace_all (namedParamRE paramName) repl 0 pos last_end EmptyString)
    with (match match_at (namedParamRE paramName) pos EmptyString with
          | Some m =>
              if (pos <? m_end m)%nat then repl +:+ EmptyString
              else (if (last_end <? pos)%nat || (pos =? 0)%nat
                    then repl else EmptyString) +:+ EmptyString
          | None => EmptyString
          end).
  by rewrite namedParamRE_no_match_empty.
Qed.

Lemma repl_head : Str.HasPrefix repl "-" = false.
Proof. by apply plain_head. Qed.

Lemma HasPrefix_append_head (a b : string) :
  a ≠ EmptyString -> Str.HasPrefix (a +:+ b) "-" = Str.HasPrefix a "-".
Proof. by destruct a. Qed.

(** The rewritten text starts with a dash exactly when the text does. *)
Lemma replace_all_head (pos last_end : nat) (s : string) :
  Str.HasPrefix (replace_all (namedParamRE paramName) repl 0 pos last_end s) "-"
  = Str.HasPrefix s "-".
Proof.
  destruct s as [|c s']; [by rewrite replace_all_empty |].
  rewrite replace_all_here.
  destruct (match_at _ pos (String c s')) as [m|] eqn:Hm; [| done].
  apply namedParamRE_match_at in Hm as (b & s'' & n & [= <- <-] & Hb & Hend & _);
    [| done].
  replace (pos <? m_end m)%nat with true by (symmetry; apply Nat.ltb_lt; lia).
  rewrite HasPrefix_append_head, repl_head by done.
  symmetry. by apply not_dash_head, plain_not_dash, marker_byte_plain.
Qed.

(** No match of the pattern starts inside a comment that holds no
    placeholder of the name. *)
Lemma no_match_in_comment (pos : nat) (s : string) :
  occurs paramName (comment_scan true s) = false ->
  match_at (namedParamRE paramName) pos s = None.
Proof.
  intros Hfree.
  destruct (match_at (namedParamRE paramName) pos s) as [m|] eqn:Hm; [| done].
  assert (Hat : placeholder_at paramName s = true)
    by (apply (namedParamRE_placeholder_at paramName pos); by rewrite Hm).
  rewrite <- (placeholder_at_comment_scan paramName s name_is_word) in Hat.
  destruct (comment_scan true s) as [|c t]; [done |].
  apply occurs_cons in Hfree as [Hfree _]. congruence.
Qed.

(** Rewriting keeps the comment text, when that holds no placeholder of
    the name: from a point outside a match, in whatever state the line
    is; and from a point inside a match, which lies outside the
    comments. *)
Lemma replace_all_comment_scan (s : string) :
  (∀ (pos last_end : nat) (in_comment : bool),
     occurs paramName (comment_scan in_comment s) = false ->
     comment_scan in_comment (replace_all (namedParamRE paramName) repl 0 pos last_end s)
     = comment_scan in_comment s) ∧
  (∀ (k pos last_end : nat),
     (S k <= Str.len s)%nat ->
     all_bytes plain_byte (Str.take (S k) s) = true ->
     occurs paramName (comment_scan false (Str.drop (S k) s)) = false ->
     comment_scan false (replace_all (namedParamRE paramName) repl (S k) pos last_end s)
     = comment_scan false (Str.drop (S k) s)).
Proof.
  induction s as [|c s' [IH1 IH2]].
  { split; [intros; by rewrite replace_all_empty | intros k pos last_end Hk; by simpl in Hk]. }
  split.
  - intros pos last_end in_comment Hfree. rewrite replace_all_here.
    destruct (match_at _ pos (String c s')) as [m|] eqn:Hm.
    + destruct in_comment.
      { rewrite no_match_in_comment in Hm by done. done. }
      apply namedParamRE_match_at in Hm
        as (b & s'' & n & [= <- <-] & Hb & Hend & Hlen & Hbytes); [| done].
      replace (pos <? m_end m)%nat with true by (symmetry; apply Nat.ltb_lt; lia).
      replace (pred (m_end m - pos)) with n by lia.
      pose proof (marker_byte_plain c Hb) as Hplain.
      assert (Hcode : comment_scan false (String c s') = comment_scan false s').
      { apply (comment_scan_plain (String c EmptyString) s'). simpl. by rewrite Hplain. }
      rewrite Hcode in Hfree.
      rewrite Hcode, comment_scan_plain by done.
      destruct n as [|k]; [by apply IH1 |].
      assert (Hchunk : all_bytes plain_byte (Str.take (S k) s') = true).
      { eapply all_bytes_impl; [apply name_byte_plain | done]. }
      assert (Hdrop : comment_scan false (Str.drop (S k) s') = comment_scan false s').
      { rewrite <- (take_drop (S k) s') at 2. by rewrite comment_scan_plain. }
      rewrite IH2; [done | done | done | by rewrite Hdrop].
    + rewrite !comment_scan_cons in *. rewrite replace_all_head.
      destruct (Ascii.eqb c Str.newline).
      { apply occurs_cons in Hfree as [_ Hfree]. by rewrite IH1. }
      destruct in_comment.
      { apply occurs_cons in Hfree as [_ Hfree]. by rewrite IH1. }
      destruct (Ascii.eqb "-" c && Str.HasPrefix s' "-").
      { apply occurs_cons in Hfree as [_ Hfree]. by rewrite IH1. }
      by apply IH1.
  - intros k pos last_end Hk Hbytes Hfree. rewrite replace_all_skip.
    change (Str.drop (S k) (String c s')) with (Str.drop k s') in *.
    change (Str.take (S k) (String c s')) with (String c (Str.take k s')) in Hbytes.
    simpl in Hbytes. apply andb_true_iff in Hbytes as [_ Hbytes].
    unfold Str.len in Hk. simpl in Hk.
    destruct k as [|k].
    + replace (Str.drop 0 s') with s' in * by (by destruct s'). by apply IH1.
    + apply IH2; [unfold Str.len; lia | done | done].
Qed.

(** Replacing the placeholders of one parameter keeps the comment text
    of a query whose comments hold no placeholder of it. *)
Lemma ReplaceAllLiteralString_comment_text (query : string) :
  occurs paramName (comment_text query) = false ->
  comment_text (ReplaceAllLiteralString (namedParamRE paramName) query repl)
  = comment_text query.
Proof. intros H. by apply (proj1 (replace_all_comment_scan query)). Qed.

(** The ordinal marker holds a dollar sign; the text it replaces holds
    none. *)
Hypothesis repl_dollar : (1 <= count_byte "$" repl)%nat.

(** Rewriting never takes a dollar sign out of the comment text, and it
    puts one in when the comment text holds a placeholder of the name. *)
Lemma replace_all_comment_dollars (s : string) :
  (∀ (pos last_end : nat) (in_comment : bool),
     let old := comment_scan in_comment s in
     let new := comment_scan in_comment
                  (replace_all (namedParamRE paramName) repl 0 pos last_end s) in
     (count_byte "$" old <= count_byte "$" new)%nat ∧
     (occurs paramName old = true -> (count_byte "$" old < count_byte "$" new)%nat)) ∧
  (∀ (k pos last_end : nat) (in_comment : bool),
     (S k <= Str.len s)%nat ->
     let old := comment_scan in_comment (Str.drop (S k) s) in
     let new := comment_scan in_comment
                  (replace_all (namedParamRE paramName) repl (S k) pos last_end s) in
     (count_byte "$" old <= count_byte "$" new)%nat ∧
     (occurs paramName old = true -> (count_byte "$" old < count_byte "$" new)%nat)).
Proof.
  induction s as [|c s' [IH1 IH2]].
  { split.
    - intros pos last_end in_comment. cbn zeta. rewrite replace_all_empty.
      split; [lia | by destruct in_comment].
    - intros k pos last_end in_comment Hk. by simpl in Hk. }
  split.
  - intros pos last_end in_comment. cbn zeta. rewrite replace_all_here.
    destruct (match_at _ pos (String c s')) as [m|] eqn:Hm.
    + apply namedParamRE_match_at in Hm
        as (b & s'' & n & [= <- <-] & Hb & Hend & Hlen & Hbytes); [| done].
      replace (pos <? m_end m)%nat with true by (symmetry; apply Nat.ltb_lt; lia).
      replace (pred (m_end m - pos)) with n by lia.
      pose proof (marker_byte_plain c Hb) as Hplain.
      assert (Hchunk : all_bytes plain_byte (String c (Str.take n s')) = true).
      { cbn [all_bytes]. rewrite Hplain. cbn [andb].
        eapply all_bytes_impl; [apply name_byte_plain | done]. }
      assert (Hold : comment_scan in_comment (String c s')
                     = (if in_comment then String c (Str.take n s') else EmptyString)
                       +:+ comment_scan in_comment (Str.drop n s')).
      { rewrite <- (comment_scan_chunk in_comment (String c (Str.take n s'))) by done.
        by rewrite append_cons, take_drop. }
      assert (Hzero : count_byte "$" (String c (Str.take n s')) = 0%nat).
      { cbn [count_byte]. by rewrite (marker_byte_not_dollar c Hb), count_dollar_name. }
      rewrite Hold, (comment_scan_chunk in_comment repl) by done.
      assert (Hrest :
        (count_byte "$" (comment_scan in_comment (Str.drop n s'))
         <= count_byte "$" (comment_scan in_comment
                              (replace_all (namedParamRE paramName) repl n (S pos)
                                 (m_end m) s')))%nat ∧
        (occurs paramName (comment_scan in_comment (Str.drop n s')) = true ->
         (count_byte "$" (comment_scan in_comment (Str.drop n s'))
          < count_byte "$" (comment_scan in_comment
                              (replace_all (namedParamRE paramName) repl n (S pos)
                                 (m_end m) s')))%nat)).
      { destruct n as [|k].
        - replace (Str.drop 0 s') with s' by (by destruct s'). apply IH1.
        - by apply IH2. }
      destruct Hrest as [Hle Hlt].
      destruct in_comment.
      * rewrite !count_byte_append, Hzero. split; [lia | intros _; lia].
      * rewrite !append_nil_l. split; [done | done].
    + cbn [fst].
      assert (Hat : placeholder_at paramName (String c s') = false).
      { destruct (placeholder_at paramName (String c s')) eqn:Hat; [| done].
        apply (namedParamRE_placeholder_at paramName pos) in Hat as [m' Hm'].
        congruence. }
      rewrite !comment_scan_cons, replace_all_head.
      destruct (Ascii.eqb c Str.newline) eqn:Hnl.
      { destruct (IH1 (S pos) last_end false) as [Hle Hlt]. cbn [count_byte]. split; [lia |].
        intros Hocc. cbn [occurs] in Hocc. apply orb_true_iff in Hocc as [Hocc | Hocc].
        - apply Ascii.eqb_eq in Hnl as ->. done.
        - specialize (Hlt Hocc). lia. }
      destruct in_comment.
      { destruct (IH1 (S pos) last_end true) as [Hle Hlt]. cbn [count_byte]. split; [lia |].
        intros Hocc. cbn [occurs] in Hocc. apply orb_true_iff in Hocc as [Hocc | Hocc].
        - assert (Heq : String c (comment_scan true s') = comment_scan true (String c s'))
            by (by rewrite comment_scan_cons, Hnl).
          rewrite Heq, placeholder_at_comment_scan in Hocc by done. congruence.
        - specialize (Hlt Hocc). lia. }
      destruct (Ascii.eqb "-" c && Str.HasPrefix s' "-") eqn:Hdash.
      { destruct (IH1 (S pos) last_end true) as [Hle Hlt]. cbn [count_byte]. split; [lia |].
        intros Hocc. cbn [occurs] in Hocc. apply orb_true_iff in Hocc as [Hocc | Hocc].
        - apply andb_true_iff in Hdash as [Hc _]. apply Ascii.eqb_eq in Hc as <-. done.
        - specialize (Hlt Hocc). lia. }
      apply IH1.
  - intros k pos last_end in_comment Hk. cbn zeta. rewrite replace_all_skip.
    change (Str.drop (S k) (String c s')) with (Str.drop k s').
    unfold Str.len in Hk. simpl in Hk.
    destruct k as [|k].
    + replace (Str.drop 0 s') with s' by (by destruct s'). apply IH1.
    + apply IH2. unfold Str.len. lia.
Qed.

Lemma ReplaceAllLiteralString_comment_dollars (query : string) :
  let new := comment_text (ReplaceAllLiteralString (namedParamRE paramName) query repl) in
  (count_byte "$" (comment_text query) <= count_byte "$" new)%nat ∧
  (occurs paramName (comment_text query) = true ->
   (count_byte "$" (comment_text query) < count_byte "$" new)%nat).
Proof. apply (proj1 (replace_all_comment_dollars query)). Qed.

End ReplaceKeepsComments.

(** *** The names and ordinals of the binding table *)

Lemma is_alpha_word (b : ascii) : Str.is_alpha b = true -> Str.is_word b = true.
Proof. unfold Str.is_word. by intros ->. Qed.

(** The name a named pattern captures is made of word bytes. *)
Lemma namedMarkerRE_capture_word (marker : ascii) (pos : nat) (s : string) (m : found) :
  match_at (namedMarkerRE marker) pos s = Some m ->
  ∃ gs ge : nat,
    m_caps m !! 1%nat = Some (Some (gs, ge)) ∧ (pos <= gs)%nat ∧
    all_bytes Str.is_word (Str.take (ge - gs) (Str.drop (gs - pos) s)) = true.
Proof.
  unfold match_at.
  destruct (run _ _ _) as [res|] eqn:Hrun; [| done]. intros [= <-].
  unfold namedMarkerRE, re_expr, re_groups, m_caps in *.
  rewrite run_Cat in Hrun.
  apply run_Cls_Some in Hrun as (b & s1 & Hs & _ & Hrun). simpl in Hs. subst s.
  rewrite run_Cat in Hrun.
  apply run_Cls_Some in Hrun as (x & s2 & Hs & _ & Hrun). simpl in Hs. subst s1.
  rewrite run_Cat in Hrun.
  assert (Hk : forall c0,
            run (Cat (Cap 1 (Cat (Cls Str.is_alpha) (Star (Cls Str.is_word))))
                   (Opt (Cls Str.is_quote))) Some c0 = Some res ->
            c_caps c0 = [None; None] ->
            ∃ ge, c_caps res = [None; Some (c_pos c0, ge)] ∧
                  all_bytes Str.is_word (Str.take (ge - c_pos c0) (c_rest c0)) = true).
  { intros c0 Hc0 Hcaps. rewrite run_Cat in Hc0.
    change (run (Cap 1 ?a) ?k c0) with
      (run a (fun c' => k (Cursor (c_pos c') (c_rest c')
                             (<[1%nat := Some (c_pos c0, c_pos c')]> (c_caps c')))) c0)
      in Hc0.
    apply (run_consumes Str.is_word) in Hc0 as (c1 & Hc1 & (n & Hn & _ & _ & Hbytes) & Hcap1);
      [| split; [exact is_alpha_word | by intros ?]].
    apply run_sound in Hc1 as (c2 & [= <-] & _ & Hcap2).
    exists (c_pos c1). rewrite Hcap2 by done. simpl.
    rewrite Hcap1 by (by split). rewrite Hcaps. split; [done |].
    by replace (c_pos c1 - c_pos c0)%nat with n by lia. }
  apply run_Opt_Some in Hrun as [Hrun | Hrun].
  - apply run_Cls_Some in Hrun as (y & s3 & Hs & _ & Hrun). simpl in Hs. subst s2.
    apply Hk in Hrun as (ge & Hge & Hbytes); [| done].
    exists (S (S (S pos))), ge. rewrite Hge. simpl in *.
    split_and!; [done | lia |].
    by replace (S (S (S pos)) - pos)%nat with 3%nat by lia.
  - apply Hk in Hrun as (ge & Hge & Hbytes); [| done].
    exists (S (S pos)), ge. rewrite Hge. simpl in *.
    split_and!; [done | lia |].
    by replace (S (S pos) - pos)%nat with 2%nat by lia.
Qed.

Lemma FindAllStringSubmatch_capture_word (marker : ascii) (text : string)
    (match_ : list string) :
  match_ ∈ FindAllStringSubmatch (namedMarkerRE marker) text ->
  all_bytes Str.is_word (capture match_) = true.
Proof.
  unfold FindAllStringSubmatch. intros (m & -> & Hm)%list_elem_of_fmap.
  apply all_matches_sound in Hm as [n Hn]. simpl in Hn.
  apply namedMarkerRE_capture_word in Hn as (gs & ge & Hcap & Hgs & Hbytes).
  unfold capture, submatches. simpl. rewrite Hcap. unfold substr.
  rewrite drop_drop in Hbytes. by replace (n + (gs - n))%nat with gs in Hbytes by lia.
Qed.

(** Every entry of the binding table of the named path is a name of word
    bytes, bound to an ordinal from 1 on. *)
Lemma handleNamedParams_entries (o : range_oracle) (q0 : Query)
    (name query cleanQuery : string) (x : string) (ord : Z) :
  Mapping (handleNamedParams o q0 name query cleanQuery) !! x = Some ord ->
  all_bytes Str.is_word x = true ∧ 1 <= ord.
Proof.
  intros Hx.
  destruct (handleNamedParams_numbered o q0 name query cleanQuery)
    as [Hargs (position & _ & Hord & Hdom)].
  assert (Hin : x ∈ Args (handleNamedParams o q0 name query cleanQuery))
    by (apply Hdom; by exists ord).
  split.
  - rewrite Hargs in Hin. unfold occurrences in Hin.
    apply list_elem_of_fmap in Hin as (match_ & -> & Hin).
    unfold filterReservedNames in Hin. apply list_elem_of_In, filter_In in Hin as [Hin _].
    apply list_elem_of_In, elem_of_app in Hin as [Hin | Hin];
      by eapply FindAllStringSubmatch_capture_word.
  - apply elem_of_distinct, list_elem_of_lookup in Hin as [n Hn].
    apply Hord in Hn. rewrite Hn in Hx. injection Hx as <-. lia.
Qed.

Lemma string_of_uint_digits (d : Decimal.uint) :
  all_bytes Str.is_digit (NilEmpty.string_of_uint d) = true.
Proof. induction d as [|d IH|d IH|d IH|d IH|d IH|d IH|d IH|d IH|d IH|d IH]; done. Qed.

Lemma itoa_digits (n : Z) : 0 <= n -> all_bytes Str.is_digit (Str.itoa n) = true.
Proof.
  intros Hn. unfold Str.itoa.
  destruct n as [|p|p]; [done | apply string_of_uint_digits | lia].
Qed.

Lemma replaceParam_comment_text (query : string) (x : string) (ord : Z) :
  all_bytes Str.is_word x = true -> 0 <= ord ->
  occurs x (comment_text query) = false ->
  comment_text (replaceParam query (x, ord)) = comment_text query.
Proof.
  intros Hx Hord Hfree. unfold replaceParam.
  apply ReplaceAllLiteralString_comment_text; [done | | done | done].
  change ("$" +:+ Str.itoa ord) with (String "$" (Str.itoa ord)).
  cbn [all_bytes]. change (plain_byte "$") with true. cbn [andb].
  eapply all_bytes_impl; [apply digit_plain | by apply itoa_digits].
Qed.

(** The rounds of the replacement loop keep the comment text, when that
    holds no placeholder of the names they replace. *)
Lemma replaceParams_comment_text (comments : string) (entries : list (string * Z)) :
  (∀ x ord, (x, ord) ∈ entries ->
            all_bytes Str.is_word x = true ∧ 1 <= ord ∧ occurs x comments = false) ->
  forall query : string,
    comment_text query = comments ->
    comment_text (fold_left replaceParam entries query) = comments.
Proof.
  induction entries as [|[x ord] entries IH]; intros Hentries query Hquery; [done |].
  cbn [fold_left].
  destruct (Hentries x ord) as (Hx & Hord & Hfree); [apply list_elem_of_here |].
  apply IH.
  - intros x' ord' Hin. apply Hentries. by apply list_elem_of_further.
  - rewrite replaceParam_comment_text; [done | done | lia | by rewrite Hquery].
Qed.

Lemma replaceParam_comment_dollars (query : string) (x : string) (ord : Z) :
  all_bytes Str.is_word x = true -> 0 <= ord ->
  let new := comment_text (replaceParam query (x, ord)) in
  (count_byte "$" (comment_text query) <= count_byte "$" new)%nat ∧
  (occurs x (comment_text query) = true ->
   (count_byte "$" (comment_text query) < count_byte "$" new)%nat).
Proof.
  intros Hx Hord. unfold replaceParam.
  apply ReplaceAllLiteralString_comment_dollars; [done | | done |].
  - change ("$" +:+ Str.itoa ord) with (String "$" (Str.itoa ord)).
    cbn [all_bytes]. change (plain_byte "$") with true. cbn [andb].
    eapply all_bytes_impl; [apply digit_plain | by apply itoa_digits].
  - change ("$" +:+ Str.itoa ord) with (String "$" (Str.itoa ord)).
    cbn [count_byte]. rewrite Ascii.eqb_refl. lia.
Qed.

(** The rounds of the replacement loop change the comment text, when that
    holds a placeholder of a name they replace: the comment text gains a
    dollar sign. *)
Lemma replaceParams_comment_dollars (entries : list (string * Z)) :
  (∀ x ord, (x, ord) ∈ entries -> all_bytes Str.is_word x = true ∧ 1 <= ord) ->
  forall query : string,
    let new := comment_text (fold_left replaceParam entries query) in
    (count_byte "$" (comment_text query) <= count_byte "$" new)%nat ∧
    ((∃ x ord, (x, ord) ∈ entries ∧ occurs x (comment_text query) = true) ->
     (count_byte "$" (comment_text query) < count_byte "$" new)%nat).
Proof.
  induction entries as [|[x ord] entries IH]; intros Hentries query; cbn zeta.
  { split; [done |]. intros (x & ord & Hin & _). by apply elem_of_nil in Hin. }
  cbn [fold_left].
  destruct (Hentries x ord) as [Hx Hord]; [apply list_elem_of_here |].
  destruct (replaceParam_comment_dollars query x ord Hx ltac:(lia)) as [Hle Hlt].
  destruct (IH (fun x' ord' Hin => Hentries x' ord' (list_elem_of_further _ _ _ Hin))
              (replaceParam query (x, ord))) as [Hle' Hlt'].
  split; [lia |].
  intros (y & ordy & Hin & Hocc).
  destruct (occurs x (comment_text query)) eqn:Hxocc.
  { specialize (Hlt eq_refl). lia. }
  apply elem_of_cons in Hin as [[= -> ->] | Hin]; [congruence |].
  assert (Hsame : comment_text (replaceParam query (x, ord)) = comment_text query)
    by (apply replaceParam_comment_text; [done | lia | done]).
  assert (Hstep : (count_byte "$" (comment_text (replaceParam query (x, ord)))
                   < count_byte "$"
                       (comment_text
                          (fold_left replaceParam entries (replaceParam query (x, ord)))))%nat).
  { apply Hlt'. exists y, ordy. split; [done | by rewrite Hsame]. }
  lia.
Qed.

Lemma handleNamedParams_OrdinalQuery (o : range_oracle) (q0 : Query)
    (name query cleanQuery : string) :
  let q := handleNamedParams o q0 name query cleanQuery in
  OrdinalQuery q = header name (fold_left replaceParam (range o (Mapping q)) query).
Proof.
  unfold handleNamedParams.
  by destruct (fold_left namedStep _ _) as [[[mapping namedArgs] args] position].
Qed.

(** The text outside the trailing comments: what [comment_scan] leaves
    out, with the newlines. *)
Fixpoint code_scan (in_comment : bool) (s : string) : string :=
  match s with
  | EmptyString => EmptyString
  | String c s' =>
      if Ascii.eqb c Str.newline then String c (code_scan false s')
      else if in_comment then code_scan true s'
      else if Str.HasPrefix s "--" then code_scan true s'
      else String c (code_scan false s')
  end.

Lemma code_scan_cons (in_comment : bool) (c : ascii) (s : string) :
  code_scan in_comment (String c s)
  = if Ascii.eqb c Str.newline then String c (code_scan false s)
    else if in_comment then code_scan true s
    else if Ascii.eqb "-" c && Str.HasPrefix s "-" then code_scan true s
    else String c (code_scan false s).
Proof. cbn [code_scan]. by rewrite HasPrefix_dash. Qed.

Lemma strip_rec_cons (c : ascii) (line : string) :
  strip_rec (String c line)
  = if Ascii.eqb "-" c && Str.HasPrefix line "-" then EmptyString
    else String c (strip_rec line).
Proof. cbn [strip_rec]. by rewrite HasPrefix_dash. Qed.

Lemma Join_cons_cons (x y : string) (l : list string) (sep : string) :
  Str.Join (x :: y :: l) sep = x +:+ sep +:+ Str.Join (y :: l) sep.
Proof. reflexivity. Qed.

Lemma Join_head_byte (c : ascii) (x : string) (l : list string) (sep : string) :
  Str.Join (String c x :: l) sep = String c (Str.Join (x :: l) sep).
Proof. by destruct l. Qed.

(** The first line of a text starts with a dash exactly when the text
    does. *)
Lemma Split_head_dash (s h : string) (t : list string) :
  Str.Split s Str.newline = h :: t -> Str.HasPrefix h "-" = Str.HasPrefix s "-".
Proof.
  destruct s as [|c s]; [by intros [= <- <-] |].
  rewrite Split_cons. destruct (Ascii.eqb c Str.newline) eqn:Hc.
  - intros [= <- <-]. apply Ascii.eqb_eq in Hc as ->. reflexivity.
  - destruct (Str.Split s Str.newline); by intros [= <- <-].
Qed.

Lemma stripSQLComments_scan (s : string) :
  Str.Join (strip_rec <$> Str.Split s Str.newline) nl = code_scan false s ∧
  Str.Join (EmptyString :: (strip_rec <$> tail (Str.Split s Str.newline))) nl
  = code_scan true s.
Proof.
  induction s as [|c s [IH1 IH2]]; [done |].
  rewrite Split_cons, !code_scan_cons.
  destruct (Str.Split s Str.newline) as [|h t] eqn:Hsplit;
    [by apply Split_nonempty in Hsplit |].
  destruct (Ascii.eqb c Str.newline) eqn:Hc.
  - apply Ascii.eqb_eq in Hc as ->. cbn [tail fmap list_fmap strip_rec] in *.
    by rewrite !Join_cons_cons, IH1.
  - cbn [tail fmap list_fmap] in *. split; [| done].
    rewrite strip_rec_cons, (Split_head_dash s h t Hsplit).
    destruct (Ascii.eqb "-" c && Str.HasPrefix s "-"); [done |].
    by rewrite Join_head_byte, IH1.
Qed.

(** [stripSQLComments] keeps the bytes outside the comments, and the
    newlines. *)
Lemma stripSQLComments_code_scan (query : string) :
  stripSQLComments query = code_scan false query.
Proof.
  unfold stripSQLComments. cbv zeta.
  rewrite <- (proj1 (stripSQLComments_scan query)). f_equal.
  apply list_fmap_ext. intros _ line _. apply stripLine_rec.
Qed.

(** The ordinal text is the header line followed by a body. *)
Definition body_of (name ordinalQuery body : string) : Prop :=
  ordinalQuery = header name body.

(** The text outside the trailing comments of a query. *)
Definition code_text (query : string) : string := code_scan false query.

Lemma append_inj_r (a b c : string) : a +:+ b = a +:+ c -> b = c.
Proof.
  induction a as [|x a IH]; [done |]. rewrite !append_cons. intros [= H]. by apply IH.
Qed.

Lemma body_of_inj (name ordinalQuery b1 b2 : string) :
  body_of name ordinalQuery b1 -> body_of name ordinalQuery b2 -> b1 = b2.
Proof.
  unfold body_of, header. intros -> H.
  by do 3 apply append_inj_r in H.
Qed.

(** C2 (as amended).  The analysis does not mine comment text: whatever
    the trailing comments of a text are changed to, a text with the same
    bytes outside its trailing comments is analysed alike.  The ordinal
    substitution runs over the raw text, comments included.  When no
    trailing comment holds a marker byte, a quote or none, and then a
    name of the occurrence list, the comment text of the body of the
    ordinal text is, byte for byte, the comment text of the raw text.  A
    block of the ordinal convention is not rewritten at all.  In a block
    of a named convention, a comment that does hold a placeholder of a
    name of the occurrence list is rewritten: the comment text of the
    body differs from that of the raw text. *)
Theorem comments_without_placeholders_are_kept (o : range_oracle)
    (name path query : string) (md : option (gmap string string)) (q : Query) :
  NewQuery o name path query md = Ok q ->
  (∀ query' : string,
     code_text query' = code_text query ->
     detection (NewQuery o name path query' md) = Ok (Args q, Mapping q, NamedArgs q)) ∧
  ((∀ p : string, p ∈ Args q -> occurs p (comment_text query) = false) ->
   ∃ body : string,
     body_of name (OrdinalQuery q) body ∧ comment_text body = comment_text query) ∧
  (FindAllStringSubmatch positionalParamRE (code_text query) ≠ [] ->
   body_of name (OrdinalQuery q) query) ∧
  (FindAllStringSubmatch positionalParamRE (code_text query) = [] ->
   ∀ p : string,
     p ∈ Args q -> occurs p (comment_text query) = true ->
     ∀ body : string,
       body_of name (OrdinalQuery q) body -> comment_text body ≠ comment_text query).
Proof.
  intros Hq. split_and!.
  - intros query' Hcode.
    rewrite (detection_of_stripped o name path query' query md), Hq; [done |].
    by rewrite !stripSQLComments_code_scan.
  - intros Hfree. unfold NewQuery in Hq.
    destruct (validateSingleParameterStyle _ _ _ _); [done |].
    destruct (0 <? _)%nat.
    + unfold handlePositionalParams in Hq.
      destruct (positionalLoop _ _ _ _) as [[[args mapping] namedArgs]|]; [| done].
      injection Hq as <-. by exists query.
    + injection Hq as <-. eexists. split; [apply handleNamedParams_OrdinalQuery |].
      apply replaceParams_comment_text; [| done].
      intros x ord Hin. apply elem_of_range in Hin.
      destruct (handleNamedParams_entries _ _ _ _ _ _ _ Hin) as [Hx Hord].
      split_and!; [done | done |]. apply Hfree.
      destruct (handleNamedParams_numbered o
                  (mkQuery name path query EmptyString ∅ [] []
                     (default ∅ md)) name query (stripSQLComments query))
        as [_ (position & _ & _ & Hdom)].
      apply Hdom. by exists ord.
  - intros Hpos. unfold NewQuery in Hq.
    destruct (validateSingleParameterStyle _ _ _ _); [done |].
    rewrite stripSQLComments_code_scan in Hq. fold (code_text query) in Hq.
    destruct (FindAllStringSubmatch positionalParamRE (code_text query)) as [|m ms];
      [done |].
    cbn [length Nat.ltb Nat.leb] in Hq.
    unfold handlePositionalParams in Hq.
    destruct (positionalLoop _ _ _ _) as [[[args mapping] namedArgs]|]; [| done].
    by injection Hq as <-.
  - intros Hpos p Hp Hocc body Hbody.
    unfold code_text in Hpos. rewrite <- stripSQLComments_code_scan in Hpos.
    pose proof (NewQuery_named_path o name path query md q Hq Hpos) as ->.
    set (q0 := mkQuery name path query EmptyString ∅ [] [] (default ∅ md)) in *.
    pose proof (handleNamedParams_OrdinalQuery o q0 name query (stripSQLComments query))
      as Hord. cbn zeta in Hord.
    rewrite (body_of_inj _ _ _ _ Hbody Hord).
    destruct (handleNamedParams_numbered o q0 name query (stripSQLComments query))
      as [_ (position & _ & Hnum & _)].
    apply elem_of_distinct, list_elem_of_lookup in Hp as [n Hn].
    apply Hnum in Hn.
    destruct (replaceParams_comment_dollars
                (range o (Mapping (handleNamedParams o q0 name query
                                     (stripSQLComments query))))) with (query := query)
      as [_ Hlt].
    { intros x ord Hin. apply elem_of_range in Hin.
      by eapply handleNamedParams_entries. }
    intros E. rewrite E in Hlt.
    assert (Hex : ∃ x ord,
              (x, ord) ∈ range o (Mapping (handleNamedParams o q0 name query
                                             (stripSQLComments query))) ∧
              occurs x (comment_text query) = true).
    { exists p, (Z.of_nat n + 1). split; [by apply elem_of_range | done]. }
    specialize (Hlt Hex). lia.
Qed.

Lemma comments_without_placeholders_are_kept_witness :
  ∃ (q : Query) (body : string),
    NewQuery descending_keys "q" "test.sql"
      (String "-" ("- note: find by id at 12:30, mail x@ y" +:+ nl +:+
                   "SELECT :id, :'idx' -- TODO: the row of id, see #12: perf"))
      None = Ok q ∧
    Args q = ["id"; "idx"] ∧
    body_of "q" (OrdinalQuery q) body ∧
    comment_text body
    = String "-" ("- note: find by id at 12:30, mail x@ y" +:+ nl +:+
                  "-- TODO: the row of id, see #12: perf").
Proof.
  set (query := String "-" ("- note: find by id at 12:30, mail x@ y" +:+ nl +:+
                            "SELECT :id, :'idx' -- TODO: the row of id, see #12: perf")).
  destruct (NewQuery descending_keys "q" "test.sql" query None) as [q | e |] eqn:Hq;
    [| by vm_compute in Hq | by vm_compute in Hq].
  assert (Hargs : Args q = ["id"; "idx"]).
  { vm_compute in Hq. injection Hq as <-. reflexivity. }
  destruct (comments_without_placeholders_are_kept descending_keys "q" "test.sql" query
              None q Hq) as (_ & Hkept & _ & _).
  destruct Hkept as (body & Hbody & Hcomments).
  { intros p Hp. rewrite Hargs in Hp.
    apply elem_of_cons in Hp as [-> | Hp]; [vm_compute; reflexivity |].
    apply elem_of_cons in Hp as [-> | Hp]; [vm_compute; reflexivity |].
    apply elem_of_nil in Hp. destruct Hp. }
  exists q, body. split_and!; [done | done | done |].
  rewrite Hcomments. vm_compute. reflexivity.
Defined.

(** C2 (as stated, fails).  The placeholder syntax of a detected parameter
    is replaced inside a comment too: the comment of this query reads
    [-- $1] in the ordinal text, not [-- :a]. *)
Lemma placeholder_in_comment_is_rewritten :
  ∃ q : Query,
    NewQuery ascending_keys "q" "test.sql" "SELECT :a -- :a" None = Ok q ∧
    Args q = ["a"] ∧
    body_of "q" (OrdinalQuery q) "SELECT $1 -- $1" ∧
    comment_text "SELECT :a -- :a" = "-- :a" ∧
    comment_text "SELECT $1 -- $1" = "-- $1" ∧
    comment_text "SELECT $1 -- $1" ≠ comment_text "SELECT :a -- :a".
Proof.
  eexists. split; [vm_compute; reflexivity |].
  split_and!; [vm_compute; reflexivity .. |]. vm_compute. discriminate.
Qed.

(** * Further properties of the package *)

(** ** The descriptor a successful analysis returns *)

Lemma distinct_NoDup (l : list string) : NoDup (distinct l).
Proof.
  induction l as [|x l IH]; simpl; [constructor |].
  constructor; [| by apply NoDup_filter].
  rewrite list_elem_of_filter. by intros [H _].
Qed.

Lemma filter_other (x : string) (l : list string) :
  x ∉ l -> filter (fun y => y ≠ x) l = l.
Proof.
  induction l as [|y l IH]; [done |].
  intros [Hxy Hx]%not_elem_of_cons.
  rewrite filter_cons_True by (intros ->; by apply Hxy). f_equal. by apply IH.
Qed.

Lemma distinct_id (l : list string) : NoDup l -> distinct l = l.
Proof.
  induction 1 as [|x l Hx Hl IH]; simpl; [done |].
  by rewrite IH, filter_other.
Qed.

Lemma distinct_length (l : list string) : (length (distinct l) <= length l)%nat.
Proof.
  induction l as [|x l IH]; simpl; [done |].
  pose proof (length_filter (fun y => y ≠ x) (distinct l)). lia.
Qed.

(** The table that binds the [n]-th name of a list (from 0) to [n + 1]. *)
Definition numbering (names : list string) : list (string * Z) :=
  imap (fun n x => (x, Z.of_nat n + 1)) names.

Lemma numbering_fst (names : list string) : (numbering names).*1 = names.
Proof.
  unfold numbering. apply list_eq. intros n.
  rewrite list_lookup_fmap, list_lookup_imap. by destruct (names !! n).
Qed.

Lemma elem_of_numbering (names : list string) (x : string) (ord : Z) :
  (x, ord) ∈ numbering names ↔ ∃ n : nat, names !! n = Some x ∧ ord = Z.of_nat n + 1.
Proof.
  unfold numbering. rewrite list_elem_of_lookup. split.
  - intros [n Hn]. rewrite list_lookup_imap in Hn.
    destruct (names !! n) as [y|] eqn:Hy; [| done].
    injection Hn as <- <-. by exists n.
  - intros (n & Hn & ->). exists n. by rewrite list_lookup_imap, Hn.
Qed.

Lemma numbering_ordinalTable (n : Z) :
  numbering (syntheticName <$> seqZ 1 n) = ordinalTable n.
Proof.
  unfold numbering, ordinalTable. apply list_eq. intros i.
  rewrite list_lookup_imap, !list_lookup_fmap.
  destruct (seqZ 1 n !! i) as [j|] eqn:Hj; [| done]. simpl.
  apply lookup_seqZ in Hj as [-> _]. do 2 f_equal. lia.
Qed.

Lemma highestParam_range (matches : list (list string)) :
  0 <= highestParam matches <= max_int.
Proof.
  unfold highestParam.
  assert (Hgen : forall a, 0 <= a <= max_int ->
            0 <= fold_left
                   (fun maxParam match_ =>
                      let num := Sscanf_d (capture match_) 0 in
                      if maxParam <? num then num else maxParam) matches a <= max_int).
  { induction matches as [|match_ matches IH]; intros a Ha; [done |].
    cbn [fold_left]. apply IH. cbv zeta.
    unfold Sscanf_d.
    destruct (Str.decimal (capture match_) <=? max_int) eqn:Hv.
    - apply Z.leb_le in Hv. destruct (a <? _) eqn:Hlt; [apply Z.ltb_lt in Hlt |]; lia.
    - destruct (a <? 0) eqn:Hlt; [apply Z.ltb_lt in Hlt |]; lia. }
  apply Hgen. unfold max_int. lia.
Qed.

(** What the ordinal path returns, when it returns. *)
Lemma handlePositionalParams_Ok (q0 : Query) (name query cleanQuery : string)
    (matches : list (list string)) (q : Query) :
  handlePositionalParams q0 name query cleanQuery matches = Ok q ->
  let n := highestParam matches in
  n < max_int ∧
  q = mkQuery (Name q0) (Path q0) (Raw q0) (header name query)
        (list_to_map (ordinalTable n)) (syntheticName <$> seqZ 1 n)
        ((fun j => Named (syntheticName j)) <$> seqZ 1 n) (Metadata q0).
Proof.
  intros Hq n. pose proof (highestParam_range matches) as Hn. fold n in Hn.
  destruct (decide (n = max_int)) as [Hmax | Hlt].
  { rewrite handlePositionalParams_max_int in Hq; done. }
  split; [lia |].
  unfold handlePositionalParams in Hq. fold n in Hq.
  rewrite positionalLoop_ends in Hq by lia.
  replace (n - 1 + 1) with n in Hq by lia.
  rewrite positionalState_spec, foldr_insert_table in Hq. simpl in Hq.
  injection Hq as <-. f_equal.
  apply list_to_map_proper.
  - rewrite !fmap_reverse, reverse_Permutation. apply (ordinalTable_NoDup n).
  - unfold ordinalTable. by rewrite fmap_reverse, reverse_Permutation.
Qed.

Lemma syntheticNames_NoDup (n : Z) : NoDup (syntheticName <$> seqZ 1 n).
Proof. apply NoDup_fmap_2; [intros a b; apply syntheticName_inj | apply NoDup_seqZ]. Qed.

(** The two ways to a descriptor. *)
Lemma NewQuery_Ok (o : range_oracle) (name path query : string)
    (md : option (gmap string string)) (q : Query) :
  NewQuery o name path query md = Ok q ->
  let q0 := mkQuery name path query EmptyString ∅ [] [] (default ∅ md) in
  let cleanQuery := stripSQLComments query in
  (FindAllStringSubmatch positionalParamRE cleanQuery ≠ [] ∧
   handlePositionalParams q0 name query cleanQuery
     (FindAllStringSubmatch positionalParamRE cleanQuery) = Ok q) ∨
  (FindAllStringSubmatch positionalParamRE cleanQuery = [] ∧
   q = handleNamedParams o q0 name query cleanQuery).
Proof.
  intros Hq. cbv zeta. unfold NewQuery in Hq.
  destruct (validateSingleParameterStyle _ _ _ _); [done |].
  destruct (FindAllStringSubmatch positionalParamRE (stripSQLComments query))
    as [|match_ matches] eqn:Hpos.
  - right. simpl in Hq. by injection Hq as <-.
  - left. done.
Qed.

(** The binding table of a descriptor numbers the distinct names of its
    occurrence list from 1, in the order of their first appearance. *)
Lemma NewQuery_Mapping (o : range_oracle) (name path query : string)
    (md : option (gmap string string)) (q : Query) :
  NewQuery o name path query md = Ok q ->
  Mapping q = list_to_map (numbering (distinct (Args q))).
Proof.
  intros Hq. apply NewQuery_Ok in Hq as [[_ Hq] | [_ ->]].
  - apply handlePositionalParams_Ok in Hq as [_ ->]. simpl.
    rewrite distinct_id by apply syntheticNames_NoDup.
    by rewrite numbering_ordinalTable.
  - match goal with |- Mapping ?h = _ => set (q := h) end.
    destruct (handleNamedParams_numbered o
                (mkQuery name path query EmptyString ∅ [] [] (default ∅ md))
                name query (stripSQLComments query)) as [_ (position & _ & Hord & Hdom)].
    fold q in Hord, Hdom.
    apply map_eq. intros x.
    destruct (decide (x ∈ distinct (Args q))) as [Hin | Hnin].
    + apply list_elem_of_lookup in Hin as [n Hn].
      rewrite (Hord n x Hn). symmetry.
      apply elem_of_list_to_map_1.
      * rewrite numbering_fst. apply distinct_NoDup.
      * apply elem_of_numbering. by exists n.
    + rewrite (not_elem_of_list_to_map_1 (numbering (distinct (Args q))) x)
        by (by rewrite numbering_fst).
      apply eq_None_not_Some. intros Hx. by apply Hnin, elem_of_distinct, Hdom.
Qed.

Lemma NewQuery_lookup (o : range_oracle) (name path query : string)
    (md : option (gmap string string)) (q : Query) (x : string) (ord : Z) :
  NewQuery o name path query md = Ok q ->
  Mapping q !! x = Some ord ↔
  ∃ n : nat, distinct (Args q) !! n = Some x ∧ ord = Z.of_nat n + 1.
Proof.
  intros Hq. rewrite (NewQuery_Mapping _ _ _ _ _ _ Hq).
  rewrite <- elem_of_list_to_map by (rewrite numbering_fst; apply distinct_NoDup).
  apply elem_of_numbering.
Qed.

(** X1.  The data-model invariant of a descriptor: the binding table is no
    larger than the occurrence list; it binds exactly the names that
    occur; its ordinals are the numbers from 1 to its size, each bound to
    one name only. *)
Theorem binding_table_is_contiguous (o : range_oracle) (name path query : string)
    (md : option (gmap string string)) (q : Query) :
  NewQuery o name path query md = Ok q ->
  (size (Mapping q) <= length (Args q))%nat ∧
  (∀ x : string, is_Some (Mapping q !! x) ↔ x ∈ Args q) ∧
  (∀ i : Z, (∃ x, Mapping q !! x = Some i) ↔ 1 <= i <= Z.of_nat (size (Mapping q))) ∧
  (∀ (x y : string) (i : Z),
     Mapping q !! x = Some i -> Mapping q !! y = Some i -> x = y).
Proof.
  intros Hq.
  assert (Hsize : size (Mapping q) = length (distinct (Args q))).
  { rewrite (NewQuery_Mapping _ _ _ _ _ _ Hq).
    rewrite map_size_list_to_map by (rewrite numbering_fst; apply distinct_NoDup).
    unfold numbering. by rewrite length_imap. }
  split_and!.
  - rewrite Hsize. apply distinct_length.
  - intros x. rewrite <- elem_of_distinct, list_elem_of_lookup. split.
    + intros [ord Hx]. apply (NewQuery_lookup _ _ _ _ _ _ _ _ Hq) in Hx as (n & Hn & _).
      by exists n.
    + intros [n Hn]. exists (Z.of_nat n + 1).
      apply (NewQuery_lookup _ _ _ _ _ _ _ _ Hq). by exists n.
  - intros i. rewrite Hsize. split.
    + intros [x Hx]. apply (NewQuery_lookup _ _ _ _ _ _ _ _ Hq) in Hx as (n & Hn & ->).
      apply lookup_lt_Some in Hn. lia.
    + intros Hi.
      destruct (lookup_lt_is_Some_2 (distinct (Args q)) (Z.to_nat (i - 1))) as [x Hx];
        [lia |].
      exists x. apply (NewQuery_lookup _ _ _ _ _ _ _ _ Hq).
      exists (Z.to_nat (i - 1)). split; [done | lia].
  - intros x y i Hx Hy.
    apply (NewQuery_lookup _ _ _ _ _ _ _ _ Hq) in Hx as (n & Hn & ->).
    apply (NewQuery_lookup _ _ _ _ _ _ _ _ Hq) in Hy as (n' & Hn' & Heq).
    assert (n' = n) as -> by lia. congruence.
Qed.

Lemma binding_table_is_contiguous_witness :
  ∃ q : Query,
    NewQuery descending_keys "q" "test.sql" "a = :a OR b = :b OR c = :a" None = Ok q ∧
    (size (Mapping q) <= length (Args q))%nat ∧
    (∀ i : Z, (∃ x, Mapping q !! x = Some i) ↔ 1 <= i <= Z.of_nat (size (Mapping q))).
Proof.
  eexists. split; [vm_compute; reflexivity |].
  destruct (binding_table_is_contiguous descending_keys "q" "test.sql"
              "a = :a OR b = :b OR c = :a" None _ eq_refl) as (H1 & _ & H3 & _).
  split; [exact H1 | exact H3].
Defined.

(** ** The named arguments *)

Lemma namedStep_namedArgs (mapping : gmap string Z) (namedArgs : list NamedArg)
    (args : list string) (position : Z) (match_ : list string) :
  numbered mapping args position ->
  namedArgs = Named <$> distinct args ->
  match namedStep (mapping, namedArgs, args, position) match_ with
  | (_, namedArgs', args', _) => namedArgs' = Named <$> distinct args'
  end.
Proof.
  intros (_ & Hord & Hdom) Hnamed. unfold namedStep.
  destruct (length match_ <? 2)%nat; [done |].
  destruct (isReservedName (capture match_)); [done |].
  set (x := capture match_).
  destruct (mapping !! x) as [i|] eqn:Hx.
  - rewrite distinct_snoc, decide_True; [done |]. apply Hdom. by exists i.
  - rewrite distinct_snoc, decide_False, fmap_app, Hnamed; [done |].
    intros Hin. apply elem_of_distinct, list_elem_of_lookup in Hin as [n Hn].
    apply Hord in Hn. congruence.
Qed.

Lemma namedLoop_namedArgs (matches : list (list string)) :
  forall (mapping : gmap string Z) (namedArgs : list NamedArg)
         (args : list string) (position : Z),
    numbered mapping args position ->
    namedArgs = Named <$> distinct args ->
    match fold_left namedStep matches (mapping, namedArgs, args, position) with
    | (_, namedArgs', args', _) => namedArgs' = Named <$> distinct args'
    end.
Proof.
  induction matches as [|match_ matches IH];
    intros mapping namedArgs args position Hn Hnamed; [done |].
  cbn [fold_left].
  pose proof (namedStep_numbered mapping namedArgs args position match_ Hn) as Hstep.
  pose proof (namedStep_namedArgs mapping namedArgs args position match_ Hn Hnamed)
    as Hstep'.
  destruct (namedStep _ match_) as [[[mapping1 namedArgs1] args1] position1].
  destruct Hstep as [_ Hn1]. by apply IH.
Qed.

Lemma handleNamedParams_NamedArgs (o : range_oracle) (q0 : Query)
    (name query cleanQuery : string) :
  let q := handleNamedParams o q0 name query cleanQuery in
  NamedArgs q = Named <$> distinct (Args q).
Proof.
  unfold handleNamedParams.
  pose proof (namedLoop_namedArgs
                (FindAllStringSubmatch colonParamRE cleanQuery ++
                 FindAllStringSubmatch atSignParamRE cleanQuery) ∅ [] [] 1) as H.
  destruct (fold_left namedStep _ _) as [[[mapping namedArgs] args] position].
  simpl. apply H; [| done].
  split_and!; [done | |].
  - intros n x Hn. by destruct n.
  - intros x Hx. rewrite lookup_empty in Hx. by apply is_Some_None in Hx.
Qed.

(** X2.  The named arguments of a descriptor name every parameter once, in
    the order of first appearance in the occurrence list. *)
Theorem NamedArgs_are_the_distinct_names (o : range_oracle) (name path query : string)
    (md : option (gmap string string)) (q : Query) :
  NewQuery o name path query md = Ok q ->
  NamedArgs q = Named <$> distinct (Args q).
Proof.
  intros Hq. apply NewQuery_Ok in Hq as [[_ Hq] | [_ ->]].
  - apply handlePositionalParams_Ok in Hq as [_ ->]. simpl.
    rewrite distinct_id by apply syntheticNames_NoDup.
    by rewrite <- list_fmap_compose.
  - apply handleNamedParams_NamedArgs.
Qed.

Lemma NamedArgs_are_the_distinct_names_witness :
  ∃ q : Query,
    NewQuery ascending_keys "q" "test.sql" "a = @a OR b = @b OR c = @a" None = Ok q ∧
    NamedArgs q = Named <$> distinct (Args q) ∧
    NamedArgs q = [Named "a"; Named "b"].
Proof.
  eexists. split; [vm_compute; reflexivity |]. split.
  - by apply (NamedArgs_are_the_distinct_names ascending_keys "q" "test.sql"
               "a = @a OR b = @b OR c = @a" None).
  - vm_compute. reflexivity.
Defined.

(** ** Binding the arguments of an analysed query *)

Lemma numbering_sorted (names : list string) : StronglySorted ord_le (numbering names).
Proof.
  unfold numbering.
  assert (Hgen : forall k : nat,
            StronglySorted ord_le (imap (fun n x => (x, Z.of_nat (k + n) + 1)) names)).
  { induction names as [|x names IH]; intros k; simpl; [constructor |].
    constructor.
    - rewrite (imap_ext _ (fun n y => (y, Z.of_nat (S k + n) + 1)))
        by (intros; simpl; do 2 f_equal; lia).
      apply IH.
    - apply Forall_forall. intros [y ord] Hy.
      apply list_elem_of_lookup in Hy as [n Hn]. rewrite list_lookup_imap in Hn.
      destruct (names !! n); [| done]. injection Hn as <- <-.
      unfold ord_le. simpl. lia. }
  apply (Hgen 0%nat).
Qed.

Lemma sortByOrd_numbering (o : range_oracle) (names : list string) :
  NoDup names ->
  sortByOrd (range o (list_to_map (numbering names))) = numbering names.
Proof.
  intros Hnd.
  assert (Hperm : sortByOrd (range o (list_to_map (numbering names)))
                  ≡ₚ numbering names).
  { unfold sortByOrd, range. rewrite merge_sort_Permutation, range_list_perm.
    apply map_to_list_to_map. by rewrite numbering_fst. }
  apply (StronglySorted_unique_strong ord_le); [| | apply numbering_sorted | done].
  - intros [x i] [y j] Hx Hy Hij Hji. rewrite Hperm in Hx.
    apply elem_of_numbering in Hx as (n & Hn & ->).
    apply elem_of_numbering in Hy as (n' & Hn' & ->).
    unfold ord_le in *. simpl in *. assert (n' = n) as -> by lia. congruence.
  - apply StronglySorted_merge_sort; apply _.
Qed.

(** X3.  For a descriptor that the analysis returned, [Prepare] yields the
    values of the distinct parameter names in the order of their first
    appearance ([nil] for a name without a value), whatever the order
    in which the binding table is iterated. *)
Theorem Prepare_follows_first_appearance {V : Type} (o o' : range_oracle)
    (name path query : string) (md : option (gmap string string)) (q : Query)
    (args : gmap string (any V)) :
  NewQuery o name path query md = Ok q ->
  Prepare o' q args = index_any args <$> distinct (Args q).
Proof.
  intros Hq. rewrite Prepare_eq, (NewQuery_Mapping _ _ _ _ _ _ Hq).
  rewrite sortByOrd_numbering by apply distinct_NoDup.
  rewrite <- (numbering_fst (distinct (Args q))) at 2.
  by rewrite <- list_fmap_compose.
Qed.

Lemma Prepare_follows_first_appearance_witness :
  ∃ q : Query,
    NewQuery ascending_keys "q" "test.sql" "x = :x OR y = :y OR z = :x" None = Ok q ∧
    Prepare descending_keys q ({[ "y" := box 7%nat ]} : gmap string (any nat))
    = [nil_any; box 7%nat].
Proof.
  eexists. split; [vm_compute; reflexivity |].
  rewrite (Prepare_follows_first_appearance ascending_keys descending_keys
             "q" "test.sql" "x = :x OR y = :y OR z = :x" None _ _ eq_refl).
  vm_compute. reflexivity.
Defined.

(** ** Reserved names *)

Lemma syntheticName_not_reserved (j : Z) : isReservedName (syntheticName j) = false.
Proof. reflexivity. Qed.

(** X4.  A reserved name is never a parameter: it is in no occurrence list
    and in no binding table that the analysis returns. *)
Theorem reserved_names_are_never_parameters (o : range_oracle)
    (name path query : string) (md : option (gmap string string)) (q : Query)
    (x : string) :
  NewQuery o name path query md = Ok q ->
  isReservedName x = true ->
  (x ∉ Args q) ∧ Mapping q !! x = None.
Proof.
  intros Hq Hx.
  assert (Hargs : x ∉ Args q).
  { intros Hin. pose proof Hq as Hq'.
    apply NewQuery_Ok in Hq' as [[_ Hq'] | [_ ->]].
    - apply handlePositionalParams_Ok in Hq' as [_ ->]. simpl in Hin.
      apply list_elem_of_fmap in Hin as (j & -> & _).
      by rewrite syntheticName_not_reserved in Hx.
    - destruct (handleNamedParams_numbered o
                  (mkQuery name path query EmptyString ∅ [] [] (default ∅ md))
                  name query (stripSQLComments query)) as [Hocc _].
      rewrite Hocc in Hin. unfold occurrences, filterReservedNames in Hin.
      apply list_elem_of_fmap in Hin as (match_ & -> & Hin).
      apply list_elem_of_In, filter_In in Hin as [_ Hin].
      apply andb_true_iff in Hin as [_ Hin]. by rewrite Hx in Hin. }
  split; [done |].
  apply eq_None_not_Some. intros [ord Hord].
  apply (NewQuery_lookup _ _ _ _ _ _ _ _ Hq) in Hord as (n & Hn & _).
  by apply Hargs, elem_of_distinct, (list_elem_of_lookup_2 _ n).
Qed.

Lemma reserved_names_are_never_parameters_witness :
  ∃ q : Query,
    NewQuery ascending_keys "q" "test.sql"
      "SELECT to_char(t, 'HH24:MI') WHERE id = :id AND s = :SS" None = Ok q ∧
    Args q = ["id"] ∧ ("SS" ∉ Args q) ∧ Mapping q !! "SS" = None.
Proof.
  eexists. split; [vm_compute; reflexivity |]. split; [vm_compute; reflexivity |].
  apply (reserved_names_are_never_parameters ascending_keys "q" "test.sql"
           "SELECT to_char(t, 'HH24:MI') WHERE id = :id AND s = :SS" None).
  - vm_compute. reflexivity.
  - vm_compute. reflexivity.
Defined.

(** ** Blocks without placeholders *)

Lemma range_empty {V : Type} (o : range_oracle) : range o (∅ : gmap string V) = [].
Proof.
  unfold range. rewrite map_to_list_empty.
  apply Permutation_nil_r. by rewrite range_list_perm.
Qed.

Lemma style_if_nil (matches : list (list string)) (label : string) :
  style_if matches label = [] -> matches = [].
Proof. by destruct matches. Qed.

(** X5.  A block in which no convention has a match (reserved names
    aside) is analysed without error: its occurrence list, binding table
    and named arguments are empty, and its ordinal text is the header line
    followed by the raw text, unchanged. *)
Theorem block_without_placeholders_is_untouched (o : range_oracle)
    (name path query : string) (md : option (gmap string string)) :
  stylesFound query = [] ->
  ∃ q : Query,
    NewQuery o name path query md = Ok q ∧
    Args q = [] ∧ Mapping q = ∅ ∧ NamedArgs q = [] ∧
    OrdinalQuery q = header name query ∧ Raw q = query.
Proof.
  intros Hstyles.
  assert (Hq : ∃ q, NewQuery o name path query md = Ok q).
  { unfold NewQuery. rewrite validateSingleParameterStyle_spec.
    fold (stylesFound query). rewrite Hstyles. simpl.
    destruct (0 <? _)%nat; [| by eexists].
    unfold stylesFound in Hstyles.
    apply app_eq_nil in Hstyles as [Hpos _]. apply style_if_nil in Hpos.
    unfold handlePositionalParams. rewrite Hpos. simpl. by eexists. }
  destruct Hq as [q Hq]. exists q. split; [done |].
  unfold stylesFound in Hstyles.
  apply app_eq_nil in Hstyles as [Hpos Hstyles].
  apply app_eq_nil in Hstyles as [Hcolon Hat].
  apply style_if_nil in Hpos, Hcolon, Hat.
  pose proof (NewQuery_Mapping _ _ _ _ _ _ Hq) as Hmap.
  pose proof Hq as Hq'.
  apply NewQuery_Ok in Hq' as [[Hne _] | [_ Hq']]; [done |].
  assert (Hnamed : NamedArgs q = Named <$> distinct (Args q))
    by (rewrite Hq'; apply handleNamedParams_NamedArgs).
  assert (Hargs : Args q = []).
  { rewrite Hq'.
    destruct (handleNamedParams_numbered o
                (mkQuery name path query EmptyString ∅ [] [] (default ∅ md))
                name query (stripSQLComments query)) as [Hocc _].
    rewrite Hocc. unfold occurrences, filterReservedNames in *.
    by rewrite List.filter_app, Hcolon, Hat. }
  rewrite Hargs in Hmap, Hnamed. simpl in Hmap, Hnamed.
  split_and!; [done | done | done | |].
  - rewrite Hq', handleNamedParams_OrdinalQuery. rewrite <- Hq', Hmap.
    by rewrite range_empty.
  - rewrite Hq'. unfold handleNamedParams.
    by destruct (fold_left namedStep _ _) as [[[mapping namedArgs] args] position].
Qed.

Lemma block_without_placeholders_is_untouched_witness :
  ∃ q : Query,
    NewQuery ascending_keys "q" "test.sql"
      "SELECT to_char(t, 'HH24:MI:SS') FROM s -- by :id" None = Ok q ∧
    Args q = [] ∧ Mapping q = ∅ ∧ NamedArgs q = [] ∧
    OrdinalQuery q = header "q" "SELECT to_char(t, 'HH24:MI:SS') FROM s -- by :id" ∧
    Raw q = "SELECT to_char(t, 'HH24:MI:SS') FROM s -- by :id".
Proof.
  apply (block_without_placeholders_is_untouched ascending_keys "q" "test.sql"
           "SELECT to_char(t, 'HH24:MI:SS') FROM s -- by :id" None).
  vm_compute. reflexivity.
Defined.

(** ** The comment stripper, byte by byte *)

Lemma Index_ge (s sub : string) : -1 <= Str.Index s sub.
Proof.
  induction s as [|c s IH]; cbn [Str.Index].
  - destruct (Str.HasPrefix _ _); lia.
  - destruct (Str.HasPrefix _ _); [lia |].
    destruct (_ <? 0) eqn:H; [lia | apply Z.ltb_ge in H; lia].
Qed.

Lemma Index_cons_none (c : ascii) (s sub : string) :
  Str.Index (String c s) sub = -1 ↔
  Str.HasPrefix (String c s) sub = false ∧ Str.Index s sub = -1.
Proof.
  cbn [Str.Index]. pose proof (Index_ge s sub) as Hge.
  destruct (Str.HasPrefix (String c s) sub); [split; [lia | by intros [? _]] |].
  destruct (_ <? 0) eqn:Hneg; [apply Z.ltb_lt in Hneg | apply Z.ltb_ge in Hneg].
  - split; [intros _; split; [done | lia] | done].
  - split; [lia | intros [_ ?]; lia].
Qed.

Lemma code_scan_true_head (s : string) : Str.HasPrefix (code_scan true s) "-" = false.
Proof.
  induction s as [|c s IH]; [done |]. rewrite code_scan_cons.
  destruct (Ascii.eqb c Str.newline) eqn:Hc; [| done].
  apply Ascii.eqb_eq in Hc as ->. reflexivity.
Qed.

Lemma code_scan_false_head (s : string) :
  Str.HasPrefix (code_scan false s) "-" = true -> Str.HasPrefix s "-" = true.
Proof.
  destruct s as [|c s]; [done |]. rewrite code_scan_cons.
  destruct (Ascii.eqb c Str.newline) eqn:Hc.
  { apply Ascii.eqb_eq in Hc as ->. done. }
  destruct (Ascii.eqb "-" c && Str.HasPrefix s "-") eqn:Hp; [| done].
  apply andb_true_iff in Hp as [Hp _]. intros _. cbn [Str.HasPrefix]. by rewrite Hp.
Qed.

Lemma code_scan_no_marker (s : string) (in_comment : bool) :
  Str.Index (code_scan in_comment s) "--" = -1.
Proof.
  revert in_comment. induction s as [|c s IH]; intros in_comment; [done |].
  rewrite code_scan_cons.
  destruct (Ascii.eqb c Str.newline) eqn:Hc.
  { apply Index_cons_none. split; [| apply IH].
    apply Ascii.eqb_eq in Hc as ->. reflexivity. }
  destruct in_comment; [apply IH |].
  destruct (Ascii.eqb "-" c && Str.HasPrefix s "-") eqn:Hp; [apply IH |].
  apply Index_cons_none. split; [| apply IH].
  rewrite HasPrefix_dash.
  destruct (Ascii.eqb "-" c) eqn:Hd; [| done]. cbn [andb] in *.
  destruct (Str.HasPrefix (code_scan false s) "-") eqn:Hh; [| done].
  apply code_scan_false_head in Hh. congruence.
Qed.

Lemma code_scan_unmarked (s : string) :
  Str.Index s "--" = -1 -> code_scan false s = s.
Proof.
  induction s as [|c s IH]; [done |].
  intros [Hp Hs]%Index_cons_none. rewrite code_scan_cons.
  rewrite HasPrefix_dash in Hp. rewrite Hp, IH by done.
  by destruct (Ascii.eqb c Str.newline).
Qed.

(** X6.  The stripped text holds no comment marker; a text without a
    comment marker is left as it is; so stripping twice is stripping
    once. *)
Theorem stripSQLComments_removes_every_marker (query : string) :
  Str.Index (stripSQLComments query) "--" = -1 ∧
  (Str.Index query "--" = -1 -> stripSQLComments query = query) ∧
  stripSQLComments (stripSQLComments query) = stripSQLComments query.
Proof.
  rewrite !stripSQLComments_code_scan.
  pose proof (code_scan_no_marker query false) as Hnone.
  split_and!; [done | apply code_scan_unmarked | by apply code_scan_unmarked].
Qed.

Lemma stripSQLComments_removes_every_marker_witness :
  stripSQLComments "SELECT a - b FROM t WHERE c = '-'" = "SELECT a - b FROM t WHERE c = '-'".
Proof.
  refine (proj1 (proj2 (stripSQLComments_removes_every_marker
                          "SELECT a - b FROM t WHERE c = '-'")) _).
  vm_compute. reflexivity.
Defined.

(** *** Lines *)





(** Splitting a text and joining its lines gives the text back. *)
Lemma Join_Split (s : string) : Str.Join (Str.Split s Str.newline) nl = s.
Proof.
  induction s as [|c s IH]; [done |].
  rewrite Split_cons. destruct (Ascii.eqb c Str.newline) eqn:Hc.
  - apply Ascii.eqb_eq in Hc as ->.
    destruct (Str.Split s Str.newline) as [|h t] eqn:Hs; [by apply Split_nonempty in Hs |].
    rewrite Join_cons_cons, IH. done.
  - destruct (Str.Split s Str.newline) as [|h t] eqn:Hs; [by apply Split_nonempty in Hs |].
    by rewrite Join_head_byte, IH.
Qed.


Lemma ContainsByte_append (a b : string) (x : ascii) :
  Str.ContainsByte (a +:+ b) x = Str.ContainsByte a x || Str.ContainsByte b x.
Proof.
  induction a as [|c a IH]; [done |].
  rewrite append_cons. cbn [Str.ContainsByte]. by rewrite IH, orb_assoc.
Qed.





(** ** Loading into the store *)

(** X8.  Whatever comes of a load (success, an error, or no return), every
    descriptor the store held before is still there, unchanged. *)
Theorem load_keeps_what_the_store_held (o : range_oracle) (s : QueryStore)
    (fileName : string) (r : list string) (n : string) (q : Query) :
  store_queries s !! n = Some q ->
  store_queries (loadQueriesFromFile o s fileName r).1 !! n = Some q.
Proof. intros Hn. unfold loadQueriesFromFile. by apply loadLoop_keeps. Qed.

Lemma load_keeps_what_the_store_held_witness :
  let s1 :=
    (loadQueriesFromFile ascending_keys NewQueryStore "first.sql"
       ["-- name: one"; "SELECT 1"]).1 in
  ∃ q, store_queries s1 !! "one" = Some q ∧
       store_queries
         (loadQueriesFromFile descending_keys s1 "second.sql"
            ["-- name: two"; "SELECT 2"; "-- name: bad"; "SELECT $1, :x"]).1 !! "one"
       = Some q.
Proof.
  intros s1.
  assert (Hq : ∃ q, store_queries s1 !! "one" = Some q).
  { eexists. vm_compute. reflexivity. }
  destruct Hq as [q Hq]. exists q. split; [exact Hq |].
  exact (load_keeps_what_the_store_held descending_keys s1 "second.sql" _ "one" q Hq).
Defined.

Lemma loadLoop_Ok (o : range_oracle) (fileName : string) :
  forall (blocks : list (string * ScannedQuery)) (s : QueryStore),
    NoDup blocks.*1 ->
    (loadLoop o s fileName blocks).2 = Ok tt ->
    (∀ name sq, (name, sq) ∈ blocks ->
       store_queries s !! name = None ∧
       ∃ q, NewQuery o name fileName (sq_Query sq) (Some (sq_Metadata sq)) = Ok q ∧
            store_queries (loadLoop o s fileName blocks).1 !! name = Some q) ∧
    (∀ name, name ∉ blocks.*1 ->
       store_queries (loadLoop o s fileName blocks).1 !! name = store_queries s !! name).
Proof.
  induction blocks as [|[b sqb] blocks IH]; intros s Hnd Hok.
  { split; [intros name sq Hin; by apply elem_of_nil in Hin | done]. }
  apply NoDup_cons in Hnd as [Hb Hnd]. simpl in Hb.
  cbn [loadLoop] in *.
  destruct (store_queries s !! b) eqn:Hsb; [done |].
  destruct (NewQuery o b fileName (sq_Query sqb) (Some (sq_Metadata sqb)))
    as [qb | e |] eqn:Hqb; [| done | done].
  destruct (IH (mkQueryStore (<[b := qb]> (store_queries s))) Hnd Hok) as [IHin IHout].
  split.
  - intros name sq [[= -> ->] | Hin]%elem_of_cons.
    + split; [done |]. exists qb. split; [done |].
      rewrite IHout by done. simpl. apply lookup_insert_eq.
    + destruct (IHin name sq Hin) as [Hnone Hsome].
      assert (name ≠ b).
      { intros ->. apply Hb, list_elem_of_fmap. by exists (b, sq). }
      simpl in Hnone. rewrite lookup_insert_ne in Hnone by done. by split.
  - intros name [Hne Hout]%not_elem_of_cons.
    rewrite IHout by done. simpl. by rewrite lookup_insert_ne.
Qed.

(** X9.  After a load that succeeds, every block of the source is in the
    store under its name, as the descriptor its analysis returns, and a
    lookup finds it; none of these names was in the store before; and the
    entries under all other names are as they were. *)
Theorem successful_load_registers_every_block (o : range_oracle) (s : QueryStore)
    (fileName : string) (r : list string) :
  (loadQueriesFromFile o s fileName r).2 = Ok tt ->
  let s' := (loadQueriesFromFile o s fileName r).1 in
  (∀ name sq,
     Run newScanner fileName r !! name = Some sq ->
     store_queries s !! name = None ∧
     ∃ q, NewQuery o name fileName (sq_Query sq) (Some (sq_Metadata sq)) = Ok q ∧
          QueryStore_Query s' name = inl q ∧
          Name q = name ∧ Path q = fileName ∧ Raw q = sq_Query sq ∧
          Metadata q = sq_Metadata sq) ∧
  (∀ name,
     Run newScanner fileName r !! name = None ->
     QueryStore_Query s' name = QueryStore_Query s name).
Proof.
  intros Hok s'. subst s'. unfold loadQueriesFromFile in *.
  destruct (loadLoop_Ok o fileName _ s (range_fst_NoDup o _) Hok) as [Hin Hout].
  split.
  - intros name sq Hname. apply elem_of_range with (o := o) in Hname.
    destruct (Hin name sq Hname) as [Hnone (q & Hq & Hstore)].
    split; [done |]. exists q. unfold QueryStore_Query. rewrite Hstore.
    split_and!; [done | done | | | |].
    all: pose proof Hq as Hq'; apply NewQuery_Ok in Hq' as [[_ Hq'] | [_ ->]].
    all: try (apply handlePositionalParams_Ok in Hq' as [_ ->]; done).
    all: unfold handleNamedParams;
      by destruct (fold_left namedStep _ _) as [[[mapping namedArgs] args] position].
  - intros name Hname. unfold QueryStore_Query. rewrite Hout; [done |].
    intros ([name' sq] & -> & Hin')%list_elem_of_fmap.
    apply elem_of_range in Hin'. simpl in Hname. congruence.
Qed.

Lemma successful_load_registers_every_block_witness :
  let r := ["-- name: get"; "-- cost: 1"; "SELECT :id"; "-- name: all"; "SELECT *"] in
  ∃ q, QueryStore_Query (loadQueriesFromFile ascending_keys NewQueryStore "u.sql" r).1 "get"
       = inl q ∧
       Raw q = "SELECT :id" ∧ Metadata q = {[ "cost" := "1" ]}.
Proof.
  intros r.
  assert (Hok : (loadQueriesFromFile ascending_keys NewQueryStore "u.sql" r).2 = Ok tt)
    by (vm_compute; reflexivity).
  destruct (successful_load_registers_every_block ascending_keys NewQueryStore "u.sql" r Hok)
    as [Hin _].
  destruct (Hin "get" (mkScannedQuery "SELECT :id" {[ "cost" := "1" ]}))
    as [_ (q & _ & Hlookup & _ & _ & Hraw & Hmd)]; [vm_compute; reflexivity |].
  exists q. split; [exact Hlookup | split; [exact Hraw | exact Hmd]].
Defined.

(** ** Enumerating the store *)

Lemma collect_names {V : Type} (l : list (string * V)) (acc : list string) :
  fold_left (fun names entry => names ++ [entry.1]) l acc = acc ++ l.*1.
Proof.
  revert acc. induction l as [|x l IH]; intros acc; simpl.
  - by rewrite app_nil_r.
  - by rewrite IH, <- app_assoc.
Qed.

Lemma QueryNames_Permutation (o : range_oracle) (s : QueryStore) :
  QueryNames o s ≡ₚ (map_to_list (store_queries s)).*1.
Proof.
  unfold QueryNames, sortStrings, range. cbv zeta.
  by rewrite collect_names, merge_sort_Permutation, range_list_perm.
Qed.

(** X10.  [QueryNames] lists exactly the names in the store, each once, in
    ascending order; the list does not depend on the order in which the
    store is iterated. *)
Theorem QueryNames_sorted_and_complete (o o' : range_oracle) (s : QueryStore) :
  StronglySorted String.le (QueryNames o s) ∧
  NoDup (QueryNames o s) ∧
  (∀ name, name ∈ QueryNames o s ↔ is_Some (store_queries s !! name)) ∧
  QueryNames o s = QueryNames o' s.
Proof.
  assert (Hsorted : forall o1, StronglySorted String.le (QueryNames o1 s)).
  { intros o1. apply StronglySorted_merge_sort; apply _. }
  split_and!.
  - apply Hsorted.
  - rewrite QueryNames_Permutation. apply NoDup_fst_map_to_list.
  - intros name. rewrite QueryNames_Permutation, list_elem_of_fmap. split.
    + intros ([name' q] & -> & Hin). apply elem_of_map_to_list in Hin. by exists q.
    + intros [q Hq]. exists (name, q). split; [done | by apply elem_of_map_to_list].
  - apply (StronglySorted_unique String.le); [apply Hsorted | apply Hsorted |].
    by rewrite !QueryNames_Permutation.
Qed.

(** X11.  [Queries] hands out a map with exactly the entries of the store,
    whatever the order of the iteration that fills it. *)
Theorem Queries_copies_the_store (o : range_oracle) (s : QueryStore) :
  Queries o s = store_queries s.
Proof.
  unfold Queries.
  assert (Hgen : forall (l : list (string * Query)) (acc : gmap string Query),
            fold_left (fun queriesCopy entry => <[entry.1 := entry.2]> queriesCopy) l acc
            = list_to_map (reverse l) ∪ acc).
  { induction l as [|[k v] l IH]; intros acc; simpl.
    - by rewrite (left_id_L ∅ (∪)).
    - rewrite IH, reverse_cons, list_to_map_app. simpl.
      rewrite insert_empty, <- (assoc_L (∪)). f_equal.
      by rewrite <- insert_union_singleton_l. }
  rewrite Hgen, (right_id_L ∅ (∪)).
  rewrite <- (list_to_map_to_list (store_queries s)) at 2.
  apply list_to_map_proper.
  - rewrite fmap_reverse, reverse_Permutation. apply range_fst_NoDup.
  - unfold range. by rewrite reverse_Permutation, range_list_perm.
Qed.

(** ** The scanner before the first directive *)

(** A line the initial state passes over: no name directive, and blank or
    a comment once trimmed. *)
Definition skipped (text : string) : Prop :=
  getTag text = EmptyString ∧
  (Str.TrimSpace text = EmptyString ∨ Str.HasPrefix (Str.TrimSpace text) "--" = true).

Lemma scanLines_line (lines : list string) (l1 l2 : string)
    (qs : gmap string ScannedQuery) (cur : string)
    (md : gmap string (gmap string string)) (state : stateFn) :
  queries (scanLines (mkScanner l1 qs cur md) state lines)
  = queries (scanLines (mkScanner l2 qs cur md) state lines).
Proof. by destruct lines. Qed.

Lemma initialState_skips (s : Scanner) :
  skipped (line s) -> initialState s = (s, InitialState).
Proof.
  intros [Htag Htrim]. unfold initialState. rewrite Htag.
  change (0 <? Str.len EmptyString)%nat with false. cbv iota.
  destruct Htrim as [-> | ->]; [done | by rewrite orb_true_r].
Qed.

Lemma scanLines_preamble (pre rest : list string) :
  Forall skipped pre ->
  forall s : Scanner,
    queries (scanLines s InitialState (pre ++ rest))
    = queries (scanLines s InitialState rest).
Proof.
  induction 1 as [|text pre Htext _ IH]; intros s; [done |].
  cbn [app scanLines call].
  rewrite initialState_skips by done.
  rewrite IH. destruct s as [l qs cur md]. apply scanLines_line.
Qed.

(** X13.  Blank lines and comment lines in front of the first name
    directive or content line are dropped, metadata-looking comments
    included: the result is that of the stream without them.  A stream of
    such lines only yields no block. *)
Theorem preamble_is_dropped (s : Scanner) (fileName : string) (pre rest : list string) :
  Forall skipped pre ->
  Run s fileName (pre ++ rest) = Run s fileName rest ∧
  Run s fileName pre = ∅.
Proof.
  intros Hpre. unfold Run. split.
  - by apply scanLines_preamble.
  - rewrite <- (app_nil_r pre). by rewrite scanLines_preamble.
Qed.

Lemma preamble_is_dropped_witness :
  Run newScanner "q.sql" (["-- first comment"; "   "; "-- author: me"] ++ ["SELECT 1"])
  = Run newScanner "q.sql" ["SELECT 1"].
Proof.
  refine (proj1 (preamble_is_dropped newScanner "q.sql"
                   ["-- first comment"; "   "; "-- author: me"] ["SELECT 1"] _)).
  apply Forall_cons; split; [split; [reflexivity | right; reflexivity] |].
  apply Forall_cons; split; [split; [reflexivity | left; reflexivity] |].
  apply Forall_cons; split; [split; [reflexivity | right; reflexivity] |].
  apply Forall_nil_2.
Defined.

(** ** Lines that are no directives *)

Lemma search_sound (re : Regexp) (m : found) :
  forall (s : string) (pos : nat),
    search re pos s = Some m ->
    ∃ n : nat, match_at re (pos + n) (Str.drop n s) = Some m.
Proof.
  induction s as [|b s IH]; intros pos H; simpl in H.
  - destruct (match_at re pos EmptyString) eqn:H0; [| done].
    exists 0%nat. rewrite Nat.add_0_r. simpl. congruence.
  - destruct (match_at re pos (String b s)) eqn:H0.
    + exists 0%nat. rewrite Nat.add_0_r. simpl. congruence.
    + apply IH in H as [n Hn]. exists (S n).
      by replace (pos + S n)%nat with (S pos + n)%nat by lia.
Qed.

Lemma drop_ContainsByte (n : nat) (s r : string) (x : ascii) :
  Str.drop n s = String x r -> Str.ContainsByte s x = true.
Proof.
  revert s. induction n as [|n IH]; intros s H.
  - replace (Str.drop 0 s) with s in H by (by destruct s). subst s.
    cbn [Str.ContainsByte]. by rewrite Ascii.eqb_refl.
  - destruct s as [|c s]; [done |]. cbn [Str.ContainsByte].
    simpl in H. by rewrite (IH s H), orb_true_r.
Qed.

Lemma eat_head (a : ascii) (lit : string) (c c' : cursor) :
  eat (String a lit) c = Some c' -> ∃ r : string, c_rest c = String a r.
Proof.
  intros H. cbn [eat] in H.
  destruct (c_rest c) as [|b r]; [done |].
  destruct (Ascii.eqb a b) eqn:Hab; [| done].
  apply Ascii.eqb_eq in Hab as <-. by exists r.
Qed.

(** Both directive patterns begin alike: white space, then the marker. *)
Lemma directive_needs_dash (rest : regex) (groups pos : nat) (s : string) (m : found) :
  match_at (MustCompile (Cat Bol (Cat (Star (Cls re_space)) (Cat (Lit "--") rest))) groups)
    pos s = Some m ->
  Str.ContainsByte s "-" = true.
Proof.
  unfold match_at.
  destruct (run _ _ _) as [res|] eqn:Hrun; [| done]. intros _.
  unfold re_expr, re_groups in Hrun. rewrite run_Cat in Hrun.
  apply run_sound in Hrun as (c0 & Hrun & (n0 & _ & Hr0) & _).
  rewrite run_Cat in Hrun.
  apply run_sound in Hrun as (c1 & Hrun & (n1 & _ & Hr1) & _).
  rewrite run_Cat in Hrun.
  change (run (Lit "--") ?k c1) with (eat "--" c1 ≫= k) in Hrun.
  destruct (eat "--" c1) as [c2|] eqn:Heat; [| done].
  apply eat_head in Heat as [r Hc1].
  rewrite Hr0 in Hr1. simpl in Hr1. rewrite drop_drop in Hr1.
  rewrite Hc1 in Hr1. symmetry in Hr1. by eapply drop_ContainsByte.
Qed.

(** X14.  A line without a dash is no directive: it is neither a name
    directive nor a metadata line, and in the query state it is taken as
    content. *)
Theorem line_without_dash_is_content (s : Scanner) :
  Str.ContainsByte (line s) "-" = false ->
  getTag (line s) = EmptyString ∧
  getMetadata (line s) = None ∧
  queryState s = (appendQueryLine s, QueryState).
Proof.
  intros Hdash.
  assert (Htag : FindStringSubmatch tagRE (line s) = None).
  { unfold FindStringSubmatch.
    destruct (search tagRE 0 (line s)) as [m|] eqn:Hm; [| done].
    apply search_sound in Hm as [n Hn].
    apply directive_needs_dash in Hn.
    destruct (Str.drop n (line s)) as [|x r] eqn:Hd; [done |].
    assert (Hin : Str.ContainsByte (line s) "-" = true); [| congruence].
    rewrite <- (take_drop n (line s)), ContainsByte_append, Hd, Hn.
    apply orb_true_r. }
  assert (Hmeta : FindStringSubmatch metadataRE (line s) = None).
  { unfold FindStringSubmatch.
    destruct (search metadataRE 0 (line s)) as [m|] eqn:Hm; [| done].
    apply search_sound in Hm as [n Hn].
    apply directive_needs_dash in Hn.
    destruct (Str.drop n (line s)) as [|x r] eqn:Hd; [done |].
    assert (Hin : Str.ContainsByte (line s) "-" = true); [| congruence].
    rewrite <- (take_drop n (line s)), ContainsByte_append, Hd, Hn.
    apply orb_true_r. }
  assert (Hgt : getTag (line s) = EmptyString) by (unfold getTag; by rewrite Htag).
  assert (Hgm : getMetadata (line s) = None) by (unfold getMetadata; by rewrite Hmeta).
  split_and!; [done | done |].
  unfold queryState. by rewrite Hgt, Hgm.
Qed.

Lemma line_without_dash_is_content_witness :
  queryState (mkScanner "  WHERE id = :id  " ∅ "q" ∅)
  = (appendQueryLine (mkScanner "  WHERE id = :id  " ∅ "q" ∅), QueryState).
Proof.
  apply (line_without_dash_is_content (mkScanner "  WHERE id = :id  " ∅ "q" ∅)).
  vm_compute. reflexivity.
Defined.

(** ** Name directives *)

(** The text does not go on with a byte of the class. *)
Definition stops (p : ascii -> bool) (rest : string) : bool :=
  match rest with
  | EmptyString => true
  | String x _ => negb (p x)
  end.

Lemma take_len_append (a b : string) : Str.take (Str.len a) (a +:+ b) = a.
Proof.
  induction a as [|x a IH]; [by destruct b |].
  rewrite append_cons. unfold Str.len in *. simpl. by rewrite IH.
Qed.

Lemma drop_len_append (a b : string) : Str.drop (Str.len a) (a +:+ b) = b.
Proof.
  induction a as [|x a IH]; [by destruct b |].
  rewrite append_cons. unfold Str.len in *. simpl. by rewrite IH.
Qed.

Lemma star_loop_S (step : (cursor -> option cursor) -> cursor -> option cursor)
    (k : cursor -> option cursor) (n : nat) (c : cursor) :
  star_loop step k (S n) c
  = match step (fun c' => if (c_pos c <? c_pos c')%nat
                          then star_loop step k n c' else None) c with
    | Some res => Some res
    | None => k c
    end.
Proof. reflexivity. Qed.

(** The greedy loop over a class takes the whole run of its bytes, if what
    follows the loop accepts there. *)
Lemma star_loop_greedy (p : ascii -> bool) (rest : string)
    (k : cursor -> option cursor) (caps : list (option (nat * nat))) (res : cursor) :
  stops p rest = true ->
  forall (w : string) (n pos : nat),
    all_bytes p w = true ->
    (Str.len w <= n)%nat ->
    k (Cursor (pos + Str.len w) rest caps) = Some res ->
    star_loop (run (Cls p)) k n (Cursor pos (w +:+ rest) caps) = Some res.
Proof.
  intros Hstop. induction w as [|a w IH]; intros n pos Hw Hn Hk.
  - rewrite append_nil_l. change (Str.len EmptyString) with 0%nat in Hk.
    rewrite Nat.add_0_r in Hk.
    destruct n as [|n]; [done |]. rewrite star_loop_S.
    destruct rest as [|x r]; [by rewrite run_Cls_nil |]. simpl in Hstop.
    apply negb_true_iff in Hstop. by rewrite run_Cls_cons, Hstop.
  - rewrite append_cons. simpl in Hw. apply andb_true_iff in Hw as [Ha Hw].
    change (Str.len (String a w)) with (S (Str.len w)) in Hn, Hk.
    destruct n as [|n]; [lia |]. rewrite star_loop_S, run_Cls_cons, Ha.
    cbn [c_pos].
    assert (Hlt : (pos <? S pos)%nat = true) by (apply Nat.ltb_lt; lia).
    rewrite Hlt. rewrite (IH n (S pos)); [done | done | lia |].
    by replace (S pos + Str.len w)%nat with (pos + S (Str.len w))%nat by lia.
Qed.

Lemma run_Star_greedy (p : ascii -> bool) (w rest : string)
    (k : cursor -> option cursor) (pos : nat) (caps : list (option (nat * nat)))
    (res : cursor) :
  all_bytes p w = true ->
  stops p rest = true ->
  k (Cursor (pos + Str.len w) rest caps) = Some res ->
  run (Star (Cls p)) k (Cursor pos (w +:+ rest) caps) = Some res.
Proof.
  intros Hw Hstop Hk.
  change (run (Star (Cls p)) k ?c)
    with (star_loop (run (Cls p)) k (S (Str.len (c_rest c))) c).
  apply star_loop_greedy; [done | done | | done].
  cbn [c_rest]. rewrite len_append. lia.
Qed.

Lemma run_Plus_greedy (p : ascii -> bool) (w rest : string)
    (k : cursor -> option cursor) (pos : nat) (caps : list (option (nat * nat)))
    (res : cursor) :
  w ≠ EmptyString ->
  all_bytes p w = true ->
  stops p rest = true ->
  k (Cursor (pos + Str.len w) rest caps) = Some res ->
  run (Plus (Cls p)) k (Cursor pos (w +:+ rest) caps) = Some res.
Proof.
  intros Hne Hw Hstop Hk. destruct w as [|a w]; [done |].
  simpl in Hw. apply andb_true_iff in Hw as [Ha Hw].
  change (Str.len (String a w)) with (S (Str.len w)) in Hk.
  rewrite append_cons.
  change (run (Plus (Cls p)) k ?c)
    with (run (Cls p)
            (fun c' => star_loop (run (Cls p)) k (S (Str.len (c_rest c'))) c') c).
  rewrite run_Cls_cons, Ha. cbn [c_rest].
  apply star_loop_greedy; [done | done | rewrite len_append; lia |].
  by replace (S pos + Str.len w)%nat with (pos + S (Str.len w))%nat by lia.
Qed.

Lemma eat_cons (a b : ascii) (lit s : string) (pos : nat)
    (caps : list (option (nat * nat))) :
  eat (String a lit) (Cursor pos (String b s) caps)
  = if Ascii.eqb a b then eat lit (Cursor (S pos) s caps) else None.
Proof. reflexivity. Qed.

Lemma eat_append (lit rest : string) (pos : nat) (caps : list (option (nat * nat))) :
  eat lit (Cursor pos (lit +:+ rest) caps)
  = Some (Cursor (pos + Str.len lit) rest caps).
Proof.
  revert pos. induction lit as [|a lit IH]; intros pos.
  - rewrite append_nil_l. simpl. by rewrite Nat.add_0_r.
  - rewrite append_cons, eat_cons, Ascii.eqb_refl, IH.
    change (Str.len (String a lit)) with (S (Str.len lit)).
    by replace (S pos + Str.len lit)%nat with (pos + S (Str.len lit))%nat by lia.
Qed.

Lemma run_Lit_append (lit rest : string) (k : cursor -> option cursor)
    (pos : nat) (caps : list (option (nat * nat))) :
  run (Lit lit) k (Cursor pos (lit +:+ rest) caps)
  = k (Cursor (pos + Str.len lit) rest caps).
Proof.
  change (run (Lit lit) k ?c) with (eat lit c ≫= k). by rewrite eat_append.
Qed.

Lemma run_Bol_start (k : cursor -> option cursor) (s : string)
    (caps : list (option (nat * nat))) :
  run Bol k (Cursor 0 s caps) = k (Cursor 0 s caps).
Proof. reflexivity. Qed.

Lemma search_here (re : Regexp) (pos : nat) (s : string) (m : found) :
  match_at re pos s = Some m -> search re pos s = Some m.
Proof. intros H. destruct s; simpl; by rewrite H. Qed.

Lemma stops_not_space (tag rest : string) :
  tag ≠ EmptyString ->
  all_bytes (fun c => negb (re_space c)) tag = true ->
  stops re_space (tag +:+ rest) = true.
Proof.
  destruct tag as [|a tag]; [done |]. intros _ H. simpl in H.
  apply andb_true_iff in H as [Ha _]. by rewrite append_cons.
Qed.

(** The shape of a name directive: white space, the comment marker, white
    space, the key, white space, and the name up to the next white space. *)
Definition directive (ws1 ws2 ws3 tag rest : string) : string :=
  ws1 +:+ "--" +:+ ws2 +:+ "name:" +:+ ws3 +:+ tag +:+ rest.

Lemma FindStringSubmatch_directive (ws1 ws2 ws3 tag rest : string) :
  all_bytes re_space ws1 = true ->
  all_bytes re_space ws2 = true ->
  all_bytes re_space ws3 = true ->
  tag ≠ EmptyString ->
  all_bytes (fun c => negb (re_space c)) tag = true ->
  stops (fun c => negb (re_space c)) rest = true ->
  let start := (Str.len ws1 + 2 + Str.len ws2 + 5 + Str.len ws3)%nat in
  search tagRE 0 (directive ws1 ws2 ws3 tag rest)
  = Some (Found 0 (start + Str.len tag)
            [None; Some (start, (start + Str.len tag)%nat)]).
Proof.
  intros H1 H2 H3 Hne Htag Hrest start.
  assert (Hrun : run (re_expr tagRE) Some
                   (Cursor 0 (directive ws1 ws2 ws3 tag rest) [None; None])
                 = Some (Cursor (start + Str.len tag) rest
                           [None; Some (start, (start + Str.len tag)%nat)])).
  { unfold tagRE, re_expr, directive. rewrite run_Cat, run_Bol_start.
    rewrite run_Cat. apply run_Star_greedy; [done | done |].
    rewrite run_Cat, run_Lit_append.
    rewrite run_Cat. apply run_Star_greedy; [done | done |].
    rewrite run_Cat, run_Lit_append.
    rewrite run_Cat. apply run_Star_greedy; [done | by apply stops_not_space |].
    change (run (Cap 1 ?a) ?k ?c)
      with (run a (fun c' =>
                     k (Cursor (c_pos c') (c_rest c')
                          (<[1%nat := Some (c_pos c, c_pos c')]> (c_caps c')))) c).
    apply run_Plus_greedy; [done | done | done |].
    cbn [c_pos c_rest c_caps]. simpl Str.len. subst start.
    rewrite !Nat.add_0_l. reflexivity. }
  assert (Hm : match_at tagRE 0 (directive ws1 ws2 ws3 tag rest)
               = Some (Found 0 (start + Str.len tag)
                         [None; Some (start, (start + Str.len tag)%nat)])).
  { unfold match_at. change (replicate (S (re_groups tagRE)) None)
      with ([None; None] : list (option (nat * nat))).
    by rewrite Hrun. }
  by apply search_here.
Qed.

(** X15.  A name directive is read whatever its spacing: white space may
    stand before the marker, after it and after the colon, and the name is
    the run of bytes up to the next white space or the end of the line.
    Such a line makes the named block current in either state and adds
    nothing to any block. *)
Theorem name_directive_is_read (s : Scanner) (ws1 ws2 ws3 tag rest : string) :
  all_bytes re_space ws1 = true ->
  all_bytes re_space ws2 = true ->
  all_bytes re_space ws3 = true ->
  tag ≠ EmptyString ->
  all_bytes (fun c => negb (re_space c)) tag = true ->
  stops (fun c => negb (re_space c)) rest = true ->
  line s = directive ws1 ws2 ws3 tag rest ->
  getTag (line s) = tag ∧
  initialState s = (set_current s tag, QueryState) ∧
  queryState s = (set_current s tag, QueryState).
Proof.
  intros H1 H2 H3 Hne Htag Hrest Hline.
  assert (Hget : getTag (line s) = tag).
  { unfold getTag, FindStringSubmatch. rewrite Hline.
    rewrite FindStringSubmatch_directive by done.
    cbn [fmap option_fmap option_map]. unfold submatches.
    change (re_groups tagRE) with 1%nat. cbn [seq fmap list_fmap nth].
    unfold group, m_caps. cbn [lookup list_lookup]. unfold substr.
    replace (Str.len ws1 + 2 + Str.len ws2 + 5 + Str.len ws3 + Str.len tag
             - (Str.len ws1 + 2 + Str.len ws2 + 5 + Str.len ws3))%nat
      with (Str.len tag) by lia.
    unfold directive.
    rewrite <- !drop_drop.
    rewrite drop_len_append.
    rewrite (drop_len_append "--").
    rewrite drop_len_append.
    rewrite (drop_len_append "name:").
    rewrite drop_len_append. apply take_len_append. }
  assert (Hpos : (0 <? Str.len tag)%nat = true).
  { apply Nat.ltb_lt. destruct tag; [done |]. unfold Str.len. simpl. lia. }
  split_and!; [done | |].
  - unfold initialState. by rewrite Hget, Hpos.
  - unfold queryState. by rewrite Hget, Hpos.
Qed.

Lemma name_directive_is_read_witness :
  getTag "  --name:   get-user  -- the rest" = "get-user".
Proof.
  refine (proj1 (name_directive_is_read
                   (mkScanner "  --name:   get-user  -- the rest" ∅ EmptyString ∅)
                   "  " EmptyString "   " "get-user" "  -- the rest" _ _ _ _ _ _ _));
    try reflexivity.
  discriminate.
Defined.

(** ** Where block names come from *)

Definition not_space (c : ascii) : bool := negb (re_space c).

(** What the name pattern captures holds no white space. *)
Lemma getTag_no_space (text : string) : all_bytes not_space (getTag text) = true.
Proof.
  unfold getTag, FindStringSubmatch.
  destruct (search tagRE 0 text) as [m|] eqn:Hm; [| done].
  apply search_sound in Hm as [n Hm]. rewrite Nat.add_0_l in Hm.
  unfold match_at in Hm.
  destruct (run _ _ _) as [res|] eqn:Hrun; [| done]. injection Hm as <-.
  unfold tagRE, re_expr, re_groups in Hrun.
  set (c := Cursor n (Str.drop n text) (replicate 2 None)) in Hrun.
  rewrite run_Cat in Hrun. apply run_sound in Hrun as (c0 & Hrun & Ha0 & _).
  rewrite run_Cat in Hrun. apply run_sound in Hrun as (c1 & Hrun & Ha1 & _).
  rewrite run_Cat in Hrun. apply run_sound in Hrun as (c2 & Hrun & Ha2 & _).
  rewrite run_Cat in Hrun. apply run_sound in Hrun as (c3 & Hrun & Ha3 & _).
  rewrite run_Cat in Hrun. apply run_sound in Hrun as (c4 & Hrun & Ha4 & _).
  rewrite run_Cat in Hrun. apply run_sound in Hrun as (c5 & Hrun & Ha5 & _).
  assert (Ha : ahead c c5).
  { eapply ahead_trans; [exact Ha0 |]. eapply ahead_trans; [exact Ha1 |].
    eapply ahead_trans; [exact Ha2 |]. eapply ahead_trans; [exact Ha3 |].
    eapply ahead_trans; [exact Ha4 | exact Ha5]. }
  destruct Ha as (d & Hpos & Hrest). subst c. cbn [c_pos c_rest] in Hpos, Hrest.
  rewrite drop_drop in Hrest.
  change (run (Cap 1 ?a) ?k c5)
    with (run a (fun c' =>
                   k (Cursor (c_pos c') (c_rest c')
                        (<[1%nat := Some (c_pos c5, c_pos c')]> (c_caps c')))) c5)
    in Hrun.
  apply (run_consumes not_space) in Hrun
    as (c' & [= <-] & (w & Hw & _ & _ & Hbytes) & _); [| by intros b].
  cbn [fmap option_fmap option_map].
  change (nth 1 (submatches ?re text ?m) EmptyString) with (group text m 1).
  unfold group. cbn [m_caps c_caps c_pos].
  destruct (decide (1 < length (c_caps c'))%nat) as [Hlen | Hlen].
  - rewrite list_lookup_insert_eq by done. unfold substr.
    rewrite Hw, Hpos. replace (n + d + w - (n + d))%nat with w by lia.
    by rewrite <- Hrest.
  - rewrite list_insert_ge by lia.
    rewrite (proj2 (lookup_ge_None _ _)) by lia. done.
Qed.

(** A name the scanner may file a block under: the name derived from the
    file, or the name of a directive among the lines [all]. *)
Definition named_by (all : list string) (base name : string) : Prop :=
  name = base ∨
  ∃ text : string, text ∈ all ∧ getTag text = name ∧ name ≠ EmptyString.

Definition names_known (all : list string) (base : string) (s : Scanner) : Prop :=
  named_by all base (current s) ∧
  forall k : string, is_Some (queries s !! k) -> named_by all base k.

Lemma appendQueryLine_keys (s : Scanner) (k : string) :
  is_Some (queries (appendQueryLine s) !! k) ->
  k = current s ∨ is_Some (queries s !! k).
Proof.
  unfold appendQueryLine. destruct (Str.len _ =? 0)%nat; [by right |].
  destruct (queries s !! current s) as [sq|] eqn:Hcur.
  - rewrite Hcur. cbn [queries].
    destruct (decide (k = current s)) as [-> | Hk]; [by left |].
    rewrite lookup_insert_ne by done. by right.
  - rewrite lookup_insert_eq. cbn [queries].
    destruct (decide (k = current s)) as [-> | Hk]; [by left |].
    rewrite !lookup_insert_ne by done. by right.
Qed.

Lemma appendMetadata_keys (s : Scanner) (key value k : string) :
  is_Some (queries (appendMetadata s key value) !! k) ->
  k = current s ∨ is_Some (queries s !! k).
Proof.
  unfold appendMetadata.
  destruct (queries s !! current s) as [sq|] eqn:Hcur.
  - rewrite Hcur. cbn [queries].
    destruct (decide (k = current s)) as [-> | Hk]; [by left |].
    rewrite lookup_insert_ne by done. by right.
  - rewrite lookup_insert_eq. cbn [queries].
    destruct (decide (k = current s)) as [-> | Hk]; [by left |].
    rewrite !lookup_insert_ne by done. by right.
Qed.

Lemma appendQueryLine_current (s : Scanner) : current (appendQueryLine s) = current s.
Proof.
  unfold appendQueryLine. destruct (Str.len _ =? 0)%nat; [done |].
  by destruct (_ !! current s).
Qed.

Lemma appendMetadata_current (s : Scanner) (key value : string) :
  current (appendMetadata s key value) = current s.
Proof. unfold appendMetadata. by destruct (_ !! current s). Qed.

Lemma appendQueryLine_names (all : list string) (base : string) (s : Scanner) :
  names_known all base s -> names_known all base (appendQueryLine s).
Proof.
  intros [Hcur Hkeys]. split; [by rewrite appendQueryLine_current |].
  intros k Hk. apply appendQueryLine_keys in Hk as [-> | Hk]; [done | by apply Hkeys].
Qed.

Lemma appendMetadata_names (all : list string) (base : string) (s : Scanner)
    (key value : string) :
  names_known all base s -> names_known all base (appendMetadata s key value).
Proof.
  intros [Hcur Hkeys]. split; [by rewrite appendMetadata_current |].
  intros k Hk. apply appendMetadata_keys in Hk as [-> | Hk]; [done | by apply Hkeys].
Qed.

Lemma set_current_names (all : list string) (base : string) (s : Scanner) :
  line s ∈ all ->
  (0 <? Str.len (getTag (line s)))%nat = true ->
  names_known all base s ->
  names_known all base (set_current s (getTag (line s))).
Proof.
  intros Hin Hlen [_ Hkeys]. split; [| done].
  right. exists (line s). unfold set_current. cbn [current].
  split_and!; [done | done |].
  intros E. by rewrite E in Hlen.
Qed.

Lemma call_names (all : list string) (base : string) (state : stateFn) (s : Scanner) :
  line s ∈ all ->
  names_known all base s -> names_known all base (call state s).1.
Proof.
  intros Hin Hs. destruct state; simpl.
  - unfold initialState.
    destruct (0 <? _)%nat eqn:Hlen; [by apply set_current_names |].
    destruct (_ || _); [done |]. by apply appendQueryLine_names.
  - unfold queryState.
    destruct (0 <? _)%nat eqn:Hlen; [by apply set_current_names |].
    destruct (getMetadata _) as [[key value]|].
    + by apply appendMetadata_names.
    + by apply appendQueryLine_names.
Qed.

Lemma scanLines_names (all : list string) (base : string) (io : list string) :
  (forall text, text ∈ io -> text ∈ all) ->
  forall (s : Scanner) (state : stateFn),
    names_known all base s -> names_known all base (scanLines s state io).
Proof.
  induction io as [|text io IH]; intros Hio s state Hs; [done |].
  simpl.
  destruct (call state (mkScanner text (queries s) (current s) (metadata s)))
    as [s' state'] eqn:Hcall.
  apply IH; [intros t Ht; apply Hio; by right |].
  change s' with (s', state').1. rewrite <- Hcall.
  apply call_names; [apply Hio; by left | done].
Qed.

(** X16.  Every block of the result is filed under the name derived from
    the file or under the name of a directive of the stream; a directive's
    name is not empty and holds no white space. *)
Theorem block_names_come_from_directives (s : Scanner) (fileName : string)
    (io : list string) (name : string) (sq : ScannedQuery) :
  Run s fileName io !! name = Some sq ->
  name = Base (Str.TrimSuffix fileName (Ext fileName)) ∨
  ∃ text : string,
    text ∈ io ∧ getTag text = name ∧ name ≠ EmptyString ∧
    all_bytes not_space name = true.
Proof.
  intros Hsq. unfold Run in Hsq.
  set (base := Base (Str.TrimSuffix fileName (Ext fileName))) in *.
  set (s0 := set_current _ base) in Hsq.
  assert (H0 : names_known io base s0) by (split; [by left | by intros k [? ?]]).
  apply (scanLines_names io base io (fun _ H => H) s0 InitialState) in H0 as [_ Hkeys].
  destruct (Hkeys name) as [-> | (text & Hin & Htag & Hne)]; [by rewrite Hsq | by left |].
  right. exists text. split_and!; [done | done | done |].
  rewrite <- Htag. apply getTag_no_space.
Qed.

Lemma block_names_come_from_directives_witness :
  "b" = Base (Str.TrimSuffix "dir/a.sql" (Ext "dir/a.sql")) ∨
  ∃ text : string,
    text ∈ ["SELECT 1"; "-- name: b"; "SELECT 2"] ∧ getTag text = "b" ∧
    "b" ≠ EmptyString ∧ all_bytes not_space "b" = true.
Proof.
  apply (block_names_come_from_directives newScanner "dir/a.sql"
           ["SELECT 1"; "-- name: b"; "SELECT 2"] "b" (mkScannedQuery "SELECT 2" ∅)).
  vm_compute. reflexivity.
Defined.

(** ** The name derived from the file *)

Lemma list_ascii_append (a b : string) :
  list_ascii_of_string (a +:+ b) = (list_ascii_of_string a ++ list_ascii_of_string b)%list.
Proof.
  induction a as [|x a IH]; [done |]. rewrite append_cons. simpl. by rewrite IH.
Qed.

Lemma string_of_app (l1 l2 : list ascii) :
  string_of_list_ascii (l1 ++ l2)
  = string_of_list_ascii l1 +:+ string_of_list_ascii l2.
Proof.
  induction l1 as [|x l1 IH]; [done |]. simpl. by rewrite IH, append_cons.
Qed.

Lemma rev_append (a b : string) : Str.rev (a +:+ b) = Str.rev b +:+ Str.rev a.
Proof.
  unfold Str.rev. by rewrite list_ascii_append, rev_app_distr, string_of_app.
Qed.

Lemma rev_rev (s : string) : Str.rev (Str.rev s) = s.
Proof.
  unfold Str.rev.
  by rewrite list_ascii_of_string_of_list_ascii, rev_involutive,
    string_of_list_ascii_of_string.
Qed.

Lemma rev_cons (c : ascii) (s : string) :
  Str.rev (String c s) = Str.rev s +:+ String c EmptyString.
Proof. change (String c s) with (String c EmptyString +:+ s). by rewrite rev_append. Qed.

Lemma rev_not_empty (s : string) : s ≠ EmptyString -> Str.rev s ≠ EmptyString.
Proof. intros Hs E. apply Hs. by rewrite <- (rev_rev s), E. Qed.

Lemma all_bytes_rev (P : ascii -> bool) (s : string) :
  all_bytes P (Str.rev s) = all_bytes P s.
Proof.
  induction s as [|c s IH]; [done |].
  rewrite rev_cons, all_bytes_append, IH. simpl.
  by rewrite andb_true_r, andb_comm.
Qed.

Lemma HasPrefix_append (p r : string) : Str.HasPrefix (p +:+ r) p = true.
Proof.
  induction p as [|a p IH]; [done |]. rewrite append_cons.
  cbn [Str.HasPrefix]. by rewrite Ascii.eqb_refl, IH.
Qed.

(** Bytes of a file name's stem, and of its extension. *)
Definition not_slash (c : ascii) : bool := negb (Ascii.eqb c "/").

Definition ext_byte (c : ascii) : bool := not_slash c && negb (Ascii.eqb c ".").

Lemma ext_rev_cons (c : ascii) (r : string) :
  ext_rev (String c r)
  = if Ascii.eqb c "/" then None
    else if Ascii.eqb c "." then Some (String c EmptyString)
    else String c <$> ext_rev r.
Proof. reflexivity. Qed.

Lemma ext_rev_dot (e rest : string) :
  all_bytes ext_byte e = true ->
  ext_rev (e +:+ String "." rest) = Some (e +:+ ".").
Proof.
  induction e as [|c e IH]; intros He; [done |].
  simpl in He. apply andb_true_iff in He as [Hc He].
  unfold ext_byte, not_slash in Hc. apply andb_true_iff in Hc as [Hs Hd].
  apply negb_true_iff in Hs, Hd.
  rewrite !append_cons, ext_rev_cons, Hs, Hd, IH by done. done.
Qed.

Lemma until_slash_cons (c : ascii) (r : string) :
  until_slash (String c r)
  = if Ascii.eqb c "/" then EmptyString else String c (until_slash r).
Proof. reflexivity. Qed.

Lemma until_slash_append (w rest : string) :
  all_bytes not_slash w = true ->
  stops not_slash rest = true ->
  until_slash (w +:+ rest) = w.
Proof.
  intros Hw Hrest. induction w as [|c w IH].
  - rewrite append_nil_l. destruct rest as [|x r]; [done |].
    simpl in Hrest. unfold not_slash in Hrest. rewrite negb_involutive in Hrest.
    by rewrite until_slash_cons, Hrest.
  - simpl in Hw. apply andb_true_iff in Hw as [Hc Hw].
    unfold not_slash in Hc. apply negb_true_iff in Hc.
    by rewrite append_cons, until_slash_cons, Hc, IH.
Qed.

Lemma TrimLeftBytes_head (cut : ascii -> bool) (w rest : string) :
  w ≠ EmptyString ->
  all_bytes (fun c => negb (cut c)) w = true ->
  Str.TrimLeftBytes cut (w +:+ rest) = w +:+ rest.
Proof.
  destruct w as [|c w]; [done |]. intros _ Hw. simpl in Hw.
  apply andb_true_iff in Hw as [Hc _]. apply negb_true_iff in Hc.
  rewrite append_cons. cbn [Str.TrimLeftBytes]. by rewrite Hc.
Qed.

Lemma eqb_not_empty (s : string) : s ≠ EmptyString -> String.eqb s EmptyString = false.
Proof. intros Hs. by apply String.eqb_neq. Qed.

(** The directory part of a path: nothing, or something that ends in a
    slash. *)
Definition directory (prefix : string) : Prop :=
  prefix = EmptyString ∨ ∃ d : string, prefix = d +:+ "/".

Lemma directory_rev_stops (prefix : string) :
  directory prefix -> stops not_slash (Str.rev prefix) = true.
Proof.
  intros [-> | [d ->]]; [done |]. by rewrite rev_append.
Qed.

(** [Base(TrimSuffix(fileName, Ext(fileName)))] of a path with a
    directory, a stem and an extension. *)
Lemma file_stem (prefix stem ext : string) :
  directory prefix ->
  stem ≠ EmptyString ->
  all_bytes not_slash stem = true ->
  all_bytes ext_byte ext = true ->
  let fileName := prefix +:+ stem +:+ "." +:+ ext in
  Base (Str.TrimSuffix fileName (Ext fileName)) = stem.
Proof.
  intros Hdir Hne Hstem Hext fileName.
  assert (Hrev : Str.rev fileName
                 = Str.rev ext +:+ String "." (Str.rev (prefix +:+ stem))).
  { unfold fileName. rewrite <- (append_assoc prefix stem).
    rewrite (rev_append (prefix +:+ stem)), (rev_append "." ext).
    by rewrite append_assoc. }
  assert (HExt : Ext fileName = "." +:+ ext).
  { unfold Ext. rewrite Hrev, ext_rev_dot by (by rewrite all_bytes_rev).
    by rewrite rev_append, rev_rev. }
  assert (Htrim : Str.TrimSuffix fileName (Ext fileName) = prefix +:+ stem).
  { unfold Str.TrimSuffix. rewrite HExt.
    replace (Str.rev fileName)
      with (Str.rev ("." +:+ ext) +:+ Str.rev (prefix +:+ stem))
      by (rewrite Hrev, rev_append; by rewrite append_assoc).
    rewrite HasPrefix_append.
    replace fileName with ((prefix +:+ stem) +:+ "." +:+ ext)
      by (unfold fileName; by rewrite append_assoc).
    rewrite len_append.
    replace (Str.len (prefix +:+ stem) + Str.len ("." +:+ ext)
             - Str.len ("." +:+ ext))%nat
      with (Str.len (prefix +:+ stem)) by lia.
    apply take_len_append. }
  rewrite Htrim. unfold Base.
  rewrite eqb_not_empty by (by apply append_not_empty_r).
  rewrite rev_append.
  rewrite TrimLeftBytes_head; first last.
  { rewrite all_bytes_rev.
    eapply all_bytes_impl; [| exact Hstem].
    intros b Hb. unfold not_slash in Hb. by rewrite Ascii.eqb_sym. }
  { by apply rev_not_empty. }
  rewrite <- rev_append, rev_rev, rev_append.
  rewrite until_slash_append;
    [| by rewrite all_bytes_rev | by apply directory_rev_stops].
  rewrite rev_rev. by rewrite eqb_not_empty.
Qed.

(** X17.  A file without name directives yields no block but the one named
    after the file, its directory and its extension taken off. *)
Theorem unnamed_block_takes_the_file_stem (s : Scanner) (prefix stem ext : string)
    (io : list string) (name : string) (sq : ScannedQuery) :
  directory prefix ->
  stem ≠ EmptyString ->
  all_bytes not_slash stem = true ->
  all_bytes ext_byte ext = true ->
  (forall text, text ∈ io -> getTag text = EmptyString) ->
  Run s (prefix +:+ stem +:+ "." +:+ ext) io !! name = Some sq ->
  name = stem.
Proof.
  intros Hdir Hne Hstem Hext Hio Hsq. unfold Run in Hsq.
  rewrite file_stem in Hsq by done.
  set (s0 := set_current _ stem) in Hsq.
  assert (H0 : names_known io stem s0) by (split; [by left | by intros k [? ?]]).
  apply (scanLines_names io stem io (fun _ H => H) s0 InitialState) in H0 as [_ Hkeys].
  destruct (Hkeys name) as [-> | (text & Hin & Htag & Hname)];
    [by rewrite Hsq | done |].
  rewrite (Hio text Hin) in Htag. by destruct Hname.
Qed.

Lemma unnamed_block_takes_the_file_stem_witness :
  Run newScanner ("sql/" +:+ "users" +:+ "." +:+ "sql")
    ["-- all users"; "SELECT *"; "FROM users"] !! "users"
  = Some (mkScannedQuery ("SELECT *" +:+ nl +:+ "FROM users") ∅) ∧
  ("users" : string) = "users".
Proof.
  assert (Hrun : Run newScanner ("sql/" +:+ "users" +:+ "." +:+ "sql")
                   ["-- all users"; "SELECT *"; "FROM users"] !! "users"
                 = Some (mkScannedQuery ("SELECT *" +:+ nl +:+ "FROM users") ∅))
    by (vm_compute; reflexivity).
  split; [exact Hrun |].
  apply (unnamed_block_takes_the_file_stem newScanner "sql/" "users" "sql"
           ["-- all users"; "SELECT *"; "FROM users"] "users"
           (mkScannedQuery ("SELECT *" +:+ nl +:+ "FROM users") ∅)).
  - right. by exists "sql".
  - discriminate.
  - reflexivity.
  - reflexivity.
  - intros text Hin. repeat (apply elem_of_cons in Hin as [-> | Hin]; [reflexivity |]).
    apply elem_of_nil in Hin. destruct Hin.
  - exact Hrun.
Defined.

(** ** What a block's body is made of *)

(** [strings.Trim(line, " \t")], as [appendQueryLine] applies it. *)
Definition trim_line (text : string) : string :=
  Str.TrimBytes (fun c => Ascii.eqb c " " || Ascii.eqb c Str.tab) text.

(** The block is built from the lines [seen]: its body joins some of
    their trimmed texts, none of them empty, in their order; without any,
    the block owes its existence to a metadata line. *)
Definition built_from (seen : list string) (sq : ScannedQuery) : Prop :=
  ∃ ls : list string,
    sq_Query sq = Str.Join ls nl ∧
    ls `sublist_of` (trim_line <$> seen) ∧
    Forall (fun l => l ≠ EmptyString) ls ∧
    (ls = [] -> sq_Metadata sq ≠ ∅).

Lemma Join_snoc (ls : list string) (x sep : string) :
  ls ≠ [] -> Str.Join (ls ++ [x]) sep = Str.Join ls sep +:+ sep +:+ x.
Proof.
  induction ls as [|a ls IH]; [done |]. intros _.
  destruct ls as [|b ls]; [done |].
  change ((a :: b :: ls) ++ [x]) with (a :: b :: (ls ++ [x])).
  rewrite !Join_cons_cons.
  change (b :: ls ++ [x]) with ((b :: ls) ++ [x]). rewrite IH by done.
  by rewrite !append_assoc.
Qed.

Lemma Join_not_empty (ls : list string) (sep : string) :
  ls ≠ [] -> Forall (fun l => l ≠ EmptyString) ls -> Str.Join ls sep ≠ EmptyString.
Proof.
  destruct ls as [|a ls]; [done |]. intros _ Hls.
  apply Forall_cons in Hls as [Ha _]. destruct a as [|c a]; [done |].
  by rewrite Join_head_byte.
Qed.

Lemma built_from_mono (seen : list string) (text : string) (sq : ScannedQuery) :
  built_from seen sq -> built_from (seen ++ [text]) sq.
Proof.
  intros (ls & Hbody & Hsub & Hne & Hmd). exists ls. split_and!; [done | | done | done].
  rewrite fmap_app. by apply sublist_inserts_r.
Qed.

Lemma built_from_line (seen : list string) (text : string) (sq : ScannedQuery)
    (ls : list string) :
  trim_line text ≠ EmptyString ->
  sq_Query sq = Str.Join ls nl ->
  ls `sublist_of` (trim_line <$> seen) ->
  Forall (fun l => l ≠ EmptyString) ls ->
  built_from (seen ++ [text])
    (mkScannedQuery
       ((if (0 <? Str.len (sq_Query sq))%nat then sq_Query sq +:+ nl else sq_Query sq)
        +:+ trim_line text)
       (sq_Metadata sq)).
Proof.
  intros Htext Hbody Hsub Hne.
  exists (ls ++ [trim_line text]). cbn [sq_Query sq_Metadata].
  split_and!.
  - rewrite Hbody. destruct ls as [|a ls]; [done |].
    assert (Hj : Str.Join (a :: ls) nl ≠ EmptyString) by (by apply Join_not_empty).
    rewrite Join_snoc by done.
    destruct (Str.Join (a :: ls) nl) as [|c j]; [done |].
    change (0 <? Str.len (String c j))%nat with true. cbv iota.
    by rewrite append_assoc.
  - rewrite fmap_app. by apply sublist_app.
  - apply Forall_app. split; [done | by constructor].
  - intros E. by apply app_nil in E as [_ ?].
Qed.

Lemma appendQueryLine_built (seen : list string) (s : Scanner) :
  map_Forall (fun _ => built_from seen) (queries s) ->
  map_Forall (fun _ => built_from (seen ++ [line s])) (queries (appendQueryLine s)).
Proof.
  intros Hs.
  assert (Hmono : map_Forall (fun _ => built_from (seen ++ [line s])) (queries s)).
  { intros k sq Hk. apply built_from_mono. by apply (Hs k). }
  unfold appendQueryLine. fold (trim_line (line s)).
  destruct (Str.len (trim_line (line s)) =? 0)%nat eqn:Hlen; [done |].
  apply Nat.eqb_neq in Hlen.
  assert (Htext : trim_line (line s) ≠ EmptyString).
  { intros E. rewrite E in Hlen. by apply Hlen. }
  destruct (queries s !! current s) as [sq|] eqn:Hcur.
  - rewrite Hcur. cbn [queries]. apply map_Forall_insert_2; [| done].
    destruct (Hs _ _ Hcur) as (ls & Hbody & Hsub & Hne & _).
    by apply (built_from_line seen (line s) sq ls).
  - rewrite lookup_insert_eq. cbn [queries]. rewrite insert_insert_eq.
    apply map_Forall_insert_2; [| done].
    apply (built_from_line seen (line s) (mkScannedQuery EmptyString ∅) []);
      [done | done | apply sublist_nil_l | done].
Qed.

Lemma appendMetadata_built (seen : list string) (s : Scanner) (key value : string) :
  map_Forall (fun _ => built_from seen) (queries s) ->
  map_Forall (fun _ => built_from (seen ++ [line s]))
    (queries (appendMetadata s key value)).
Proof.
  intros Hs.
  assert (Hmono : map_Forall (fun _ => built_from (seen ++ [line s])) (queries s)).
  { intros k sq Hk. apply built_from_mono. by apply (Hs k). }
  unfold appendMetadata.
  destruct (queries s !! current s) as [sq|] eqn:Hcur.
  - rewrite Hcur. cbn [queries]. apply map_Forall_insert_2; [| done].
    destruct (Hmono _ _ Hcur) as (ls & Hbody & Hsub & Hne & _).
    exists ls. split_and!; [done | done | done |].
    intros _. apply insert_non_empty.
  - rewrite lookup_insert_eq. cbn [queries]. rewrite insert_insert_eq.
    apply map_Forall_insert_2; [| done].
    exists []. split_and!; [done | apply sublist_nil_l | done |].
    intros _. apply insert_non_empty.
Qed.

Lemma call_built (seen : list string) (state : stateFn) (s : Scanner) :
  map_Forall (fun _ => built_from seen) (queries s) ->
  map_Forall (fun _ => built_from (seen ++ [line s])) (queries (call state s).1).
Proof.
  intros Hs.
  assert (Hmono : map_Forall (fun _ => built_from (seen ++ [line s])) (queries s)).
  { intros k sq Hk. apply built_from_mono. by apply (Hs k). }
  destruct state; simpl.
  - unfold initialState. destruct (0 <? _)%nat; [done |].
    destruct (_ || _); [done |]. by apply appendQueryLine_built.
  - unfold queryState. destruct (0 <? _)%nat; [done |].
    destruct (getMetadata _) as [[key value]|].
    + by apply appendMetadata_built.
    + by apply appendQueryLine_built.
Qed.

Lemma scanLines_built (io : list string) :
  forall (seen : list string) (s : Scanner) (state : stateFn),
    map_Forall (fun _ => built_from seen) (queries s) ->
    map_Forall (fun _ => built_from (seen ++ io)) (queries (scanLines s state io)).
Proof.
  induction io as [|text io IH]; intros seen s state Hs.
  - by rewrite app_nil_r.
  - simpl.
    destruct (call state (mkScanner text (queries s) (current s) (metadata s)))
      as [s' state'] eqn:Hcall.
    replace (seen ++ text :: io) with ((seen ++ [text]) ++ io)
      by (by rewrite <- app_assoc).
    apply IH. change s' with (s', state').1. rewrite <- Hcall.
    by apply (call_built seen state (mkScanner text (queries s) (current s) (metadata s))).
Qed.

(** X12.  The body of every block of the result is the newline-separated
    join of lines of the stream, each trimmed of blanks and tabs and none
    of them empty, in the order of the stream; a block without any such
    line holds metadata. *)
Theorem bodies_join_trimmed_lines (s : Scanner) (fileName : string) (io : list string)
    (name : string) (sq : ScannedQuery) :
  Run s fileName io !! name = Some sq ->
  ∃ ls : list string,
    sq_Query sq = Str.Join ls nl ∧
    ls `sublist_of` (trim_line <$> io) ∧
    Forall (fun l => l ≠ EmptyString) ls ∧
    (ls = [] -> sq_Metadata sq ≠ ∅).
Proof.
  intros Hsq. unfold Run in Hsq.
  eapply (scanLines_built io [] _ InitialState); [| exact Hsq].
  cbn [queries set_current]. apply map_Forall_empty.
Qed.

Lemma bodies_join_trimmed_lines_witness :
  ∃ ls : list string,
    "SELECT *" +:+ nl +:+ "FROM t" = Str.Join ls nl ∧
    ls `sublist_of` (trim_line <$> ["-- name: a"; "  SELECT *  "; "   "; "FROM t"]) ∧
    Forall (fun l => l ≠ EmptyString) ls ∧
    (ls = [] -> (∅ : gmap string string) ≠ ∅).
Proof.
  apply (bodies_join_trimmed_lines newScanner "f.sql"
           ["-- name: a"; "  SELECT *  "; "   "; "FROM t"] "a"
           (mkScannedQuery ("SELECT *" +:+ nl +:+ "FROM t") ∅)).
  vm_compute. reflexivity.
Defined.
